(** * Coordinate-ascent tuning of GP hyper-parameters (optimize_parameters.py)

    A shallow embedding of [cross_validate_gp], [cross_validate_fewshot] and
    [optimize_gp_params], of the default tables and of the reading of the
    command line, and the properties of the search, of the two
    cross-validation evaluators and of the script.

    Conventions of the embedding:
    - a Python exception is a value [Err e] of the error monad [result];
    - a Python float is a rational ([Q]); the infinities that the optimizer
      itself introduces ([-np.infty]) are the constructors of [fl]; NaN is
      not represented, so every property of the search is about scores
      that the comparisons put in order;
    - a [dict] is an insertion-ordered association list ([dict_set],
      [dict_get]) where the iteration order is observable (the two [max]
      calls), and a [gmap] where only lookups matter (the keyword arguments);
    - the objects of scikit-learn, of the GP class and of the metrics are
      fields of the class [Externals]; the [while] loop takes fuel, and
      [loop_terminates] shows that enough fuel always exists. *)

From Stdlib Require Import QArith Sorted Ascii.
From stdpp Require Import base list gmap strings.

#[local] Set Warnings "-clear-no-such-hyp".
Local Open Scope nat_scope.

(** * Part I: the embedding *)

(** ** Python primitives *)

Module Py.

(** The exceptions that the code can raise.  [UninitialisedRead] is not
    one of Python's: it marks a read of a cell of [np.ndarray] that was
    never assigned, where NumPy would return whatever the memory holds. *)
Inductive exn : Type :=
  | KeyError
  | IndexError
  | ValueError
  | TypeError
  | ZeroDivisionError
  | UninitialisedRead.

Inductive result (A : Type) : Type :=
  | Ok (a : A)
  | Err (e : exn).
Arguments Ok {A} a.
Arguments Err {A} e.

Definition bind {A B} (m : result A) (k : A → result B) : result B :=
  match m with
  | Ok a => k a
  | Err e => Err e
  end.

Definition is_err {A} (m : result A) : Prop :=
  match m with
  | Ok _ => False
  | Err _ => True
  end.

End Py.
Export Py.

Notation "'let*' x := m 'in' k" := (bind m (fun x => k))
  (at level 10, x pattern, m at level 100, k at level 200, only parsing).

(** [xs[i]] on a Python list or a one-dimensional array, [i] non-negative. *)
Definition getitem {A} (xs : list A) (i : nat) : result A :=
  match xs !! i with
  | Some x => Ok x
  | None => Err IndexError
  end.

(** [xs[i] = x] on a Python list. *)
Definition setitem {A} (xs : list A) (i : nat) (x : A) : result (list A) :=
  if decide (i < length xs) then Ok (<[i := x]> xs) else Err IndexError.

(** [[f(x) for x in xs]] where [f] may raise. *)
Fixpoint for_each {A B} (f : A → result B) (xs : list A) : result (list B) :=
  match xs with
  | [] => Ok []
  | x :: xs' =>
      let* y := f x in
      let* ys := for_each f xs' in
      Ok (y :: ys)
  end.

(** [a[ind]] with an integer index array [ind] (NumPy fancy indexing). *)
Definition take_idx {A} (a : list A) (ind : list nat) : result (list A) :=
  for_each (getitem a) ind.

(** *** Floats *)

Definition Qltb (x y : Q) : bool := negb (Qle_bool y x).

(** The floats the optimizer compares: scores, and [-np.infty]. *)
Inductive fl : Type :=
  | MInf
  | Fin (q : Q)
  | PInf.

Definition fl_ltb (x y : fl) : bool :=
  match x, y with
  | MInf, MInf => false
  | MInf, _ => true
  | Fin _, MInf => false
  | Fin a, Fin b => Qltb a b
  | Fin _, PInf => true
  | PInf, _ => false
  end.

Definition fl_le (x y : fl) : Prop := fl_ltb y x = false.

Definition fl_neg (x : fl) : fl :=
  match x with
  | MInf => PInf
  | Fin q => Fin (- q)
  | PInf => MInf
  end.

(** *** Insertion-ordered dictionaries *)

Section Dict.
Context {K : Type} `{EqDecision K} {W : Type}.

(** [d[k] = w]: an existing key keeps its place, a new key goes last. *)
Fixpoint dict_set (k : K) (w : W) (d : list (K * W)) : list (K * W) :=
  match d with
  | [] => [(k, w)]
  | (k', w') :: d' =>
      if decide (k = k') then (k', w) :: d' else (k', w') :: dict_set k w d'
  end.

(** [d[k]] *)
Fixpoint dict_get (k : K) (d : list (K * W)) : result W :=
  match d with
  | [] => Err KeyError
  | (k', w') :: d' => if decide (k = k') then Ok w' else dict_get k d'
  end.

(** [d.keys()], in iteration order. *)
Definition dict_keys (d : list (K * W)) : list K := d.*1.

End Dict.

(** *** [max(xs, key = f)] *)

Section Max.
Context {A : Type}.
Variable key : A → result Q.

(** CPython keeps the running maximum and replaces it only by an item
    whose key is strictly greater. *)
Fixpoint max_from (best : A) (kbest : Q) (xs : list A) : result A :=
  match xs with
  | [] => Ok best
  | x :: xs' =>
      let* kx := key x in
      if Qltb kbest kx then max_from x kx xs' else max_from best kbest xs'
  end.

Definition py_max (xs : list A) : result A :=
  match xs with
  | [] => Err ValueError
  | x :: xs' => let* kx := key x in max_from x kx xs'
  end.

End Max.

(** [any(bs)] *)
Definition py_any (bs : list bool) : bool := existsb id bs.

(** ** The collaborators *)

(** A keyword argument of the GP constructor: a kernel hyper-parameter or
    the precomputed distance matrix. *)
Inductive kwarg (V pdist_t : Type) : Type :=
  | Hyper (v : V)
  | Pdist (m : pdist_t).
Arguments Hyper {V pdist_t} v.
Arguments Pdist {V pdist_t} m.

(** The pairs [(train_ind, test_ind)] a splitter yields. *)
Abbreviation folds_t := (list (list nat * list nat)).

(** What the module imports and does not define: the GP class of [ital.gp],
    the two splitters and the two metrics of scikit-learn, [math.sqrt], and
    the numexpr expression that gives the pairwise squared distances.  A
    splitter is built from [n_splits], [shuffle] and [random_state]; its
    [split] method receives the samples, the labels if there are any, and
    the state [rng] of NumPy's global generator at the time of the call,
    which scikit-learn consults only when [random_state] is [None]. *)
Class Externals (feature V gpstate rng pdist_t splitter : Type) := {
  GaussianProcess :
    list feature → gmap string (kwarg V pdist_t) → result gpstate;
  gp_fit : gpstate → list nat → list Q → result gpstate;
  gp_predict_stored : gpstate → list nat → result (list Q);
  KFold : nat → bool → option Z → result splitter;
  StratifiedKFold : nat → bool → option Z → result splitter;
  split : splitter → rng → list feature → option (list Z) → result folds_t;
  average_precision_score : list Z → list Q → result Q;
  mean_squared_error : list Q → list Q → result Q;
  math_sqrt : Q → result Q;
  pairwise_sqdist : list feature → pdist_t
}.

Record dataset (feature : Type) : Type := {
  X_train : list feature;
  X_train_norm : list feature;
  y_train : list Q
}.
Arguments X_train {feature} d.
Arguments X_train_norm {feature} d.
Arguments y_train {feature} d.

(** ** Calls on the predictor, recorded *)

(** The evaluators run in the error monad and keep a log of what they ask
    of the predictor and of where they write predictions. *)
Inductive event : Type :=
  | EvFit (samples : list nat)
  | EvPredict (samples : list nat)
  | EvStore (cells : list nat).

Definition traced (A : Type) : Type := list event * result A.

Definition tret {A} (a : A) : traced A := ([], Ok a).

Definition tbind {A B} (m : traced A) (k : A → traced B) : traced B :=
  match m with
  | (l, Ok a) => let (l', r) := k a in (l ++ l', r)
  | (l, Err e) => (l, Err e)
  end.

Definition lift {A} (m : result A) : traced A := ([], m).

Definition log (ev : event) : traced unit := ([ev], Ok tt).

Arguments tret : simpl never.
Arguments tbind : simpl never.
Arguments lift : simpl never.
Arguments log : simpl never.

Notation "'do*' x := m 'in' k" := (tbind m (fun x => k))
  (at level 10, x pattern, m at level 100, k at level 200, only parsing).

(** ** The two evaluators *)

(** [a[mask]] with a boolean mask of the same length. *)
Fixpoint mask {A} (a : list A) (m : list bool) : list A :=
  match a, m with
  | x :: a', b :: m' => if b then x :: mask a' m' else mask a' m'
  | _, _ => []
  end.

(** The cells of [np.ndarray((n,))] hold nothing until assigned. *)
Definition read_all (cells : list (option Q)) : result (list Q) :=
  for_each (λ c, match c with
                 | Some q => Ok q
                 | None => Err UninitialisedRead
                 end) cells.

Fixpoint assign_all (cells : list (option Q)) (ivs : list (nat * Q))
    : result (list (option Q)) :=
  match ivs with
  | [] => Ok cells
  | (i, v) :: ivs' =>
      let* cells' := setitem cells i (Some v) in
      assign_all cells' ivs'
  end.

(** [cells[ind] = vals]: the values are as many as the indices, or a
    single one that is broadcast. *)
Definition assign_idx (cells : list (option Q)) (ind : list nat)
    (vals : list Q) : result (list (option Q)) :=
  if decide (length vals = length ind) then assign_all cells (zip ind vals)
  else match vals with
       | [v] => assign_all cells (zip ind (replicate (length ind) v))
       | _ => Err ValueError
       end.

Definition Qsum (qs : list Q) : Q := foldr Qplus 0%Q qs.

(** [np.mean(qs)]; NumPy gives nan for the empty list, which no splitter
    with at least two folds produces, and [Q] gives 0 there. *)
Definition np_mean (qs : list Q) : Q :=
  (Qsum qs / inject_Z (Z.of_nat (length qs)))%Q.

Section Evaluators.
Context {feature V gpstate rng pdist_t splitter : Type}.
Context `{!Externals feature V gpstate rng pdist_t splitter}.

Implicit Types (ds : dataset feature) (relevance : option (list Z)).
Implicit Types (gp_params : gmap string (kwarg V pdist_t)).

(** Lines 48-51 and 84-87. *)
Definition not_unnameable ds relevance : result (list nat) :=
  let every := seq 0 (length (X_train ds)) in
  match relevance with
  | None => Ok every
  | Some rel =>
      if decide (length rel = length every)
      then Ok (mask every (map (λ r, negb (r =? 0)%Z) rel))
      else Err IndexError
  end.

(** Lines 56-57 and 92-93: the splitter, and the folds it yields. *)
Definition make_folds (g : rng) ds relevance (nn : list nat) (n_folds : nat)
    : result folds_t :=
  let* kfold := match relevance with
                | Some _ => StratifiedKFold n_folds true (Some 0%Z)
                | None => KFold n_folds true (Some 0%Z)
                end in
  let* X := take_idx (X_train_norm ds) nn in
  let* y := match relevance with
            | Some rel => let* r := take_idx rel nn in Ok (Some r)
            | None => Ok None
            end in
  split kfold g X y.

(** The labels handed to [fit] for the fold indices [ind]. *)
Definition fit_targets ds relevance (nn ind : list nat) : result (list Q) :=
  match relevance with
  | Some rel =>
      let* samples := take_idx nn ind in
      let* r := take_idx rel samples in
      Ok (map inject_Z r)
  | None => take_idx (y_train ds) ind
  end.

(** Lines 57-59. *)
Fixpoint gp_folds ds relevance (nn : list nat) (gp : gpstate)
    (scores : list (option Q)) (folds : folds_t)
    : traced (list (option Q)) :=
  match folds with
  | [] => tret scores
  | (train_ind, test_ind) :: rest =>
      do* fit_on := lift (take_idx nn train_ind) in
      do* targets := lift (fit_targets ds relevance nn train_ind) in
      do* _ := log (EvFit fit_on) in
      do* gp' := lift (gp_fit gp fit_on targets) in
      do* predict_on := lift (take_idx nn test_ind) in
      do* _ := log (EvPredict predict_on) in
      do* preds := lift (gp_predict_stored gp' predict_on) in
      do* scores' := lift (assign_idx scores test_ind preds) in
      do* _ := log (EvStore test_ind) in
      gp_folds ds relevance nn gp' scores' rest
  end.

(** Line 61: the metric over the pooled predictions. *)
Definition pooled_metric ds relevance (nn : list nat)
    (scores : list (option Q)) : result Q :=
  match relevance with
  | Some rel =>
      let* y := take_idx rel nn in
      let* s := read_all scores in
      average_precision_score y s
  | None =>
      let* s := read_all scores in
      let* mse := mean_squared_error (y_train ds) s in
      let* r := math_sqrt mse in
      Ok (- r)%Q
  end.

Definition cross_validate_gp (g : rng) ds relevance gp_params
    (n_folds : nat) : traced Q :=
  do* nn := lift (not_unnameable ds relevance) in
  let scores := replicate (length nn) None in
  do* gp := lift (GaussianProcess (X_train_norm ds) gp_params) in
  do* folds := lift (make_folds g ds relevance nn n_folds) in
  do* scores' := gp_folds ds relevance nn gp scores folds in
  lift (pooled_metric ds relevance nn scores').

(** Line 96: the score of one fold of the few-shot evaluator. *)
Definition fewshot_metric ds relevance (nn train_ind : list nat)
    (scores : list Q) : result Q :=
  match relevance with
  | Some rel =>
      let* samples := take_idx nn train_ind in
      let* y := take_idx rel samples in
      average_precision_score y scores
  | None =>
      let* y := take_idx (y_train ds) train_ind in
      let* mse := mean_squared_error y scores in
      let* r := math_sqrt mse in
      Ok (- r)%Q
  end.

(** Lines 93-96; [perf] grows by [append]. *)
Fixpoint fewshot_folds ds relevance (nn : list nat) (gp : gpstate)
    (perf : list Q) (folds : folds_t) : traced (list Q) :=
  match folds with
  | [] => tret perf
  | (train_ind, test_ind) :: rest =>
      do* fit_on := lift (take_idx nn test_ind) in
      do* targets := lift (fit_targets ds relevance nn test_ind) in
      do* _ := log (EvFit fit_on) in
      do* gp' := lift (gp_fit gp fit_on targets) in
      do* predict_on := lift (take_idx nn train_ind) in
      do* _ := log (EvPredict predict_on) in
      do* scores := lift (gp_predict_stored gp' predict_on) in
      do* p := lift (fewshot_metric ds relevance nn train_ind scores) in
      fewshot_folds ds relevance nn gp' (perf ++ [p]) rest
  end.

Definition cross_validate_fewshot (g : rng) ds relevance gp_params
    (n_folds : nat) : traced Q :=
  do* nn := lift (not_unnameable ds relevance) in
  do* gp := lift (GaussianProcess (X_train_norm ds) gp_params) in
  do* folds := lift (make_folds g ds relevance nn n_folds) in
  do* perf := fewshot_folds ds relevance nn gp [] folds in
  tret (np_mean perf).



End Evaluators.

(** ** The coordinate-ascent search *)

(** The variables of the [while] loop of [optimize_gp_params]. *)
Record opt_state (V : Type) : Type := {
  cur_params : list V;
  changed : list bool;
  changing_param : nat;
  perf : list (list V * Q);
  best_perf : fl
}.
Arguments cur_params {V} o.
Arguments changed {V} o.
Arguments changing_param {V} o.
Arguments perf {V} o.
Arguments best_perf {V} o.

(** How one pass through the loop body ends. *)
Inductive outcome (V : Type) : Type :=
  | Continue (st : opt_state V)
  | Break (st : opt_state V).
Arguments Continue {V} st.
Arguments Break {V} st.

Section Search.
Context {V pdist_t : Type} `{EqDecision V}.

(** The evaluator chosen for the run, the grid and the distance matrix. *)
Variable cv : gmap string (kwarg V pdist_t) → result Q.
Variable grid : list (string * list V).
Variable pdist : pdist_t.

Implicit Types (st : opt_state V) (val : V).

(** Line 130. *)
Definition param_names : list string := dict_keys grid.

(** Line 144, one entry of the comprehension. *)
Definition cv_entry (a : nat) val (cur : list V) (i : nat)
    : result (string * V) :=
  let* name := getitem param_names i in
  let* v := if decide (i = a) then Ok val else getitem cur i in
  Ok (name, v).

(** Lines 144-145. *)
Definition cv_params_of (a : nat) val (cur : list V)
    : result (gmap string (kwarg V pdist_t)) :=
  let* entries := for_each (cv_entry a val cur) (seq 0 (length param_names)) in
  Ok (<["pdist" := Pdist pdist]>
        (foldl (λ m e, <[e.1 := Hyper e.2]> m) ∅ entries)).

(** Lines 143-149: the body of the [for], from [cur_perfs] to [cur_perfs]. *)
Fixpoint sweep_from (a : nat) (cur : list V) (cur_perfs : list (V * Q))
    (vals : list V) : result (list (V * Q)) :=
  match vals with
  | [] => Ok cur_perfs
  | val :: vals' =>
      let* cv_params := cv_params_of a val cur in
      let* s := cv cv_params in
      sweep_from a cur (dict_set val s cur_perfs) vals'
  end.

(** Lines 142-149. *)
Definition sweep st : result (list (V * Q)) :=
  let* name := getitem param_names (changing_param st) in
  let* vals := dict_get name grid in
  sweep_from (changing_param st) (cur_params st) [] vals.

(** [max(d.keys(), key = lambda k: d[k])], lines 152 and 169. *)
Definition dict_argmax {K} `{EqDecision K} (d : list (K * Q)) : result K :=
  py_max (λ k, dict_get k d) (dict_keys d).

(** Lines 142-167, one pass through the body of the [while]. *)
Definition step st : result (outcome V) :=
  let* cur_perfs := sweep st in
  let* best_val := dict_argmax cur_perfs in
  let* s := dict_get best_val cur_perfs in
  if fl_ltb (Fin s) (best_perf st) then Ok (Break st)
  else
    let a := changing_param st in
    let* old := getitem (cur_params st) a in
    let* changed' := setitem (changed st) a (bool_decide (best_val ≠ old)) in
    let* cur' := setitem (cur_params st) a best_val in
    let perf' := dict_set cur' s (perf st) in
    if decide (length param_names = 0) then Err ZeroDivisionError
    else
      let st' := {| cur_params := cur';
                    changed := changed';
                    changing_param := (a + 1) mod length param_names;
                    perf := perf';
                    best_perf := Fin s |} in
      if decide (length param_names < 2) then Ok (Break st')
      else Ok (Continue st').

(** The [while]; [None] when the fuel runs out before the loop ends. *)
Fixpoint loop (fuel : nat) st : option (result (opt_state V)) :=
  if py_any (changed st) then
    match fuel with
    | 0 => None
    | S fuel' =>
        match step st with
        | Err e => Some (Err e)
        | Ok (Break st') => Some (Ok st')
        | Ok (Continue st') => loop fuel' st'
        end
    end
  else Some (Ok st).

(** Lines 130-135. *)
Definition init_state (init : gmap string V) : result (opt_state V) :=
  let* cur := for_each (λ p, match init !! p with
                             | Some v => Ok v
                             | None => Err KeyError
                             end) param_names in
  Ok {| cur_params := cur;
        changed := replicate (length param_names) true;
        changing_param := 0;
        perf := [];
        best_perf := MInf |}.

(** Lines 169-170; [retrieval] is [relevance is not None]. *)
Definition finish (retrieval : bool) st
    : result (list (string * V) * fl) :=
  let* best_params := dict_argmax (perf st) in
  Ok (zip param_names best_params,
      if retrieval then best_perf st else fl_neg (best_perf st)).

Definition search (fuel : nat) (init : gmap string V) (retrieval : bool)
    : option (result (list (string * V) * fl)) :=
  match init_state init with
  | Err e => Some (Err e)
  | Ok st0 =>
      match loop fuel st0 with
      | None => None
      | Some (Err e) => Some (Err e)
      | Some (Ok st) => Some (finish retrieval st)
      end
  end.

End Search.

Section Optimize.
Context {feature V gpstate rng pdist_t splitter : Type} `{EqDecision V}.
Context `{!Externals feature V gpstate rng pdist_t splitter}.

(** Lines 146-149: the evaluator of the run, as a function of the
    keyword arguments; the log of its calls is dropped here. *)
Definition evaluator (g : rng) (ds : dataset feature)
    (relevance : option (list Z)) (n_folds : nat) (fewshot : bool)
    (cv_params : gmap string (kwarg V pdist_t)) : result Q :=
  if fewshot
  then (cross_validate_fewshot g ds relevance cv_params n_folds).2
  else (cross_validate_gp g ds relevance cv_params n_folds).2.

(** [optimize_gp_params]; [g] is the state of the global generator when
    the function is called, [fuel] bounds the passes of the [while], and
    the printing that [verbose] controls is left out. *)
Definition optimize_gp_params (fuel : nat) (g : rng)
    (ds : dataset feature) (relevance : option (list Z))
    (grid : list (string * list V)) (init : gmap string V)
    (n_folds : nat) (fewshot : bool)
    : option (result (list (string * V) * fl)) :=
  search (evaluator g ds relevance n_folds fewshot) grid
    (pairwise_sqdist (X_train_norm ds)) fuel init
    (bool_decide (is_Some relevance)).

End Optimize.

(** ** The default tables and the calls of the script *)

(** Equality of floats.  The floats of the tables below are written as
    fractions in lowest terms, so that equal floats are equal terms. *)
#[global] Instance Q_eq_dec : EqDecision Q := λ x y,
  match x, y with
  | Qmake a b, Qmake c d =>
      match decide (a = c), decide (b = d) with
      | left Ha, left Hb => left (f_equal2 Qmake Ha Hb)
      | right Hn, _ => right (λ H : a # b = c # d, Hn (f_equal Qnum H))
      | _, right Hn => right (λ H : a # b = c # d, Hn (f_equal Qden H))
      end
  end.

(** Lines 16-22: 0.001, 0.005, 0.01, 0.05, 0.1, 0.5, 1.0, 1.5, 2.0, 2.5,
    3 to 10, 15, 20, 25 for the length scale; 0.1, 0.5, 1.0, 1.5, 2.0, 2.5,
    5.0, 10.0 for the variance; 1e-8, 1e-6, 1e-4, 1e-3, 1e-2, 0.05, 0.1 for
    the noise. *)
Definition default_grids : list (string * list (string * list Q)) :=
  [("full",
    [("length_scale",
      [1 # 1000; 1 # 200; 1 # 100; 1 # 20; 1 # 10; 1 # 2; 1; 3 # 2; 2; 5 # 2;
       3; 4; 5; 6; 7; 8; 9; 10; 15; 20; 25]%Q);
     ("var", [1 # 10; 1 # 2; 1; 3 # 2; 2; 5 # 2; 5; 10]%Q);
     ("noise",
      [1 # 100000000; 1 # 1000000; 1 # 10000; 1 # 1000; 1 # 100; 1 # 20;
       1 # 10]%Q)]);
   ("ls_only",
    [("length_scale",
      [1 # 1000; 1 # 200; 1 # 100; 1 # 20; 1 # 10; 1 # 2; 1; 3 # 2; 2; 5 # 2;
       3; 4; 5; 6; 7; 8; 9; 10; 15; 20; 25]%Q)])].

(** Line 24: 0.1, 1.0 and 1e-6. *)
Definition default_init : gmap string Q :=
  {["length_scale" := (1 # 10)%Q; "var" := 1%Q; "noise" := (1 # 1000000)%Q]}.

Section Script.
Context {feature gpstate rng pdist_t splitter : Type}.
Context `{!Externals feature Q gpstate rng pdist_t splitter}.

(** Lines 218-221 and 245-248: the call the script makes for a regression
    dataset and for each class of a retrieval dataset.  [grid_name],
    [n_folds] and [fewshot] are what the configuration holds for [grid],
    [n_folds] and [few_shot]; [init] is left to its default. *)
Definition optimize_configured (fuel : nat) (g : rng)
    (ds : dataset feature) (relevance : option (list Z))
    (grid_name : string) (n_folds : nat) (fewshot : bool)
    : option (result (list (string * Q) * fl)) :=
  match dict_get grid_name default_grids with
  | Err e => Some (Err e)
  | Ok grid =>
      optimize_gp_params fuel g ds relevance grid default_init n_folds fewshot
  end.

End Script.

(** ** The command line of the script *)

(** [c.lower()] for a character of an ASCII string.  The comparison of
    line 180 is the only use: no character outside ASCII has a lower case
    among the characters of [--help]. *)
Definition lower_ascii (c : ascii) : ascii :=
  let n := nat_of_ascii c in
  if (65 <=? n) && (n <=? 90) then ascii_of_nat (n + 32) else c.

Fixpoint lower (s : string) : string :=
  match s with
  | EmptyString => EmptyString
  | String c s' => String (lower_ascii c) (lower s')
  end.

(** [s.split('=', maxsplit = 1)] when it gives two parts; with no ['='] in
    [s] it gives one part, and the unpacking of line 184 fails. *)
Fixpoint split_eq (s : string) : option (string * string) :=
  match s with
  | EmptyString => None
  | String c s' =>
      if decide (c = "="%char) then Some (EmptyString, s')
      else match split_eq s' with
           | Some (k, v) => Some (String c k, v)
           | None => None
           end
  end.

(** [arg[2:]] when [arg.startswith('--')]. *)
Definition dashed (arg : string) : option string :=
  match arg with
  | String "-" (String "-" kv) => Some kv
  | _ => None
  end.

(** How lines 177-211 end: with the usage text and [exit()], with the
    message about an unexpected argument and [exit()], or with a
    configuration file and overrides, which line 214 loads. *)
Inductive cli : Type :=
  | Usage
  | Unexpected (arg : string)
  | Load (config_file : string) (overrides : list (string * string)).

(** Lines 179-191: the [for] over [sys.argv[1:]], from the values of
    [config_file] and [overrides], and the test of line 191. *)
Fixpoint parse_args (args : list string) (config_file : option string)
    (overrides : list (string * string)) : result cli :=
  match args with
  | [] =>
      match config_file with
      | None => Ok Usage
      | Some f => Ok (Load f overrides)
      end
  | arg :: rest =>
      if decide (lower arg = "--help") then Ok Usage
      else
        match dashed arg with
        | Some kv =>
            match split_eq kv with
            | Some (k, v) => parse_args rest config_file (dict_set k v overrides)
            | None => Err ValueError
            end
        | None =>
            match config_file with
            | None => parse_args rest (Some arg) overrides
            | Some _ => Ok (Unexpected arg)
            end
        end
  end.

(** Lines 177-191. *)
Definition parse_argv (args : list string) : result cli :=
  parse_args args None [].

(** * Part II: the notions in which the properties are stated *)

(** ** Logs *)

(** The samples on which an event asks the predictor to work. *)
Definition asks (ev : event) : list nat :=
  match ev with
  | EvFit samples => samples
  | EvPredict samples => samples
  | EvStore _ => []
  end.

(** The cells of the pooled array that a log writes, in order. *)
Definition stores (evs : list event) : list nat :=
  concat (omap (λ ev, match ev with
                      | EvStore cells => Some cells
                      | _ => None
                      end) evs).

(** Cell [j] of the array holds a prediction. *)
Definition assigned (cells : list (option Q)) (j : nat) : Prop :=
  ∃ q, cells !! j = Some (Some q).

(** ** What is assumed of the splitters

    [KFold] and [StratifiedKFold] are scikit-learn's.  The two facts of
    their documented behaviour that the properties below rest on are stated
    here, and are hypotheses wherever they are used. *)

Section Splitters.
Context {feature V gpstate rng pdist_t splitter : Type}.
Context `{!Externals feature V gpstate rng pdist_t splitter}.

(** A splitter cannot be built with fewer than two folds, and does not
    split fewer samples than it has folds. *)
Definition splitters_refuse : Prop :=
  (∀ k sh rs, k < 2 →
     is_err (KFold k sh rs) ∧ is_err (StratifiedKFold k sh rs)) ∧
  (∀ k sh rs kf g X y,
     KFold k sh rs = Ok kf ∨ StratifiedKFold k sh rs = Ok kf →
     length X < k → is_err (split kf g X y)).

(** The folds of a splitter built with a seed do not depend on the state
    of the global generator. *)
Definition splitters_seeded : Prop :=
  ∀ k sh seed kf g g' X y,
    KFold k sh (Some seed) = Ok kf ∨ StratifiedKFold k sh (Some seed) = Ok kf →
    split kf g X y = split kf g' X y.

(** The test index sets of the folds that a splitter yields are disjoint
    and together are the positions [0 .. n-1] of the [n] samples it is
    given: every position is in the test set of exactly one fold. *)
Definition splitters_partition : Prop :=
  ∀ k sh rs kf g X y folds,
    KFold k sh rs = Ok kf ∨ StratifiedKFold k sh rs = Ok kf →
    split kf g X y = Ok folds →
    concat folds.*2 ≡ₚ seq 0 (length X).
End Splitters.

(** ** The first of the greatest *)

Section FirstMax.
Context {A : Type}.
Variable key : A → result Q.

(** [b] occurs in [xs], every item before that occurrence has a strictly
    smaller key, and no item after it has a greater one. *)
Definition first_max (xs : list A) (b : A) : Prop :=
  ∃ pre post kb,
    xs = pre ++ b :: post ∧ key b = Ok kb ∧
    (∀ x, x ∈ pre → ∃ kx, key x = Ok kx ∧ (kx < kb)%Q) ∧
    (∀ x, x ∈ post → ∃ kx, key x = Ok kx ∧ (kx <= kb)%Q).

End FirstMax.

Section Seen.
Context {A : Type} `{EqDecision A}.

(** The keys after [d[x] = ...] for each [x] of [xs] in turn. *)
Definition seen (acc xs : list A) : list A :=
  foldl (λ acc x, if decide (x ∈ acc) then acc else acc ++ [x]) acc xs.

End Seen.

(** ** Passes of the loop *)

Definition state_of {V} (o : outcome V) : opt_state V :=
  match o with
  | Continue st => st
  | Break st => st
  end.

Section Passes.
Context {V pdist_t : Type} `{EqDecision V}.
Variable cv : gmap string (kwarg V pdist_t) → result Q.
Variable grid : list (string * list V).
Variable pdist : pdist_t.

Implicit Types (st : opt_state V) (val : V) (cur c : list V).

Local Abbreviation names := (param_names grid).
Local Abbreviation step := (step cv grid pdist).

(** The score of [val] on axis [a], the other axes held at [cur]. *)
Definition score_at (a : nat) cur val : result Q :=
  let* cv_params := cv_params_of grid pdist a val cur in
  cv cv_params.

(** [grid[param_names[changing_param]]] *)
Definition candidates st : result (list V) :=
  let* name := getitem (param_names grid) (changing_param st) in
  dict_get name grid.

(** The state after a value [best_val] with score [s] is adopted. *)
Definition adopted st (best_val : V) (s : Q) (st' : opt_state V) : Prop :=
  let a := changing_param st in
  ∃ old,
    cur_params st !! a = Some old ∧
    a < length (changed st) ∧
    length (param_names grid) ≠ 0 ∧
    cur_params st' = <[a := best_val]> (cur_params st) ∧
    changed st' = <[a := bool_decide (best_val ≠ old)]> (changed st) ∧
    changing_param st' = (a + 1) mod length (param_names grid) ∧
    perf st' = dict_set (cur_params st') s (perf st) ∧
    best_perf st' = Fin s.

(** The state after [k] passes that all reach the end of the body. *)
Fixpoint passes (k : nat) st : option (opt_state V) :=
  match k with
  | 0 => Some st
  | S k' =>
      if py_any (changed st) then
        match step st with
        | Ok (Continue st') => passes k' st'
        | _ => None
        end
      else None
  end.

(** The keyword arguments that stand for the configuration [c]. *)
Definition params_of_config c : gmap string (kwarg V pdist_t) :=
  <["pdist" := Pdist pdist]>
    (foldl (λ m e, <[e.1 := Hyper e.2]> m) ∅ (zip names c)).

Definition config_score c : result Q := cv (params_of_config c).

(** What holds of the variables whenever the loop condition is tested. *)
Record inv st : Prop := {
  inv_cur : length (cur_params st) = length names;
  inv_changed : length (changed st) = length names;
  inv_axis : 0 < length names → changing_param st < length names;
  inv_hist : ∀ c s, dict_get c (perf st) = Ok s → fl_le (Fin s) (best_perf st);
  inv_none : best_perf st = MInf → perf st = [];
  inv_best : ∀ s, best_perf st = Fin s →
    dict_get (cur_params st) (perf st) = Ok s ∧
    config_score (cur_params st) = Ok s;
  inv_finite : best_perf st ≠ PInf
}.

End Passes.

(** ** A measure that every pass lowers

    The [while] loop ends because a pass that does not leave the loop
    either adopts a strictly better score, or keeps the score and moves an
    axis to a candidate listed earlier, or changes nothing and clears the
    flag of its axis. *)

(** All the lists that take their element number [i] from the list number
    [i] of [ls]. *)
Fixpoint list_prod {A} (ls : list (list A)) : list (list A) :=
  match ls with
  | [] => [[]]
  | l :: ls' => x ← l; (λ c, x :: c) <$> list_prod ls'
  end.

(** The index of the first occurrence of [x] in [l], or the length of [l]. *)
Fixpoint pos {A} `{EqDecision A} (x : A) (l : list A) : nat :=
  match l with
  | [] => 0
  | y :: l' => if decide (x = y) then 0 else S (pos x l')
  end.

(** One more than the index of the last flag that is set, or 0. *)
Fixpoint last_set (bs : list bool) : nat :=
  match bs with
  | [] => 0
  | b :: bs' =>
      match last_set bs' with
      | 0 => if b then 1 else 0
      | S k => S (S k)
      end
  end.

(** The list read from index [a] on, cyclically. *)
Definition rot {A} (a : nat) (l : list A) : list A := drop a l ++ take a l.

Section Measure.
Context {V pdist_t : Type} `{EqDecision V}.
Variable cv : gmap string (kwarg V pdist_t) → result Q.
Variable grid : list (string * list V).
Variable pdist : pdist_t.

(** The configuration from which the run starts. *)
Variable cur0 : list V.

Implicit Types (st : opt_state V) (val : V) (cur c : list V).

Local Abbreviation names := (param_names grid).
Local Abbreviation n := (length (param_names grid)).

(** The candidates of axis [i]. *)
Definition axis_vals (i : nat) : list V :=
  match (let* name := getitem names i in dict_get name grid) with
  | Ok vals => vals
  | Err _ => []
  end.

Definition axes : list (list V) := axis_vals <$> seq 0 n.

(** The configurations a run can visit: on each axis the initial value or
    a candidate. *)
Definition space : list (list V) := list_prod (zip_with cons cur0 axes).

Definition in_space st : Prop :=
  Forall2 (λ v l, v ∈ l) (cur_params st) (zip_with cons cur0 axes).

(** [c] has a score, strictly above [b]. *)
Definition aboveb (b : fl) c : bool :=
  match config_score cv grid pdist c with
  | Ok s => fl_ltb b (Fin s)
  | Err _ => false
  end.

(** The three components of the measure: the configurations that would
    still improve on [best_perf]; how far down their candidate lists the
    current values are; how many passes are left before every flag has
    been seen cleared. *)
Definition better (b : fl) : nat :=
  length (filter (λ c, aboveb b c = true) space).

Definition depth cur : nat := sum_list (zip_with pos cur axes).

Definition pending st : nat :=
  last_set (rot (changing_param st) (changed st)).

Definition depth_bound : nat := sum_list (length <$> axes).

Definition measure st : nat :=
  (better (best_perf st) * S depth_bound + depth (cur_params st)) * S n
  + pending st.

End Measure.

(** ** What a run records, and when it has converged *)

Section Records.
Context {V pdist_t : Type} `{EqDecision V}.
Variable cv : gmap string (kwarg V pdist_t) → result Q.
Variable grid : list (string * list V).
Variable pdist : pdist_t.
Variable cur0 : list V.

Implicit Types (st : opt_state V) (val : V) (cur c : list V).

Local Abbreviation n := (length (param_names grid)).

(** A grid that can be swept from [init]: it has a parameter, and every
    parameter has a candidate and an initial value. *)
Definition well_formed (init : gmap string V) : Prop :=
  grid ≠ [] ∧ ∀ p vals, (p, vals) ∈ grid → vals ≠ [] ∧ is_Some (init !! p).

(** The current configuration and the keys of [perf] are configurations of
    the grid (on each axis the initial value or a candidate), and [perf]
    holds for each of them the score the evaluator gives it. *)
Definition recorded_ok st : Prop :=
  in_space grid cur0 st ∧
  ∀ c s, dict_get c (perf st) = Ok s →
    c ∈ space grid cur0 ∧ config_score cv grid pdist c = Ok s.

(** The value of [cur] on axis [i] is the first of the best candidates of
    that axis, the other axes held at [cur]. *)
Definition axis_max cur (i : nat) : Prop :=
  ∃ v, cur !! i = Some v ∧
       first_max (score_at cv grid pdist i cur) (axis_vals grid i) v.

(** The number of passes since axis [i] was swept, when the axis to sweep
    next is [a]. *)
Definition since (a i : nat) : nat :=
  if decide (i < a) then a - 1 - i else a + n - 1 - i.

(** The last [u] passes changed nothing, so that the axes they swept are
    at their maximum; the pass before them, if any flag is left from it,
    set its flag. *)
Definition settled st : Prop :=
  ∃ u, u ≤ n ∧
    (∀ i, i < n → since (changing_param st) i < u →
          axis_max (cur_params st) i) ∧
    (u < n → ∃ i, i < n ∧ since (changing_param st) i = u ∧
                  changed st !! i = Some true).

(** The loop variables after [k] passes in a row that have kept the
    configuration [cur0], whose score is [s]. *)
Definition kept (s : Q) (k : nat) st : Prop :=
  cur_params st = cur0 ∧
  changed st = replicate k false ++ replicate (n - k) true ∧
  changing_param st = k mod n ∧
  if decide (k = 0) then best_perf st = MInf ∧ perf st = []
  else best_perf st = Fin s ∧ perf st = [(cur0, s)].
End Records.

(** ** Overrides on the command line *)

(** The key and the value that an argument of the form [--key=value]
    stands for. *)
Definition override_of (arg : string) : option (string * string) :=
  match dashed arg with
  | Some kv => split_eq kv
  | None => None
  end.

(** The argument that stands for a key and a value. *)
Definition render_override (kv : string * string) : string :=
  "--" +:+ kv.1 +:+ "=" +:+ kv.2.

(** [overrides[k] = v] for each pair in turn. *)
Definition assign_overrides (d : list (string * string))
    (kvs : list (string * string)) : list (string * string) :=
  foldl (λ d kv, dict_set kv.1 kv.2 d) d kvs.

(** ** The predictions of the folds of the standard evaluator *)

Section Pooled.
Context {feature V gpstate rng pdist_t splitter : Type}.
Context `{!Externals feature V gpstate rng pdist_t splitter}.

Implicit Types (ds : dataset feature) (relevance : option (list Z)).


End Pooled.

(** ** A concrete set of collaborators

    Small executable stand-ins, used to run the embedding on examples: an
    unshuffled k-fold splitter, and a predictor whose predictions are all
    equal to a number [quality cv_params], so that an evaluator scores a
    configuration with exactly that number. *)

Module Toy.

(** Test block number [i] of [k] contiguous blocks over [0 .. n-1],
    starting at [start]; the first [n mod k] blocks have one more
    element, as in scikit-learn. *)
Fixpoint blocks (n k : nat) (start i : nat) (todo : nat) : list (list nat) :=
  match todo with
  | 0 => []
  | S todo' =>
      let size := n / k + (if decide (i < n mod k) then 1 else 0) in
      seq start size :: blocks n k (start + size) (S i) todo'
  end.

Definition complement (n : nat) (test : list nat) : list nat :=
  filter (λ i, i ∉ test) (seq 0 n).

(** A splitter is its number of folds and its seed, if any. *)
Definition new_kfold (n_splits : nat) (shuffle : bool)
    (random_state : option Z) : result (nat * option Z) :=
  if decide (n_splits < 2) then Err ValueError
  else Ok (n_splits, random_state).

(** With a seed the split is fixed; without one it is rotated by the
    state of the global generator. *)
Definition kfold_split (kf : nat * option Z) (g : nat) (n : nat)
    : result folds_t :=
  if decide (n < kf.1) then Err ValueError
  else
    let shift := match kf.2 with
                 | Some seed => Z.to_nat seed
                 | None => g
                 end in
    Ok (map (λ b, let test := map (λ i, (i + shift) mod n) b in
                  (complement n test, test))
            (blocks n kf.1 0 0 kf.1)).

Definition mean_sq (y s : list Q) : Q :=
  np_mean (zip_with (λ a b, (a - b) * (a - b))%Q y s).

Definition externals (quality : gmap string (kwarg Z unit) → Q)
    : Externals Z Z Q nat unit (nat * option Z) :=
  {| GaussianProcess := λ _ kw, Ok (quality kw);
     gp_fit := λ gp _ _, Ok gp;
     gp_predict_stored := λ gp ind, Ok (replicate (length ind) gp);
     KFold := new_kfold;
     StratifiedKFold := new_kfold;
     split := λ kf g X _, kfold_split kf g (length X);
     average_precision_score := λ _ s, Ok (np_mean s);
     mean_squared_error := λ y s, Ok (mean_sq y s);
     math_sqrt := λ q, Ok q;
     pairwise_sqdist := λ _, tt |}.

(** The same stand-ins for hyper-parameters that are floats. *)
Definition externals_q (quality : gmap string (kwarg Q unit) → Q)
    : Externals Z Q Q nat unit (nat * option Z) :=
  {| GaussianProcess := λ _ kw, Ok (quality kw);
     gp_fit := λ gp _ _, Ok gp;
     gp_predict_stored := λ gp ind, Ok (replicate (length ind) gp);
     KFold := new_kfold;
     StratifiedKFold := new_kfold;
     split := λ kf g X _, kfold_split kf g (length X);
     average_precision_score := λ _ s, Ok (np_mean s);
     mean_squared_error := λ y s, Ok (mean_sq y s);
     math_sqrt := λ q, Ok q;
     pairwise_sqdist := λ _, tt |}.

(** The value of a hyper-parameter in a set of keyword arguments. *)
Definition hyper (name : string) (kw : gmap string (kwarg Z unit)) : Z :=
  match kw !! name with
  | Some (Hyper v) => v
  | _ => 0%Z
  end.

(** Six samples, the last two of unknown relevance. *)
Definition ds6 : dataset Z :=
  {| X_train := [0; 1; 2; 3; 4; 5]%Z;
     X_train_norm := [0; 1; 2; 3; 4; 5]%Z;
     y_train := [0; 0; 0; 0; 0; 0]%Q |}.

Definition rel6 : list Z := [1; 1; -1; -1; 0; 0]%Z.

End Toy.

(** ** Example runs *)

Module Demo.

(** A score that is best at length_scale 5, var 2 and noise 0. *)
Definition quality (kw : gmap string (kwarg Z unit)) : Q :=
  let ls := Toy.hyper "length_scale" kw in
  let var := Toy.hyper "var" kw in
  let noise := Toy.hyper "noise" kw in
  inject_Z (- ((ls - 5) * (ls - 5)) - ((var - 2) * (var - 2)) - noise * noise).

#[global] Instance ext : Externals Z Z Q nat unit (nat * option Z) :=
  Toy.externals quality.

(** The standard evaluator on the six-sample retrieval task, two folds. *)
Definition cv : gmap string (kwarg Z unit) → result Q :=
  evaluator 0 Toy.ds6 (Some Toy.rel6) 2 false.

Definition grid1 : list (string * list Z) :=
  [("length_scale", [1; 10]%Z)].
Definition init1 : gmap string Z := {["length_scale" := 1%Z]}.
Definition init5 : gmap string Z := {["length_scale" := 5%Z]}.

Definition grid2 : list (string * list Z) :=
  [("length_scale", [1; 10; 4; 6]%Z); ("var", [1; 3; 2]%Z)].
Definition init2 : gmap string Z :=
  {["length_scale" := 4%Z; "var" := 1%Z; "noise" := 7%Z]}.
Definition start2 : opt_state Z :=
  {| cur_params := [4; 1]%Z; changed := [true; true]; changing_param := 0;
     perf := []; best_perf := MInf |}.
Definition after2 : opt_state Z :=
  {| cur_params := [4; 1]%Z; changed := [false; true]; changing_param := 1;
     perf := [([4; 1]%Z, (-8 # 4)%Q)]; best_perf := Fin (-8 # 4) |}.

(** A grid whose third axis has no value as good as the initial one. *)
Definition grid3 : list (string * list Z) :=
  [("length_scale", [5]%Z); ("var", [3]%Z); ("noise", [3]%Z)].
Definition init3 : gmap string Z :=
  {["length_scale" := 5%Z; "var" := 1%Z; "noise" := 0%Z]}.
Definition start3 : opt_state Z :=
  {| cur_params := [5; 1; 0]%Z; changed := [true; true; true];
     changing_param := 0; perf := []; best_perf := MInf |}.
Definition stop3 : opt_state Z :=
  {| cur_params := [5; 3; 0]%Z; changed := [false; true; true];
     changing_param := 2;
     perf := [([5; 1; 0]%Z, (-4 # 4)%Q); ([5; 3; 0]%Z, (-4 # 4)%Q)];
     best_perf := Fin (-4 # 4) |}.

(** A score that is best at length scale 2, for the default tables. *)
Definition quality_q (kw : gmap string (kwarg Q unit)) : Q :=
  match kw !! "length_scale" with
  | Some (Hyper ls) => (- ((ls - 2) * (ls - 2)))%Q
  | _ => 0%Q
  end.

Definition ext_q : Externals Z Q Q nat unit (nat * option Z) :=
  Toy.externals_q quality_q.

(** The values on which the run from [init2] ends, as initial values. *)
Definition init_end2 : gmap string Z :=
  {["length_scale" := 4%Z; "var" := 2%Z]}.

(** The state in which the run from [start2] ends. *)
Definition end2 : opt_state Z :=
  {| cur_params := [4; 2]%Z; changed := [false; false]; changing_param := 0;
     perf := [([4; 1]%Z, (-8 # 4)%Q); ([4; 2]%Z, (-4 # 4)%Q)];
     best_perf := Fin (-4 # 4) |}.

End Demo.

(** * Part III: the properties *)

(** ** Facts about the primitives *)

Lemma Qltb_lt (x y : Q) : Qltb x y = true ↔ (x < y)%Q.
Proof.
  unfold Qltb. rewrite negb_true_iff. split.
  - intros Hb. apply Qnot_le_lt. intros Hle.
    apply Qle_bool_iff in Hle. congruence.
  - intros Hlt. destruct (Qle_bool y x) eqn:Hb; [|done].
    apply Qle_bool_iff in Hb. by apply Qlt_not_le in Hlt.
Qed.

Lemma Qltb_ge (x y : Q) : Qltb x y = false ↔ (y <= x)%Q.
Proof.
  unfold Qltb. rewrite negb_false_iff. apply Qle_bool_iff.
Qed.

Lemma Qltb_irrefl (x : Q) : Qltb x x = false.
Proof. apply Qltb_ge, Qle_refl. Qed.

Lemma fl_le_refl (x : fl) : fl_le x x.
Proof.
  destruct x; unfold fl_le; simpl; [done| |done].
  apply Qltb_ge, Qle_refl.
Qed.

Lemma fl_le_trans (x y z : fl) : fl_le x y → fl_le y z → fl_le x z.
Proof.
  unfold fl_le. destruct x, y, z; simpl; try done.
  rewrite !Qltb_ge. intros. by eapply Qle_trans.
Qed.

Lemma fl_le_Fin (a b : Q) : fl_le (Fin a) (Fin b) ↔ (a <= b)%Q.
Proof. unfold fl_le. simpl. apply Qltb_ge. Qed.

Lemma fl_le_neg_neg (x y : fl) : fl_le x y → fl_le x (fl_neg (fl_neg y)).
Proof.
  destruct x, y; unfold fl_le; simpl; try done.
  rewrite !Qltb_ge. by rewrite Qopp_involutive.
Qed.

Lemma bind_Ok {A B} (m : result A) (k : A → result B) (b : B) :
  bind m k = Ok b ↔ ∃ a, m = Ok a ∧ k a = Ok b.
Proof.
  destruct m as [a|e]; simpl; split.
  - eauto.
  - by intros (a' & [= <-] & ?).
  - done.
  - by intros (a' & ? & ?).
Qed.

Lemma getitem_Ok {A} (xs : list A) i x : getitem xs i = Ok x ↔ xs !! i = Some x.
Proof. unfold getitem. destruct (xs !! i); naive_solver. Qed.

Lemma setitem_Ok {A} (xs ys : list A) i x :
  setitem xs i x = Ok ys ↔ i < length xs ∧ ys = <[i := x]> xs.
Proof.
  unfold setitem. case_decide.
  - split; [by intros [= <-] | by intros [_ ->]].
  - split; [done | by intros [? _]].
Qed.

Lemma for_each_Ok {A B} (f : A → result B) xs ys :
  for_each f xs = Ok ys ↔ Forall2 (λ x y, f x = Ok y) xs ys.
Proof.
  revert ys. induction xs as [|x xs IH]; intros ys; simpl.
  - split; [intros [= <-]; constructor | by intros ->%Forall2_nil_inv_l].
  - rewrite bind_Ok. split.
    + intros (y & Hy & H). apply bind_Ok in H as (ys' & Hys & [= <-]).
      constructor; [done | by apply IH].
    + intros H. apply Forall2_cons_inv_l in H as (y & ys' & Hy & Hys & ->).
      exists y. split; [done|].
      apply IH in Hys. by rewrite Hys.
Qed.

Lemma for_each_length {A B} (f : A → result B) xs ys :
  for_each f xs = Ok ys → length ys = length xs.
Proof. rewrite for_each_Ok. intros H. symmetry. by eapply Forall2_length. Qed.

Lemma take_idx_elem {A} (a : list A) ind xs x :
  take_idx a ind = Ok xs → x ∈ xs → x ∈ a.
Proof.
  unfold take_idx. rewrite for_each_Ok. intros H Hx.
  induction H as [|i y ind ys Hy _ IH]; [by apply elem_of_nil in Hx|].
  apply elem_of_cons in Hx as [->|Hx]; [|by apply IH].
  apply getitem_Ok in Hy. by eapply list_elem_of_lookup_2.
Qed.

Lemma py_any_replicate n : 0 < n → py_any (replicate n true) = true.
Proof. by destruct n; [lia|]. Qed.

Section DictFacts.
Context {K : Type} `{EqDecision K} {W : Type}.
Implicit Types (d : list (K * W)) (k : K) (w : W).

Lemma dict_get_set_eq k w d : dict_get k (dict_set k w d) = Ok w.
Proof.
  induction d as [|[k' w'] d IH]; simpl.
  - by rewrite decide_True.
  - destruct (decide (k = k')) as [->|Hne]; simpl.
    + by rewrite decide_True.
    + by rewrite decide_False.
Qed.

Lemma dict_get_set_ne k k' w d :
  k' ≠ k → dict_get k' (dict_set k w d) = dict_get k' d.
Proof.
  intros Hne. induction d as [|[k0 w0] d IH]; simpl.
  - by rewrite decide_False.
  - destruct (decide (k = k0)) as [->|Hne0]; simpl.
    + by rewrite !decide_False.
    + destruct (decide (k' = k0)); [done | apply IH].
Qed.

Lemma dict_keys_set k w d :
  dict_keys (dict_set k w d) =
  if decide (k ∈ dict_keys d) then dict_keys d else dict_keys d ++ [k].
Proof.
  unfold dict_keys. induction d as [|[k' w'] d IH]; csimpl.
  - done.
  - destruct (decide (k = k')) as [->|Hne]; csimpl.
    + rewrite decide_True; [done | apply elem_of_cons; by left].
    + rewrite IH. destruct (decide (k ∈ d.*1)) as [Hin|Hnin].
      * rewrite decide_True; [done | apply elem_of_cons; by right].
      * rewrite decide_False; [done|].
        by intros [?|?]%elem_of_cons.
Qed.

Lemma dict_get_Ok_elem k w d : dict_get k d = Ok w → (k, w) ∈ d.
Proof.
  induction d as [|[k' w'] d IH]; simpl; [done|].
  destruct (decide (k = k')) as [->|Hne].
  - intros [= ->]. apply elem_of_cons; by left.
  - intros H. apply elem_of_cons; right; by apply IH.
Qed.

Lemma dict_get_Ok_key k w d : dict_get k d = Ok w → k ∈ dict_keys d.
Proof.
  intros H. apply dict_get_Ok_elem in H. unfold dict_keys.
  apply list_elem_of_fmap. by exists (k, w).
Qed.

Lemma dict_get_key k d : k ∈ dict_keys d → ∃ w, dict_get k d = Ok w.
Proof.
  unfold dict_keys. induction d as [|[k' w'] d IH]; simpl.
  - by intros ?%elem_of_nil.
  - intros Hin. destruct (decide (k = k')) as [->|Hne]; [by eexists|].
    apply elem_of_cons in Hin as [?|Hin]; [done | by apply IH].
Qed.

Lemma dict_set_NoDup k w d :
  NoDup (dict_keys d) → NoDup (dict_keys (dict_set k w d)).
Proof.
  intros Hnd. rewrite dict_keys_set. case_decide; [done|].
  apply NoDup_app. split_and!; [done| |apply NoDup_singleton].
  intros x Hx ->%list_elem_of_singleton. done.
Qed.

End DictFacts.

(** *** [max] returns the first item among those with the greatest key *)

Section MaxFacts.
Context {A : Type}.
Variable key : A → result Q.

Local Abbreviation first_max := (first_max key).

Lemma first_max_elem xs b : first_max xs b → b ∈ xs.
Proof.
  intros (pre & post & kb & -> & _). apply elem_of_app. right.
  apply elem_of_cons. by left.
Qed.

Lemma first_max_ge xs b x :
  first_max xs b → x ∈ xs →
  ∃ kx kb, key x = Ok kx ∧ key b = Ok kb ∧ (kx <= kb)%Q.
Proof.
  intros (pre & post & kb & -> & Hb & Hpre & Hpost) Hx.
  apply elem_of_app in Hx as [Hx|Hx].
  - destruct (Hpre x Hx) as (kx & Hkx & Hlt).
    exists kx, kb. split_and!; [done..|]. by apply Qlt_le_weak.
  - apply elem_of_cons in Hx as [->|Hx].
    + exists kb, kb. split_and!; [done..|]. apply Qle_refl.
    + destruct (Hpost x Hx) as (kx & Hkx & Hle). by exists kx, kb.
Qed.

Lemma max_from_spec xs : ∀ best kbest b,
  key best = Ok kbest → max_from key best kbest xs = Ok b →
  first_max (best :: xs) b.
Proof.
  induction xs as [|x xs IH]; intros best kbest b Hbest; simpl.
  - intros [= <-]. exists [], [], kbest.
    split_and!; [done..| |]; by intros ? ?%elem_of_nil.
  - intros H. apply bind_Ok in H as (kx & Hkx & H).
    destruct (Qltb kbest kx) eqn:Hcmp.
    + apply Qltb_lt in Hcmp.
      destruct (IH _ _ _ Hkx H) as (pre & post & kb & Heq & Hb & Hpre & Hpost).
      assert (kx <= kb)%Q as Hxb.
      { destruct pre as [|y pre]; simplify_eq/=.
        - replace kb with kx by congruence. apply Qle_refl.
        - destruct (Hpre y) as (ky & Hky & Hlt); [by left|].
          replace kx with ky by congruence. by apply Qlt_le_weak. }
      exists (best :: pre), post, kb. split_and!; [by rewrite Heq|done| |done].
      intros y [->|Hy]%elem_of_cons; [|by apply Hpre].
      exists kbest. split; [done|]. by eapply Qlt_le_trans.
    + apply Qltb_ge in Hcmp.
      destruct (IH _ _ _ Hbest H) as (pre & post & kb & Heq & Hb & Hpre & Hpost).
      destruct pre as [|y pre]; simplify_eq/=.
      * replace kbest with kb in * by congruence.
        exists [], (x :: post), kb. split_and!; [done..| |].
        { by intros ? ?%elem_of_nil. }
        intros z [->|Hz]%elem_of_cons; [|by apply Hpost].
        by exists kx.
      * exists (y :: x :: pre), post, kb. split_and!; [done..| |done].
        destruct (Hpre y) as (ky & Hky & Hlt); [by left|].
        replace kbest with ky in * by congruence.
        intros z [->|[->|Hz]%elem_of_cons]%elem_of_cons.
        -- by exists ky.
        -- exists kx. split; [done|]. by eapply Qle_lt_trans.
        -- apply Hpre. by right.
Qed.

Lemma py_max_spec xs b : py_max key xs = Ok b → first_max xs b.
Proof.
  destruct xs as [|x xs]; simpl; [done|].
  intros H. apply bind_Ok in H as (kx & Hkx & H). by eapply max_from_spec.
Qed.

Lemma max_from_total xs : ∀ best kbest,
  (∀ x, x ∈ xs → ∃ kx, key x = Ok kx) →
  ∃ b, max_from key best kbest xs = Ok b.
Proof.
  induction xs as [|x xs IH]; intros best kbest Hall; simpl; [by eexists|].
  destruct (Hall x) as (kx & ->); [by left|]. simpl.
  destruct (Qltb kbest kx); apply IH; intros y Hy; apply Hall; by right.
Qed.

Lemma py_max_total xs :
  xs ≠ [] → (∀ x, x ∈ xs → ∃ kx, key x = Ok kx) → ∃ b, py_max key xs = Ok b.
Proof.
  destruct xs as [|x xs]; [done|]. intros _ Hall. simpl.
  destruct (Hall x) as (kx & ->); [by left|]. simpl.
  apply max_from_total. intros y Hy. apply Hall. by right.
Qed.

End MaxFacts.

Lemma first_max_ext {A} (key key' : A → result Q) xs b :
  (∀ x, x ∈ xs → key x = key' x) → first_max key xs b → first_max key' xs b.
Proof.
  intros Hext (pre & post & kb & -> & Hb & Hpre & Hpost).
  exists pre, post, kb. split_and!; [done| | |].
  - rewrite <-Hext; [done|]. apply elem_of_app. right. by left.
  - intros x Hx. rewrite <-Hext; [by apply Hpre|]. apply elem_of_app. by left.
  - intros x Hx. rewrite <-Hext; [by apply Hpost|].
    apply elem_of_app. right. by right.
Qed.

(** *** The order of the keys of a dictionary filled in a loop *)

Section SeenOrder.
Context {A : Type} `{EqDecision A}.
Implicit Types (xs acc pre post kpre kpost : list A).

Lemma seen_prefix xs : ∀ acc, ∃ rest, seen acc xs = acc ++ rest.
Proof.
  induction xs as [|x xs IH]; intros acc; simpl.
  - exists []. by rewrite app_nil_r.
  - case_decide; [apply IH|].
    destruct (IH (acc ++ [x])) as (rest & ->). exists (x :: rest).
    by rewrite <-app_assoc.
Qed.

Lemma seen_elem xs : ∀ acc y, y ∈ seen acc xs ↔ y ∈ acc ∨ y ∈ xs.
Proof.
  induction xs as [|x xs IH]; intros acc y; simpl.
  - rewrite elem_of_nil. naive_solver.
  - rewrite elem_of_cons. case_decide as Hx; rewrite IH.
    + split; [naive_solver|]. intros [?|[->|?]]; auto.
    + rewrite elem_of_app, list_elem_of_singleton. naive_solver.
Qed.

Lemma seen_NoDup xs : ∀ acc, NoDup acc → NoDup (seen acc xs).
Proof.
  induction xs as [|x xs IH]; intros acc Hnd; simpl; [done|].
  case_decide as Hx; apply IH; [done|].
  apply NoDup_app. split_and!; [done| |apply NoDup_singleton].
  by intros y Hy ->%list_elem_of_singleton.
Qed.

(** What comes before the first occurrence of [b] in [xs] comes before
    [b] among the keys. *)
Lemma seen_before pre post kpre kpost b x :
  seen [] (pre ++ b :: post) = kpre ++ b :: kpost →
  b ∉ pre → x ∈ pre → x ∈ kpre.
Proof.
  intros Heq Hb Hx. unfold seen in Heq. rewrite foldl_app in Heq.
  fold (seen [] pre) in Heq. simpl in Heq.
  rewrite decide_False in Heq by (rewrite seen_elem, elem_of_nil; tauto).
  fold (seen (seen [] pre ++ [b]) post) in Heq.
  destruct (seen_prefix post (seen [] pre ++ [b])) as (rest & Hrest).
  rewrite Hrest, <-app_assoc in Heq. simpl in Heq.
  assert (NoDup (seen [] pre ++ b :: rest)) as Hnd.
  { replace (seen [] pre ++ b :: rest) with ((seen [] pre ++ [b]) ++ rest)
      by by rewrite <-app_assoc.
    rewrite <-Hrest. apply seen_NoDup, NoDup_app.
    split_and!; [apply seen_NoDup, NoDup_nil_2| |apply NoDup_singleton].
    intros y Hy ->%list_elem_of_singleton.
    apply seen_elem in Hy as [Hy%elem_of_nil|Hy]; done. }
  assert (seen [] pre = kpre) as <-.
  { clear -Heq Hnd. revert kpre Heq Hnd.
    induction (seen [] pre) as [|y l IH]; intros kpre Heq Hnd.
    - destruct kpre as [|z kpre]; [done|]. simplify_eq/=.
      apply NoDup_cons in Hnd as [Hnin _]. exfalso. apply Hnin.
      apply elem_of_app. right. by left.
    - destruct kpre as [|z kpre]; simplify_eq/=.
      + apply NoDup_cons in Hnd as [Hnin _]. exfalso. apply Hnin.
        apply elem_of_app. right. by left.
      + f_equal. apply IH; [done|]. by apply NoDup_cons in Hnd as [_ ?]. }
  apply seen_elem. by right.
Qed.

End SeenOrder.

(** ** One pass of the loop *)

Section Pass.
Context {V pdist_t : Type} `{EqDecision V}.
Variable cv : gmap string (kwarg V pdist_t) → result Q.
Variable grid : list (string * list V).
Variable pdist : pdist_t.

Implicit Types (st : opt_state V) (val : V) (cur : list V).

Local Abbreviation score_at := (score_at cv grid pdist).
Local Abbreviation candidates := (candidates grid).
Local Abbreviation adopted := (adopted grid).

Lemma sweep_from_spec a cur vals : ∀ d0 d,
  sweep_from cv grid pdist a cur d0 vals = Ok d →
  (∀ v s, dict_get v d0 = Ok s → score_at a cur v = Ok s) →
  dict_keys d = seen (dict_keys d0) vals ∧
  (∀ v, v ∈ vals → ∃ s, score_at a cur v = Ok s) ∧
  (∀ v s, dict_get v d = Ok s → score_at a cur v = Ok s).
Proof.
  induction vals as [|val vals IH]; intros d0 d; simpl.
  - intros [= <-] Hinv. split_and!; [done| |done]. by intros ? ?%elem_of_nil.
  - intros H Hinv. apply bind_Ok in H as (p & Hp & H).
    apply bind_Ok in H as (s & Hs & H).
    assert (score_at a cur val = Ok s) as Hval.
    { unfold score_at. by rewrite Hp. }
    apply IH in H as (Hkeys & Hall & Hget).
    + split_and!; [|clear Hget|done].
      * by rewrite Hkeys, dict_keys_set.
      * intros v [->|Hv]%elem_of_cons; [by eexists | by apply Hall].
    + intros v s'. destruct (decide (v = val)) as [->|Hne].
      * rewrite dict_get_set_eq. by intros [= <-].
      * rewrite dict_get_set_ne by done. apply Hinv.
Qed.

Lemma sweep_from_total a cur vals : ∀ d0,
  (∀ v, v ∈ vals → ∃ s, score_at a cur v = Ok s) →
  ∃ d, sweep_from cv grid pdist a cur d0 vals = Ok d.
Proof.
  induction vals as [|val vals IH]; intros d0 Hall; simpl; [by eexists|].
  destruct (Hall val) as (s & Hs); [by left|].
  unfold score_at in Hs. apply bind_Ok in Hs as (p & Hp & Hs).
  rewrite Hp. simpl. rewrite Hs. simpl.
  apply IH. intros v Hv. apply Hall. by right.
Qed.

(** The dictionary [cur_perfs] of a sweep and the value picked from it. *)
Lemma sweep_argmax st cur_perfs best_val :
  sweep cv grid pdist st = Ok cur_perfs →
  dict_argmax cur_perfs = Ok best_val →
  ∃ vals s,
    candidates st = Ok vals ∧
    first_max (score_at (changing_param st) (cur_params st)) vals best_val ∧
    dict_get best_val cur_perfs = Ok s ∧
    score_at (changing_param st) (cur_params st) best_val = Ok s.
Proof.
  unfold sweep, dict_argmax. intros Hsw Hmax.
  apply bind_Ok in Hsw as (name & Hname & Hsw).
  apply bind_Ok in Hsw as (vals & Hvals & Hsw).
  apply sweep_from_spec in Hsw as (Hkeys & Hall & Hget); [|done].
  simpl in Hkeys. apply py_max_spec in Hmax.
  pose proof (first_max_elem _ _ _ Hmax) as Hbk.
  destruct (dict_get_key _ _ Hbk) as (s & Hs).
  exists vals, s. split_and!; [|clear Hs|done|by apply Hget].
  { unfold candidates. by rewrite Hname. }
  assert (∀ v, v ∈ vals →
    dict_get v cur_perfs = score_at (changing_param st) (cur_params st) v)
    as Hagree.
  { intros v Hv.
    destruct (dict_get_key v cur_perfs) as (s' & Hs').
    - rewrite Hkeys. apply seen_elem. by right.
    - rewrite Hs'. symmetry. by apply Hget. }
  assert (best_val ∈ vals) as Hbv.
  { rewrite Hkeys in Hbk. apply seen_elem in Hbk as [?%elem_of_nil|?]; done. }
  destruct Hmax as (kpre & kpost & kb & Heq & Hb & Hpre & Hpost).
  apply list_elem_of_split_l in Hbv as (pre & post & -> & Hnin).
  rewrite Hkeys in Heq.
  exists pre, post, kb. split_and!; [done| | |].
  - rewrite <-Hagree; [done|]. apply elem_of_app. right. by left.
  - intros x Hx. rewrite <-Hagree by (apply elem_of_app; by left).
    apply Hpre. by eapply seen_before.
  - intros x Hx.
    assert (x ∈ pre ++ best_val :: post) as Hxv.
    { apply elem_of_app. right. by right. }
    rewrite <-Hagree by done.
    assert (x ∈ kpre ++ best_val :: kpost) as Hxk.
    { rewrite <-Heq. apply seen_elem. by right. }
    apply elem_of_app in Hxk as [Hxk|[->|Hxk]%elem_of_cons].
    + destruct (Hpre x Hxk) as (kx & Hkx & Hlt). exists kx.
      split; [done | by apply Qlt_le_weak].
    + exists kb. split; [done | apply Qle_refl].
    + by apply Hpost.
Qed.

(** Every way a pass can end without an exception. *)
Lemma step_inv st o :
  step cv grid pdist st = Ok o →
  ∃ vals best_val s,
    candidates st = Ok vals ∧
    first_max (score_at (changing_param st) (cur_params st)) vals best_val ∧
    score_at (changing_param st) (cur_params st) best_val = Ok s ∧
    ((fl_ltb (Fin s) (best_perf st) = true ∧ o = Break st) ∨
     (fl_ltb (Fin s) (best_perf st) = false ∧
      ∃ st', adopted st best_val s st' ∧
        o = if decide (length (param_names grid) < 2)
            then Break st' else Continue st')).
Proof.
  unfold step. intros H.
  apply bind_Ok in H as (cur_perfs & Hsw & H).
  apply bind_Ok in H as (best_val & Hmax & H).
  apply bind_Ok in H as (s & Hs & H).
  destruct (sweep_argmax _ _ _ Hsw Hmax) as (vals & s' & Hc & Hfm & Hs' & Hsc).
  assert (s' = s) as -> by congruence.
  exists vals, best_val, s. split_and!; [done..|].
  destruct (fl_ltb (Fin s) (best_perf st)) eqn:Hcmp.
  { left. split; [done|]. by injection H as <-. }
  right. split; [done|].
  apply bind_Ok in H as (old & Hold%getitem_Ok & H).
  apply bind_Ok in H as (changed' & [Hlen ->]%setitem_Ok & H).
  apply bind_Ok in H as (cur' & [Hlen' ->]%setitem_Ok & H).
  case_decide as Hn; [done|].
  eexists. split; [|by case_decide; injection H as <-].
  exists old. by split_and!.
Qed.

End Pass.

(** ** Runs of the loop *)

Section Run.
Context {V pdist_t : Type} `{EqDecision V}.
Variable cv : gmap string (kwarg V pdist_t) → result Q.
Variable grid : list (string * list V).
Variable pdist : pdist_t.

Implicit Types (st : opt_state V) (val : V) (cur c : list V).

Local Abbreviation names := (param_names grid).
Local Abbreviation step := (step cv grid pdist).
Local Abbreviation loop := (loop cv grid pdist).
Local Abbreviation score_at := (score_at cv grid pdist).
Local Abbreviation passes := (passes cv grid pdist).
Local Abbreviation params_of_config := (params_of_config grid pdist).
Local Abbreviation config_score := (config_score cv grid pdist).
Local Abbreviation inv := (inv cv grid pdist).

Lemma cv_params_of_config a val cur :
  length cur = length names →
  cv_params_of grid pdist a val cur = Ok (params_of_config (<[a := val]> cur)).
Proof.
  intros Hlen. unfold cv_params_of, params_of_config.
  assert (for_each (cv_entry grid a val cur) (seq 0 (length names))
          = Ok (zip names (<[a := val]> cur))) as ->; [|done].
  apply for_each_Ok, Forall2_same_length_lookup_2.
  { rewrite length_seq, length_zip_with, length_insert. lia. }
  intros i j [name v] [-> Hi]%lookup_seq Hz.
  apply lookup_zip_with_Some in Hz as (name' & v' & [= <- <-] & Hname & Hv).
  unfold cv_entry. simpl. apply getitem_Ok in Hname. rewrite Hname. simpl.
  case_decide as Hia.
  - subst a. rewrite list_lookup_insert_eq in Hv by lia. by simplify_eq.
  - rewrite list_lookup_insert_ne in Hv by done.
    apply getitem_Ok in Hv. by rewrite Hv.
Qed.

Lemma score_at_config a val cur :
  length cur = length names →
  score_at a cur val = config_score (<[a := val]> cur).
Proof.
  intros Hlen. unfold score_at, config_score.
  by rewrite cv_params_of_config.
Qed.

Lemma loop_passes k : ∀ st st' fuel,
  passes k st = Some st' → loop (k + fuel) st = loop fuel st'.
Proof.
  induction k as [|k IH]; intros st st' fuel; simpl.
  - by intros [= ->].
  - destruct (py_any (changed st)) eqn:Hany; [|done].
    destruct (step st) as [[st1|st1]|e] eqn:Hstep; try done.
    intros Hp. rewrite ?Hany, ?Hstep. by apply IH.
Qed.

Lemma passes_S k st st' :
  passes (S k) st = Some st' →
  py_any (changed st) = true ∧
  ∃ st1, step st = Ok (Continue st1) ∧ passes k st1 = Some st'.
Proof.
  simpl. destruct (py_any (changed st)); [|done].
  destruct (step st) as [[st1|st1]|e]; try done. eauto.
Qed.

Lemma init_state_inv init st0 : init_state grid init = Ok st0 → inv st0.
Proof.
  unfold init_state. intros H. apply bind_Ok in H as (cur & Hcur & [= <-]).
  split; simpl; try done.
  - by apply for_each_length in Hcur.
  - apply length_replicate.
Qed.

Lemma adopted_inv st st' best_val s :
  inv st → adopted grid st best_val s st' →
  score_at (changing_param st) (cur_params st) best_val = Ok s →
  fl_ltb (Fin s) (best_perf st) = false →
  inv st'.
Proof.
  intros [] (old & Hold & Ha & Hn & Hcur & Hch & Hax & Hperf & Hbest) Hs Hcmp.
  split.
  - by rewrite Hcur, length_insert.
  - by rewrite Hch, length_insert.
  - intros _. rewrite Hax. apply Nat.mod_upper_bound. done.
  - intros c s'. rewrite Hperf, Hbest.
    destruct (decide (c = cur_params st')) as [->|Hne].
    + rewrite dict_get_set_eq. intros [= <-]. apply fl_le_refl.
    + rewrite dict_get_set_ne by done. intros Hc.
      eapply fl_le_trans; [by eapply inv_hist0 | done].
  - by rewrite Hbest.
  - intros s'. rewrite Hbest, Hperf. intros [= <-].
    split; [apply dict_get_set_eq|].
    by rewrite Hcur, <-score_at_config.
  - by rewrite Hbest.
Qed.

Lemma step_state_inv st o : inv st → step st = Ok o → inv (state_of o).
Proof.
  intros Hinv Hstep.
  apply step_inv in Hstep as (vals & b & s & Hc & Hfm & Hs & Hcase).
  destruct Hcase as [[_ ->]|(Hcmp & st' & Had & ->)]; [done|].
  assert (inv st') by by eapply adopted_inv.
  by case_decide.
Qed.

Lemma passes_inv k : ∀ st st', inv st → passes k st = Some st' → inv st'.
Proof.
  induction k as [|k IH]; intros st st' Hinv; simpl.
  - by intros [= <-].
  - destruct (py_any (changed st)); [|done].
    destruct (step st) as [[st1|st1]|e] eqn:Hstep; try done.
    apply IH. by apply (step_state_inv _ _ Hinv Hstep).
Qed.

Lemma step_best_perf st o :
  step st = Ok o → fl_le (best_perf st) (best_perf (state_of o)).
Proof.
  intros Hstep.
  apply step_inv in Hstep as (vals & b & s & Hc & Hfm & Hs & Hcase).
  destruct Hcase as [[_ ->]|(Hcmp & st' & Had & ->)]; [apply fl_le_refl|].
  destruct Had as (old & _ & _ & _ & _ & _ & _ & _ & Hbest).
  case_decide; simpl; by rewrite Hbest.
Qed.

Lemma passes_best_perf k : ∀ st st',
  passes k st = Some st' → fl_le (best_perf st) (best_perf st').
Proof.
  induction k as [|k IH]; intros st st'; simpl.
  - intros [= <-]. apply fl_le_refl.
  - destruct (py_any (changed st)); [|done].
    destruct (step st) as [[st1|st1]|e] eqn:Hstep; try done.
    intros Hp. eapply fl_le_trans; [|by apply IH].
    apply (step_best_perf _ _ Hstep).
Qed.

(** The loop, once it ends, has made some passes and then either found
    no flag set, or left the body by one of its two [break]s. *)
Lemma loop_Ok fuel : ∀ st st_end,
  loop fuel st = Some (Ok st_end) →
  ∃ k st_last,
    passes k st = Some st_last ∧
    ((py_any (changed st_last) = false ∧ st_end = st_last) ∨
     (py_any (changed st_last) = true ∧ step st_last = Ok (Break st_end))).
Proof.
  induction fuel as [|fuel IH]; intros st st_end; simpl.
  - destruct (py_any (changed st)) eqn:Hany; [done|].
    intros [= <-]. exists 0, st. split; [done|]. by left.
  - destruct (py_any (changed st)) eqn:Hany.
    + destruct (step st) as [[st1|st1]|e] eqn:Hstep; [| |done].
      * intros (k & st_last & Hp & Hend)%IH. exists (S k), st_last.
        split; [|done]. simpl. by rewrite Hany, Hstep.
      * intros [= <-]. exists 0, st. split; [done|]. by right.
    + intros [= <-]. exists 0, st. split; [done|]. by left.
Qed.

Lemma loop_inv fuel st st_end :
  inv st → loop fuel st = Some (Ok st_end) → inv st_end.
Proof.
  intros Hinv (k & st_last & Hp & Hend)%loop_Ok.
  pose proof (passes_inv _ _ _ Hinv Hp) as Hlast.
  destruct Hend as [[_ ->]|[_ Hstep]]; [done|].
  apply (step_state_inv _ _ Hlast Hstep).
Qed.

Lemma loop_best_perf fuel st st_end :
  loop fuel st = Some (Ok st_end) → fl_le (best_perf st) (best_perf st_end).
Proof.
  intros (k & st_last & Hp & Hend)%loop_Ok.
  eapply fl_le_trans; [by eapply passes_best_perf|].
  destruct Hend as [[_ ->]|[_ Hstep]]; [apply fl_le_refl|].
  apply (step_best_perf _ _ Hstep).
Qed.

End Run.

(** ** Termination of the loop *)

Lemma elem_of_list_prod {A} (ls : list (list A)) : ∀ c,
  c ∈ list_prod ls ↔ Forall2 (λ x l, x ∈ l) c ls.
Proof.
  induction ls as [|l ls IH]; intros c; simpl.
  - rewrite list_elem_of_singleton. split; [intros ->; constructor|].
    by intros ->%Forall2_nil_inv_r.
  - rewrite list_elem_of_bind. split.
    + intros (x & Hc & Hx). apply list_elem_of_fmap in Hc as (c' & -> & Hc').
      constructor; [done | by apply IH].
    + intros H. apply Forall2_cons_inv_r in H as (x & c' & Hx & Hc' & ->).
      exists x. split; [|done]. apply list_elem_of_fmap. exists c'.
      split; [done | by apply IH].
Qed.

Lemma pos_le {A} `{EqDecision A} (x : A) l : pos x l ≤ length l.
Proof. induction l as [|y l IH]; simpl; [done|]. case_decide; lia. Qed.

Lemma pos_app_notin {A} `{EqDecision A} (x : A) pre l :
  x ∉ pre → pos x (pre ++ l) = length pre + pos x l.
Proof.
  induction pre as [|y pre IH]; simpl; [done|].
  intros [Hne Hnin]%not_elem_of_cons. rewrite decide_False by done.
  by rewrite IH.
Qed.

Lemma last_set_le bs : last_set bs ≤ length bs.
Proof.
  induction bs as [|b bs IH]; simpl; [done|].
  destruct (last_set bs); [destruct b|]; lia.
Qed.

Lemma last_set_0 bs : last_set bs = 0 → py_any bs = false.
Proof.
  induction bs as [|b bs IH]; simpl; [done|].
  destruct (last_set bs) eqn:Hl; [|done]. destruct b; [done|].
  intros _. by apply IH.
Qed.

Lemma last_set_snoc_false bs : last_set (bs ++ [false]) = last_set bs.
Proof. induction bs as [|b bs IH]; simpl; [done|]. by rewrite IH. Qed.

Lemma last_set_shift b bs :
  py_any (b :: bs) = true → last_set (bs ++ [false]) < last_set (b :: bs).
Proof.
  rewrite last_set_snoc_false. simpl.
  destruct (last_set bs) eqn:Hl; [|lia].
  apply last_set_0 in Hl. rewrite Hl, orb_false_r.
  destruct b; [lia|done].
Qed.

Lemma py_any_rot a bs : py_any (rot a bs) = py_any bs.
Proof.
  unfold py_any, rot. rewrite existsb_app, orb_comm, <-existsb_app.
  by rewrite take_drop.
Qed.

Lemma rot_length {A} a (l : list A) : length (rot a l) = length l.
Proof. unfold rot. by rewrite length_app, Nat.add_comm, <-length_app, take_drop. Qed.

(** Clearing the flag of the axis just swept and moving on to the next
    axis drops the head of the rotated flags and adds a cleared flag. *)
Lemma rot_next a (bs : list bool) :
  a < length bs →
  ∃ b t, rot a bs = b :: t ∧
         rot ((a + 1) mod length bs) (<[a := false]> bs) = t ++ [false].
Proof.
  intros Ha. destruct (lookup_lt_is_Some_2 bs a Ha) as [b Hb].
  exists b, (drop (S a) bs ++ take a bs). unfold rot. split.
  { by rewrite (drop_S _ _ _ Hb). }
  destruct (decide (a + 1 = length bs)) as [Heq|Hne].
  - rewrite Heq, Nat.Div0.mod_same. simpl.
    rewrite (drop_ge bs (S a)) by lia. simpl. rewrite app_nil_r.
    rewrite <-(take_drop a (<[a := false]> bs)).
    rewrite take_insert_ge by lia.
    rewrite drop_insert_ge, Nat.sub_diag by lia.
    by rewrite (drop_S _ _ _ Hb), (drop_ge bs (S a)) by lia.
  - rewrite Nat.mod_small by lia. replace (a + 1) with (S a) by lia.
    rewrite drop_insert_lt by lia.
    rewrite (take_S_r (<[a := false]> bs) a false)
      by (apply list_lookup_insert_eq; lia).
    rewrite take_insert_ge by lia. by rewrite app_assoc.
Qed.

Lemma sum_zip_pos_insert {A} `{EqDecision A} (cur : list A) : ∀ Ls a x old L,
  cur !! a = Some old → Ls !! a = Some L → pos x L < pos old L →
  sum_list (zip_with pos (<[a := x]> cur) Ls) < sum_list (zip_with pos cur Ls).
Proof.
  induction cur as [|v cur IH]; intros Ls a x old L; [done|].
  destruct Ls as [|L0 Ls]; [by destruct a|].
  destruct a as [|a]; simpl.
  - intros [= ->] [= ->] Hlt. lia.
  - intros Hold HL Hlt. specialize (IH Ls a x old L Hold HL Hlt). lia.
Qed.

Lemma sum_zip_pos_le {A} `{EqDecision A} (cur : list A) : ∀ Ls,
  sum_list (zip_with pos cur Ls) ≤ sum_list (length <$> Ls).
Proof.
  induction cur as [|v cur IH]; intros [|L Ls]; csimpl; try lia.
  pose proof (pos_le v L). specialize (IH Ls). lia.
Qed.

Lemma filter_length_lt {A} (P Q : A → Prop)
    `{∀ x, Decision (P x)} `{∀ x, Decision (Q x)} (l : list A) x :
  (∀ y, Q y → P y) → x ∈ l → P x → ¬ Q x →
  length (filter Q l) < length (filter P l).
Proof.
  intros Himp Hx HP HQ.
  assert (∀ l', length (filter Q l') ≤ length (filter P l')) as Hle.
  { induction l' as [|y l' IH]; [done|]. rewrite !filter_cons.
    destruct (decide (Q y)) as [Hq|Hq].
    - rewrite decide_True by auto. simpl. lia.
    - destruct (decide (P y)); simpl; lia. }
  induction l as [|y l IH]; [by apply elem_of_nil in Hx|].
  rewrite !filter_cons. apply elem_of_cons in Hx as [->|Hx].
  - destruct (decide (Q y)); [done|]. destruct (decide (P y)); [|done].
    simpl. specialize (Hle l). lia.
  - specialize (IH Hx). destruct (decide (Q y)) as [Hq|Hq].
    + rewrite decide_True by auto. simpl. lia.
    + destruct (decide (P y)); simpl; lia.
Qed.

Lemma measure_drop (b1 d1 p1 b2 d2 p2 B N : nat) :
  d1 ≤ B → p1 ≤ N →
  b1 < b2 ∨ (b1 = b2 ∧ d1 < d2) ∨ (b1 = b2 ∧ d1 = d2 ∧ p1 < p2) →
  (b1 * S B + d1) * S N + p1 < (b2 * S B + d2) * S N + p2.
Proof.
  intros Hd Hp [Hb|[[-> Hlt]|(-> & -> & Hlt)]]; [| |lia].
  - assert ((b1 * S B + d1) * S N + p1 < (S b1 * S B) * S N) as H1 by nia.
    assert (S b1 * S B * S N ≤ b2 * S B * S N) as H2.
    { apply Nat.mul_le_mono_r, Nat.mul_le_mono_r. lia. }
    nia.
  - assert ((b2 * S B + d1) * S N + p1 < (b2 * S B + S d1) * S N) as H1 by nia.
    assert ((b2 * S B + S d1) * S N ≤ (b2 * S B + d2) * S N) as H2.
    { apply Nat.mul_le_mono_r. lia. }
    lia.
Qed.

Section Termination.
Context {V pdist_t : Type} `{EqDecision V}.
Variable cv : gmap string (kwarg V pdist_t) → result Q.
Variable grid : list (string * list V).
Variable pdist : pdist_t.
Variable cur0 : list V.

Implicit Types (st : opt_state V) (val : V) (cur c : list V).

Local Abbreviation names := (param_names grid).
Local Abbreviation n := (length (param_names grid)).
Local Abbreviation axis_vals := (axis_vals grid).
Local Abbreviation axes := (axes grid).
Local Abbreviation space := (space grid cur0).
Local Abbreviation in_space := (in_space grid cur0).
Local Abbreviation aboveb := (aboveb cv grid pdist).
Local Abbreviation better := (better cv grid pdist cur0).
Local Abbreviation depth := (depth grid).
Local Abbreviation depth_bound := (depth_bound grid).
Local Abbreviation measure := (measure cv grid pdist cur0).

Lemma candidates_axis st vals :
  candidates grid st = Ok vals → vals = axis_vals (changing_param st).
Proof. unfold candidates, axis_vals. by intros ->. Qed.

Lemma axes_lookup a : a < n → axes !! a = Some (axis_vals a).
Proof.
  intros Ha. unfold axes. rewrite list_lookup_fmap, lookup_seq_lt by done.
  done.
Qed.

Lemma in_space_insert st a val :
  length cur0 = n → a < n →
  in_space st → val ∈ axis_vals a →
  Forall2 (λ v l, v ∈ l) (<[a := val]> (cur_params st))
    (zip_with cons cur0 axes).
Proof.
  intros Hlen Ha Hin Hval.
  destruct (lookup_lt_is_Some_2 cur0 a) as [v0 Hv0]; [lia|].
  assert (zip_with cons cur0 axes !! a = Some (v0 :: axis_vals a)) as Hl.
  { rewrite lookup_zip_with, Hv0, axes_lookup by done. done. }
  rewrite <-(list_insert_id _ _ _ Hl). apply Forall2_insert; [done|].
  by right.
Qed.

Lemma better_mono b b' c :
  fl_le b b' → aboveb b' c = true → aboveb b c = true.
Proof.
  unfold aboveb, fl_le. destruct (config_score cv grid pdist c) as [s|]; [|done].
  destruct b, b'; simpl; try done.
  rewrite !Qltb_lt, Qltb_ge. intros. by eapply Qle_lt_trans.
Qed.

Lemma better_lt b s c :
  c ∈ space → config_score cv grid pdist c = Ok s →
  fl_ltb b (Fin s) = true →
  better (Fin s) < better b.
Proof.
  intros Hc Hs Hlt. unfold better.
  apply (filter_length_lt _ _ _ c); [|done| |].
  - intros y. apply better_mono. unfold fl_le.
    destruct b; simpl in *; try done.
    apply Qltb_ge. apply Qltb_lt in Hlt. by apply Qlt_le_weak.
  - unfold aboveb. by rewrite Hs.
  - unfold aboveb. rewrite Hs. simpl. by rewrite Qltb_irrefl.
Qed.

Lemma better_eq b s :
  (b <= s)%Q → (s <= b)%Q → better (Fin s) = better (Fin b).
Proof.
  intros H1 H2. unfold better. f_equal. apply list_filter_iff. intros c.
  unfold aboveb. destruct (config_score cv grid pdist c) as [x|]; [|done].
  simpl. rewrite !Qltb_lt. split; intros; by eapply Qle_lt_trans.
Qed.

(** A pass that reaches the end of the body lowers the measure. *)
Lemma step_measure st st' :
  length cur0 = n →
  inv cv grid pdist st → in_space st →
  py_any (changed st) = true →
  step cv grid pdist st = Ok (Continue st') →
  measure st' < measure st ∧ in_space st'.
Proof.
  intros Hlen0 Hinv Hin Hany Hstep.
  pose proof (step_state_inv _ _ _ _ _ Hinv Hstep) as Hinv'. simpl in Hinv'.
  apply step_inv in Hstep as (vals & best & s & Hc & Hfm & Hs & Hcase).
  destruct Hcase as [[_ [=]]|(Hcmp & st1 & Had & Ho)].
  case_decide as Hn2; [done|]. injection Ho as <-.
  destruct Had as (old & Hold & Ha & Hn & Hcur & Hch & Hax & Hperf & Hbest).
  set (a := changing_param st) in *.
  assert (a < n) as Han by (apply Hinv; lia).
  apply candidates_axis in Hc. fold a in Hc.
  pose proof (first_max_elem _ _ _ Hfm) as Hbv. rewrite Hc in Hbv.
  assert (in_space st') as Hin'.
  { unfold in_space. rewrite Hcur. by apply in_space_insert. }
  split; [|done].
  assert (config_score cv grid pdist (cur_params st') = Ok s) as Hs'.
  { rewrite Hcur, <-score_at_config; [done | apply Hinv]. }
  assert (cur_params st' ∈ space) as Hsp by by apply elem_of_list_prod.
  unfold measure. rewrite Hbest. apply measure_drop.
  { apply sum_zip_pos_le. }
  { unfold pending. etrans; [apply last_set_le|].
    rewrite rot_length. by rewrite (inv_changed _ _ _ _ Hinv'). }
  destruct (fl_ltb (best_perf st) (Fin s)) eqn:Hup.
  { left. by eapply better_lt. }
  destruct (best_perf st) as [|b|] eqn:Hb; [done| |done].
  simpl in Hcmp, Hup. apply Qltb_ge in Hcmp, Hup.
  right. rewrite (better_eq b s) by done.
  destruct (inv_best _ _ _ _ Hinv b Hb) as [_ Hcurscore].
  destruct (decide (best = old)) as [->|Hne].
  - right. split; [done|].
    assert (cur_params st' = cur_params st) as Hsame.
    { rewrite Hcur. by apply list_insert_id. }
    split; [by rewrite Hsame|].
    unfold pending. rewrite Hch, Hax.
    rewrite bool_decide_eq_false_2 by (intros Hneq; by apply Hneq).
    rewrite <-(inv_changed _ _ _ _ Hinv).
    destruct (rot_next (changing_param st) (changed st) Ha)
      as (b0 & t & Hrot & Hrot').
    subst a. rewrite Hrot, Hrot'.
    apply last_set_shift. by rewrite <-Hrot, py_any_rot.
  - left. split; [done|]. unfold depth. rewrite Hcur.
    apply (sum_zip_pos_insert _ _ _ _ old (axis_vals a));
      [done | by apply axes_lookup |].
    destruct Hfm as (pre & post & kb & Hvals & Hkb & Hpre & _).
    replace kb with s in * by congruence.
    rewrite <-Hc, Hvals.
    assert (best ∉ pre) as Hbpre.
    { intros (kx & Hkx & Hlt)%Hpre. replace kx with s in * by congruence.
      by apply Qlt_irrefl in Hlt. }
    assert (old ∉ pre) as Hopre.
    { intros (kx & Hkx & Hlt)%Hpre.
      rewrite score_at_config, list_insert_id in Hkx by (done || apply Hinv).
      replace kx with b in * by congruence.
      by apply Qlt_not_le in Hlt. }
    rewrite !pos_app_notin by done. simpl.
    rewrite decide_True by done. rewrite decide_False by done. lia.
Qed.

Lemma loop_terminates_below m : ∀ st,
  length cur0 = n → measure st < m →
  inv cv grid pdist st → in_space st →
  ∃ fuel r, loop cv grid pdist fuel st = Some r.
Proof.
  induction m as [|m IH]; intros st Hlen0 Hm Hinv Hin; [lia|].
  destruct (py_any (changed st)) eqn:Hany.
  - destruct (step cv grid pdist st) as [[st'|st']|e] eqn:Hstep.
    + destruct (step_measure st st' Hlen0 Hinv Hin Hany Hstep) as [Hlt Hin'].
      destruct (IH st') as (fuel & r & Hloop); [done|lia| |done|].
      { apply (step_state_inv _ _ _ _ _ Hinv Hstep). }
      exists (S fuel), r. simpl. by rewrite Hany, Hstep.
    + exists 1, (Ok st'). simpl. by rewrite Hany, Hstep.
    + exists 1, (Err e). simpl. by rewrite Hany, Hstep.
  - exists 0, (Ok st). simpl. by rewrite Hany.
Qed.

End Termination.

Section TerminationRun.
Context {V pdist_t : Type} `{EqDecision V}.
Variable cv : gmap string (kwarg V pdist_t) → result Q.
Variable grid : list (string * list V).
Variable pdist : pdist_t.

(** More fuel does not change the outcome of a run that has ended. *)
Lemma loop_fuel_mono fuel : ∀ st r extra,
  loop cv grid pdist fuel st = Some r →
  loop cv grid pdist (fuel + extra) st = Some r.
Proof.
  induction fuel as [|fuel IH]; intros st r extra; simpl.
  - destruct (py_any (changed st)) eqn:Hany; [done|].
    intros [= <-]. destruct extra; simpl; by rewrite Hany.
  - destruct (py_any (changed st)); [|done].
    destruct (step cv grid pdist st) as [[st'|st']|e]; [apply IH|done..].
Qed.

(** The [while] loop ends from the initial state, with a final state or
    with an exception. *)
Lemma loop_terminates init st0 :
  init_state grid init = Ok st0 →
  ∃ fuel r, loop cv grid pdist fuel st0 = Some r.
Proof.
  intros Hinit.
  pose proof (init_state_inv cv grid pdist _ _ Hinit) as Hinv.
  apply (loop_terminates_below cv grid pdist (cur_params st0)
           (S (measure cv grid pdist (cur_params st0) st0)));
    [apply Hinv | lia | done |].
  unfold in_space. apply Forall2_same_length_lookup_2.
  { rewrite length_zip_with. unfold axes.
    rewrite length_fmap, length_seq, (inv_cur _ _ _ _ Hinv). lia. }
  intros i v l Hv Hl. apply lookup_zip_with_Some in Hl as (v' & L & -> & Hv' & _).
  replace v' with v by congruence. by left.
Qed.

Lemma search_terminates init retrieval :
  ∃ fuel r, search cv grid pdist fuel init retrieval = Some r.
Proof.
  unfold search. destruct (init_state grid init) as [st0|e] eqn:Hinit.
  - destruct (loop_terminates init st0 Hinit) as (fuel & r & Hloop).
    exists fuel. rewrite Hloop. destruct r; by eexists.
  - by exists 0, (Err e).
Qed.

Lemma search_fuel_mono fuel extra init retrieval r :
  search cv grid pdist fuel init retrieval = Some r →
  search cv grid pdist (fuel + extra) init retrieval = Some r.
Proof.
  unfold search. destruct (init_state grid init) as [st0|e]; [|done].
  destruct (loop cv grid pdist fuel st0) as [r0|] eqn:Hloop; [|done].
  by rewrite (loop_fuel_mono _ _ _ extra Hloop).
Qed.


End TerminationRun.

(** ** Properties of the search *)

Section SearchClaims.
Context {V pdist_t : Type} `{EqDecision V}.
Variable cv : gmap string (kwarg V pdist_t) → result Q.
Variable grid : list (string * list V).
Variable pdist : pdist_t.

Implicit Types (st : opt_state V) (val : V) (cur c : list V).

Local Abbreviation names := (param_names grid).
Local Abbreviation step := (step cv grid pdist).
Local Abbreviation loop := (loop cv grid pdist).
Local Abbreviation sweep := (sweep cv grid pdist).
Local Abbreviation passes := (passes cv grid pdist).
Local Abbreviation score_at := (score_at cv grid pdist).
Local Abbreviation search := (search cv grid pdist).

(** C8. In every pass of the loop of [optimize_gp_params], from any
    state that a run reaches, the value selected at line 152 is a
    candidate of the swept parameter with the greatest cross-validation
    score, and every candidate listed before its first occurrence has a
    strictly smaller score: among tied candidates the earliest listed
    wins.  The pass ends with this value: unless its score is below
    [best_perf], where the loop is left with nothing changed (line 155),
    the value is written into the current configuration at the swept
    parameter and its score becomes [best_perf] and is recorded in
    [perf] (lines 156-163). *)
Theorem sweep_picks_first_maximum init st0 k st cur_perfs vals :
  init_state grid init = Ok st0 →
  passes k st0 = Some st →
  sweep st = Ok cur_perfs →
  candidates grid st = Ok vals →
  vals ≠ [] →
  ∃ best_val s o,
    dict_argmax cur_perfs = Ok best_val ∧
    first_max (score_at (changing_param st) (cur_params st)) vals best_val ∧
    score_at (changing_param st) (cur_params st) best_val = Ok s ∧
    step st = Ok o ∧
    ((fl_ltb (Fin s) (best_perf st) = true ∧ o = Break st) ∨
     (fl_ltb (Fin s) (best_perf st) = false ∧
      cur_params (state_of o)
        = <[changing_param st := best_val]> (cur_params st) ∧
      best_perf (state_of o) = Fin s ∧
      perf (state_of o) = dict_set (cur_params (state_of o)) s (perf st))).
Proof.
  intros Hinit Hpasses Hsw Hc Hne.
  pose proof (init_state_inv cv grid pdist _ _ Hinit) as Hinv0.
  pose proof (passes_inv cv grid pdist _ _ _ Hinv0 Hpasses) as Hinv.
  assert (∃ best_val, dict_argmax cur_perfs = Ok best_val) as (best_val & Hb).
  { apply py_max_total; [|intros x; apply dict_get_key].
    pose proof Hsw as Hsw'. unfold sweep in Hsw'.
    apply bind_Ok in Hsw' as (name & Hname & Hsw').
    apply bind_Ok in Hsw' as (vals' & Hvals & Hsw').
    unfold candidates in Hc. rewrite Hname in Hc. simpl in Hc.
    assert (vals' = vals) as -> by congruence.
    apply sweep_from_spec in Hsw' as (Hkeys & _); [|done].
    rewrite Hkeys. destruct vals as [|v vals]; [done|].
    intros Hnil. assert (v ∈ seen [] (v :: vals)) as Hv.
    { apply seen_elem. right. by left. }
    simpl in Hnil, Hv. rewrite Hnil in Hv. by apply elem_of_nil in Hv. }
  destruct (sweep_argmax _ _ _ _ _ _ Hsw Hb)
    as (vals' & s & Hc' & Hfm & Hget & Hs).
  replace vals' with vals in * by congruence.
  assert (changing_param st < length names) as Ha.
  { unfold candidates in Hc.
    destruct (getitem names (changing_param st)) as [nm|] eqn:Hnm; [|done].
    apply getitem_Ok in Hnm. by eapply lookup_lt_Some. }
  destruct (lookup_lt_is_Some_2 (cur_params st) (changing_param st))
    as [old Hold]; [by rewrite (inv_cur _ _ _ _ Hinv)|].
  exists best_val, s.
  unfold step. rewrite Hsw. cbn [bind]. rewrite Hb. cbn [bind].
  rewrite Hget. cbn [bind].
  destruct (fl_ltb (Fin s) (best_perf st)) eqn:Hcmp.
  { exists (Break st). split_and!; [done..|]. by left. }
  unfold getitem, setitem. rewrite Hold. cbn [bind].
  rewrite decide_True by by rewrite (inv_changed _ _ _ _ Hinv).
  cbn [bind].
  rewrite decide_True by by rewrite (inv_cur _ _ _ _ Hinv).
  cbn [bind]. rewrite decide_False by lia.
  case_decide; eexists; (split_and!; [done..|]); right; by split_and!.
Qed.

(** C9. [best_perf] never decreases: not over the passes made so far, and
    not in the next pass, which either leaves it as it is (the stop on a
    regression) or replaces it by the score of a candidate that is at
    least as large. *)
Theorem best_perf_nondecreasing k st st' o :
  passes k st = Some st' →
  step st' = Ok o →
  fl_le (best_perf st) (best_perf st') ∧
  fl_le (best_perf st') (best_perf (state_of o)) ∧
  (o = Break st' ∨
   ∃ val s,
     score_at (changing_param st') (cur_params st') val = Ok s ∧
     best_perf (state_of o) = Fin s ∧
     fl_le (best_perf st') (Fin s)).
Proof.
  intros Hp Hstep. split_and!.
  - by eapply passes_best_perf.
  - by eapply step_best_perf.
  - pose proof Hstep as Hle%step_best_perf.
    apply step_inv in Hstep as (vals & b & s & Hc & Hfm & Hs & Hcase).
    destruct Hcase as [[_ ->]|(Hcmp & st1 & Had & ->)]; [by left|].
    right. exists b, s.
    destruct Had as (old & _ & _ & _ & _ & _ & _ & _ & Hbest).
    split_and!; [done| |done]. by case_decide.
Qed.

(** A sweep whose best score is strictly below [best_perf] ends the run:
    the result is computed from the state as it was before that sweep. *)
Lemma search_regression_stop init retrieval k st0 st
    cur_perfs best_val s fuel :
  init_state grid init = Ok st0 →
  passes k st0 = Some st →
  py_any (changed st) = true →
  sweep st = Ok cur_perfs →
  dict_argmax cur_perfs = Ok best_val →
  dict_get best_val cur_perfs = Ok s →
  fl_ltb (Fin s) (best_perf st) = true →
  ∃ best_params sc,
    search (k + S fuel) init retrieval =
      Some (Ok (zip names best_params,
                if retrieval then best_perf st else fl_neg (best_perf st))) ∧
    dict_get best_params (perf st) = Ok sc ∧
    ∀ c s', dict_get c (perf st) = Ok s' → (s' <= sc)%Q.
Proof.
  intros Hinit Hp Hany Hsw Hmax Hget Hcmp.
  assert (step st = Ok (Break st)) as Hstep.
  { unfold step. rewrite Hsw. cbn [bind]. rewrite Hmax.
    cbn [bind]. rewrite Hget. cbn [bind]. by rewrite Hcmp. }
  assert (inv cv grid pdist st) as Hinv.
  { eapply passes_inv; [|done]. by eapply init_state_inv. }
  destruct (best_perf st) as [|b|] eqn:Hb;
    [done| |by destruct (inv_finite _ _ _ _ Hinv)].
  destruct (inv_best _ _ _ _ Hinv b Hb) as [Hcur _].
  assert (∃ best_params, dict_argmax (perf st) = Ok best_params)
    as (best_params & Hbp).
  { apply py_max_total; [|intros x; apply dict_get_key].
    apply dict_get_Ok_key in Hcur. intros Hnil. rewrite Hnil in Hcur.
    by apply elem_of_nil in Hcur. }
  pose proof (py_max_spec _ _ _ Hbp) as Hfm.
  destruct (dict_get_key best_params (perf st)) as (sc & Hsc).
  { by eapply first_max_elem. }
  exists best_params, sc. split_and!; [|done|].
  - unfold search. rewrite Hinit.
    rewrite (loop_passes _ _ _ _ _ _ _ Hp). simpl.
    rewrite Hany, Hstep. unfold finish. rewrite Hbp. simpl. by rewrite Hb.
  - intros c s' Hc.
    destruct (first_max_ge _ _ _ c Hfm) as (kx & kb & Hkx & Hkb & Hle).
    { by eapply dict_get_Ok_key. }
    by replace s' with kx by congruence; replace sc with kb by congruence.
Qed.

(** The first pass cannot stop on a regression, and the score it adopts
    is at least that of every candidate of the first axis. *)
Lemma first_pass_ge st o val s0 vals :
  inv cv grid pdist st →
  best_perf st = MInf →
  candidates grid st = Ok vals → val ∈ vals →
  score_at (changing_param st) (cur_params st) val = Ok s0 →
  step st = Ok o →
  fl_le (Fin s0) (best_perf (state_of o)).
Proof.
  intros Hinv Hb Hc Hval Hs0 Hstep.
  apply step_inv in Hstep as (vals' & b & s & Hc' & Hfm & Hs & Hcase).
  replace vals' with vals in * by congruence.
  destruct (first_max_ge _ _ _ val Hfm Hval) as (kx & kb & Hkx & Hkb & Hle).
  replace kx with s0 in * by congruence.
  replace kb with s in * by congruence.
  destruct Hcase as [[Hcmp _]|(Hcmp & st1 & Had & ->)].
  { by rewrite Hb in Hcmp. }
  destruct Had as (old & _ & _ & _ & _ & _ & _ & _ & Hbest).
  assert (best_perf (state_of (if decide (length names < 2)
            then Break st1 else Continue st1)) = Fin s) as ->.
  { by case_decide. }
  by apply fl_le_Fin.
Qed.

(** When the initial value of the first axis is one of its candidates, the
    last [best_perf] is at least the score of the initial configuration. *)
Lemma search_score_ge_initial init retrieval fuel st0 p0 vals0 rest v0 s0
    cfg sc :
  grid = (p0, vals0) :: rest →
  init !! p0 = Some v0 →
  v0 ∈ vals0 →
  init_state grid init = Ok st0 →
  config_score cv grid pdist (cur_params st0) = Ok s0 →
  search fuel init retrieval = Some (Ok (cfg, sc)) →
  fl_le (Fin s0) (if retrieval then sc else fl_neg sc).
Proof.
  intros Hgrid Hv0 Hin Hinit Hs0 Hsearch.
  pose proof (init_state_inv cv grid pdist _ _ Hinit) as Hinv.
  unfold search in Hsearch. rewrite Hinit in Hsearch.
  destruct (loop fuel st0) as [[st_end|e]|] eqn:Hloop; [|done..].
  unfold finish in Hsearch.
  destruct (dict_argmax (perf st_end)) as [bp|]; [|done].
  simpl in Hsearch. injection Hsearch as _ <-.
  assert (fl_le (Fin s0) (best_perf st_end)) as Hle.
  { unfold init_state in Hinit.
    apply bind_Ok in Hinit as (cur & Hcur & [= <-]).
    assert (cur !! 0 = Some v0) as Hcur0.
    { rewrite Hgrid in Hcur. simpl in Hcur. rewrite Hv0 in Hcur.
      simpl in Hcur. by apply bind_Ok in Hcur as (ys & _ & [= <-]). }
    set (st0 := {| cur_params := cur; changed := _ |}) in *.
    assert (candidates grid st0 = Ok vals0) as Hc.
    { unfold candidates. rewrite Hgrid. simpl. by rewrite decide_True. }
    assert (score_at 0 cur v0 = Ok s0) as Hsc.
    { rewrite score_at_config by apply Hinv.
      by rewrite list_insert_id. }
    assert (py_any (changed st0) = true) as Hany.
    { apply py_any_replicate. rewrite Hgrid. simpl. lia. }
    apply loop_Ok in Hloop as (k & st_last & Hp & Hend).
    destruct k as [|k].
    - injection Hp as <-. destruct Hend as [[Hno _]|[_ Hstep]].
      { by rewrite Hany in Hno. }
      by apply (first_pass_ge st0 _ v0 s0 vals0 Hinv eq_refl Hc Hin Hsc Hstep).
    - apply passes_S in Hp as (_ & st1 & Hstep & Hp).
      pose proof (first_pass_ge st0 _ v0 s0 vals0 Hinv eq_refl Hc Hin Hsc Hstep)
        as Hfirst. simpl in Hfirst.
      eapply fl_le_trans; [done|].
      eapply fl_le_trans; [by eapply passes_best_perf|].
      destruct Hend as [[_ ->]|[_ Hbreak]]; [apply fl_le_refl|].
      apply (step_best_perf _ _ _ _ _ Hbreak). }
  destruct retrieval; [done | by apply fl_le_neg_neg].
Qed.

End SearchClaims.

Section OptimizeClaims.
Context {feature V gpstate rng pdist_t splitter : Type} `{EqDecision V}.
Context `{!Externals feature V gpstate rng pdist_t splitter}.
Variables (g : rng) (ds : dataset feature) (relevance : option (list Z)).
Variables (grid : list (string * list V)) (n_folds : nat) (fewshot : bool).

Local Abbreviation cv := (evaluator g ds relevance n_folds fewshot).
Local Abbreviation pdist := (pairwise_sqdist (X_train_norm ds)).
Local Abbreviation retrieval := (bool_decide (is_Some relevance)).

(** Every call of [optimize_gp_params] ends, with a result or with an
    exception. *)
Lemma optimize_gp_params_terminates init :
  ∃ fuel r,
    optimize_gp_params fuel g ds relevance grid init n_folds fewshot = Some r.
Proof. apply search_terminates. Qed.

(** C2. When, after some passes from the initial state, the best score of
    the sweep is strictly below [best_perf], [optimize_gp_params] ends
    there, whatever fuel is left: the result is computed from the state as
    it was before that sweep, and the configuration returned is an entry of
    [perf] whose recorded score no other entry exceeds. *)
Theorem regression_stop_returns_best_entry init k st0 st cur_perfs best_val
    s fuel :
  init_state grid init = Ok st0 →
  passes cv grid pdist k st0 = Some st →
  py_any (changed st) = true →
  sweep cv grid pdist st = Ok cur_perfs →
  dict_argmax cur_perfs = Ok best_val →
  dict_get best_val cur_perfs = Ok s →
  fl_ltb (Fin s) (best_perf st) = true →
  ∃ best_params sc,
    optimize_gp_params (k + S fuel) g ds relevance grid init n_folds fewshot =
      Some (Ok (zip (param_names grid) best_params,
                if retrieval then best_perf st else fl_neg (best_perf st))) ∧
    dict_get best_params (perf st) = Ok sc ∧
    ∀ c s', dict_get c (perf st) = Ok s' → (s' <= sc)%Q.
Proof. apply search_regression_stop. Qed.

(** C1, as the code has it.  If the initial value of the first parameter
    of the grid is one of its candidates, [optimize_gp_params] ends, and
    when it returns a score, the last [best_perf] of the run is at least
    the score of the initial configuration (the initial values of the
    parameters of the grid).  [best_perf] is the score returned for a
    retrieval task and its opposite for a regression task. *)
Theorem returned_score_ge_initial init st0 p0 vals0 rest v0 s0 :
  grid = (p0, vals0) :: rest →
  init !! p0 = Some v0 →
  v0 ∈ vals0 →
  init_state grid init = Ok st0 →
  cv (params_of_config grid pdist (cur_params st0)) = Ok s0 →
  (∃ fuel r,
     optimize_gp_params fuel g ds relevance grid init n_folds fewshot
     = Some r) ∧
  ∀ fuel cfg sc,
    optimize_gp_params fuel g ds relevance grid init n_folds fewshot
    = Some (Ok (cfg, sc)) →
    fl_le (Fin s0) (if retrieval then sc else fl_neg sc).
Proof.
  intros Hgrid Hv0 Hin Hinit Hs0. split; [apply optimize_gp_params_terminates|].
  intros fuel cfg sc Hrun.
  by eapply (search_score_ge_initial cv grid pdist init retrieval fuel).
Qed.
End OptimizeClaims.

(** ** Properties of the evaluators *)

Lemma tbind_lift_log {A B} (m : result A) (k : A → traced B) ev :
  ev ∈ (tbind (lift m) k).1 → ∃ a, m = Ok a ∧ ev ∈ (k a).1.
Proof.
  unfold tbind, lift. destruct m as [a|e]; simpl.
  - destruct (k a) as [l r] eqn:Hk. simpl. intros Hev. exists a.
    by rewrite Hk.
  - by intros ?%elem_of_nil.
Qed.

Lemma tbind_log_log {B} (e : event) (k : unit → traced B) ev :
  ev ∈ (tbind (log e) k).1 → ev = e ∨ ev ∈ (k tt).1.
Proof.
  unfold tbind, log. destruct (k tt) as [l r]. simpl.
  intros [->|?]%elem_of_cons; auto.
Qed.

Lemma tbind_log_in {A B} (m : traced A) (k : A → traced B) ev :
  ev ∈ (tbind m k).1 → ev ∈ m.1 ∨ ∃ a, m.2 = Ok a ∧ ev ∈ (k a).1.
Proof.
  unfold tbind. destruct m as [l [a|e]]; simpl; [|auto].
  destruct (k a) as [l' r] eqn:Hk. simpl.
  intros [?|?]%elem_of_app; [auto|]. right. exists a. by rewrite Hk.
Qed.

Lemma tbind_lift_Ok {A B} (m : result A) (k : A → traced B) evs b :
  tbind (lift m) k = (evs, Ok b) → ∃ a, m = Ok a ∧ k a = (evs, Ok b).
Proof.
  unfold tbind, lift. destruct m as [a|e]; [|done].
  destruct (k a) as [l r] eqn:Hk. simpl. intros [= <- <-]. by exists a.
Qed.

Lemma tbind_log_Ok {B} (e : event) (k : unit → traced B) evs b :
  tbind (log e) k = (evs, Ok b) → ∃ evs', evs = e :: evs' ∧ k tt = (evs', Ok b).
Proof.
  unfold tbind, log. destruct (k tt) as [l r] eqn:Hk. simpl.
  intros [= <- <-]. by exists l.
Qed.


Lemma mask_seq_nonzero (rel : list Z) : ∀ s i,
  i ∈ mask (seq s (length rel)) (map (λ r, negb (r =? 0)%Z) rel) →
  ∃ r, rel !! (i - s) = Some r ∧ r ≠ 0%Z ∧ s ≤ i.
Proof.
  induction rel as [|r rel IH]; intros s i; simpl.
  - by intros ?%elem_of_nil.
  - destruct (r =? 0)%Z eqn:Hr; simpl.
    + intros (r' & Hr' & Hne & Hle)%IH. exists r'.
      replace (i - s) with (S (i - S s)) by lia. split_and!; [done..|lia].
    + intros [->|Hi]%elem_of_cons.
      * exists r. rewrite Nat.sub_diag. split_and!; [done| |done].
        by apply Z.eqb_neq.
      * apply IH in Hi as (r' & Hr' & Hne & Hle). exists r'.
        replace (i - s) with (S (i - S s)) by lia. split_and!; [done..|lia].
Qed.

Lemma assign_all_spec ivs : ∀ cells cells',
  assign_all cells ivs = Ok cells' →
  length cells' = length cells ∧
  ∀ j, assigned cells j ∨ j ∈ ivs.*1 → assigned cells' j.
Proof.
  induction ivs as [|[i v] ivs IH]; intros cells cells'; simpl.
  - intros [= <-]. split; [done|]. intros j [?|?%elem_of_nil]; done.
  - intros H. apply bind_Ok in H as (c1 & [Hi ->]%setitem_Ok & H).
    apply IH in H as [Hlen Hsome]. rewrite length_insert in Hlen.
    split; [done|]. intros j Hj. apply Hsome. unfold assigned.
    destruct (decide (i = j)) as [->|Hne].
    { left. exists v. by apply list_lookup_insert_eq. }
    rewrite list_lookup_insert_ne by done.
    destruct Hj as [Hj|[->|Hj]%elem_of_cons]; [by left|done|by right].
Qed.

Lemma assign_idx_spec cells ind vals cells' :
  assign_idx cells ind vals = Ok cells' →
  length cells' = length cells ∧
  ∀ j, assigned cells j ∨ j ∈ ind → assigned cells' j.
Proof.
  unfold assign_idx. case_decide as Hlen.
  - intros H%assign_all_spec. by rewrite fst_zip in H by lia.
  - destruct vals as [|v [|]]; try done.
    intros H%assign_all_spec.
    by rewrite fst_zip in H by (rewrite length_replicate; lia).
Qed.

Lemma stores_cons_store cells evs : stores (EvStore cells :: evs) = cells ++ stores evs.
Proof. done. Qed.

Lemma NoDup_count_one (l : list nat) j :
  NoDup l → j ∈ l → length (filter (λ c, c = j) l) = 1.
Proof.
  induction 1 as [|x l Hx Hnd IH]; [by intros ?%elem_of_nil|].
  rewrite filter_cons. destruct (decide (x = j)) as [->|Hne].
  - intros _. simpl. f_equal.
    destruct (filter (λ c, c = j) l) as [|y ys] eqn:Hf; [done|].
    assert (y ∈ filter (λ c, c = j) l) as Hy by (rewrite Hf; by left).
    apply list_elem_of_filter in Hy as [-> ?]. done.
  - intros [?|?]%elem_of_cons; [done | by apply IH].
Qed.

Section EvaluatorClaims.
Context {feature V gpstate rng pdist_t splitter : Type}.
Context `{!Externals feature V gpstate rng pdist_t splitter}.

Implicit Types (ds : dataset feature) (relevance : option (list Z)).
Implicit Types (gp_params : gmap string (kwarg V pdist_t)).

Lemma not_unnameable_nonzero ds rel nn i :
  not_unnameable ds (Some rel) = Ok nn → i ∈ nn →
  ∃ r, rel !! i = Some r ∧ r ≠ 0%Z.
Proof.
  unfold not_unnameable. case_decide as Hlen; [|done].
  intros [= <-]. rewrite length_seq in Hlen. rewrite <-Hlen.
  intros (r & Hr & Hne & _)%mask_seq_nonzero. exists r.
  by rewrite Nat.sub_0_r in Hr.
Qed.

Lemma gp_folds_asks ds relevance nn folds : ∀ gp scores ev i,
  ev ∈ (gp_folds ds relevance nn gp scores folds).1 → i ∈ asks ev → i ∈ nn.
Proof.
  induction folds as [|[train_ind test_ind] folds IH];
    intros gp scores ev i; simpl.
  - by intros ?%elem_of_nil.
  - intros Hev Hi.
    apply tbind_lift_log in Hev as (fit_on & Hfit & Hev).
    apply tbind_lift_log in Hev as (targets & _ & Hev).
    apply tbind_log_log in Hev as [->|Hev].
    { by eapply take_idx_elem. }
    apply tbind_lift_log in Hev as (gp' & _ & Hev).
    apply tbind_lift_log in Hev as (predict_on & Hpred & Hev).
    apply tbind_log_log in Hev as [->|Hev].
    { by eapply take_idx_elem. }
    apply tbind_lift_log in Hev as (preds & _ & Hev).
    apply tbind_lift_log in Hev as (scores' & _ & Hev).
    apply tbind_log_log in Hev as [->|Hev].
    { by apply elem_of_nil in Hi. }
    by eapply IH.
Qed.

Lemma fewshot_folds_asks ds relevance nn folds : ∀ gp perf ev i,
  ev ∈ (fewshot_folds ds relevance nn gp perf folds).1 →
  i ∈ asks ev → i ∈ nn.
Proof.
  induction folds as [|[train_ind test_ind] folds IH];
    intros gp perf ev i; simpl.
  - by intros ?%elem_of_nil.
  - intros Hev Hi.
    apply tbind_lift_log in Hev as (fit_on & Hfit & Hev).
    apply tbind_lift_log in Hev as (targets & _ & Hev).
    apply tbind_log_log in Hev as [->|Hev].
    { by eapply take_idx_elem. }
    apply tbind_lift_log in Hev as (gp' & _ & Hev).
    apply tbind_lift_log in Hev as (predict_on & Hpred & Hev).
    apply tbind_log_log in Hev as [->|Hev].
    { by eapply take_idx_elem. }
    apply tbind_lift_log in Hev as (preds & _ & Hev).
    apply tbind_lift_log in Hev as (p & _ & Hev).
    by eapply IH.
Qed.

(** C3. Every sample on which [cross_validate_gp] or
    [cross_validate_fewshot] fits the predictor or asks it for a
    prediction has a relevance value, and that value is not 0. *)
Theorem no_unknown_sample_reaches_predictor g ds rel gp_params n_folds ev i :
  ev ∈ (cross_validate_gp g ds (Some rel) gp_params n_folds).1 ∨
  ev ∈ (cross_validate_fewshot g ds (Some rel) gp_params n_folds).1 →
  i ∈ asks ev →
  ∃ r, rel !! i = Some r ∧ r ≠ 0%Z.
Proof.
  intros Hev Hi. unfold cross_validate_gp, cross_validate_fewshot in Hev.
  destruct Hev as [Hev|Hev].
  - apply tbind_lift_log in Hev as (nn & Hnn & Hev).
    apply tbind_lift_log in Hev as (gp & _ & Hev).
    apply tbind_lift_log in Hev as (folds & _ & Hev).
    apply tbind_log_in in Hev as [Hev|(scores' & _ & Hev)].
    + eapply not_unnameable_nonzero; [done|]. by eapply gp_folds_asks.
    + by apply elem_of_nil in Hev.
  - apply tbind_lift_log in Hev as (nn & Hnn & Hev).
    apply tbind_lift_log in Hev as (gp & _ & Hev).
    apply tbind_lift_log in Hev as (folds & _ & Hev).
    apply tbind_log_in in Hev as [Hev|(perf & _ & Hev)].
    + eapply not_unnameable_nonzero; [done|]. by eapply fewshot_folds_asks.
    + by apply elem_of_nil in Hev.
Qed.

Lemma gp_folds_stores ds relevance nn folds : ∀ gp scores evs scores',
  gp_folds ds relevance nn gp scores folds = (evs, Ok scores') →
  stores evs = concat folds.*2 ∧
  length scores' = length scores ∧
  ∀ j, assigned scores j ∨ j ∈ concat folds.*2 → assigned scores' j.
Proof.
  induction folds as [|[train_ind test_ind] folds IH];
    intros gp scores evs scores'; simpl.
  - intros [= <- <-]. split_and!; [done..|].
    intros j [?|?%elem_of_nil]; done.
  - intros H.
    apply tbind_lift_Ok in H as (fit_on & _ & H).
    apply tbind_lift_Ok in H as (targets & _ & H).
    apply tbind_log_Ok in H as (evs1 & -> & H).
    apply tbind_lift_Ok in H as (gp' & _ & H).
    apply tbind_lift_Ok in H as (predict_on & _ & H).
    apply tbind_log_Ok in H as (evs2 & -> & H).
    apply tbind_lift_Ok in H as (preds & _ & H).
    apply tbind_lift_Ok in H as (scores1 & [Hlen1 Hsome1]%assign_idx_spec & H).
    apply tbind_log_Ok in H as (evs3 & -> & H).
    apply IH in H as (Hst & Hlen & Hsome).
    split_and!.
    + change (stores (EvFit fit_on :: EvPredict predict_on
                        :: EvStore test_ind :: evs3))
        with (test_ind ++ stores evs3). by rewrite Hst.
    + by rewrite Hlen.
    + intros j Hj. apply Hsome.
      destruct Hj as [Hj|[Hj|Hj]%elem_of_app]; [left|left|by right];
        apply Hsome1; auto.
Qed.

(** What [cross_validate_gp] hands to the splitter at line 57 is one
    sample per eligible sample, so the test index sets of its folds are
    disjoint and together are the positions of the eligible samples. *)
Lemma make_folds_partition g ds relevance nn n_folds folds :
  splitters_partition →
  make_folds g ds relevance nn n_folds = Ok folds →
  concat folds.*2 ≡ₚ seq 0 (length nn).
Proof.
  intros Hpart. unfold make_folds. intros H.
  apply bind_Ok in H as (kf & Hkf & H).
  apply bind_Ok in H as (X & HX & H).
  apply bind_Ok in H as (y & _ & H).
  apply for_each_length in HX. rewrite <-HX.
  apply (Hpart n_folds true (Some 0%Z) kf g X y folds); [|done].
  destruct relevance; [by right | by left].
Qed.

(** C4. The splitters of scikit-learn yield test index sets that are
    disjoint and together are the positions of the samples they are
    given.  [cross_validate_gp] gives its splitter the eligible samples,
    so the test index sets of its folds are disjoint and their union is
    the set of the positions [0 .. n-1] of the eligible samples; the run
    therefore writes every cell of the pooled array exactly once, and the
    metric of line 61 reads an array with every cell assigned. *)
Theorem pooled_scores_written_once g ds relevance gp_params n_folds
    nn gp folds evs scores' :
  splitters_partition →
  not_unnameable ds relevance = Ok nn →
  GaussianProcess (X_train_norm ds) gp_params = Ok gp →
  make_folds g ds relevance nn n_folds = Ok folds →
  gp_folds ds relevance nn gp (replicate (length nn) None) folds
    = (evs, Ok scores') →
  NoDup (concat folds.*2) ∧
  (∀ j, j ∈ concat folds.*2 ↔ j < length nn) ∧
  (∀ j, j < length nn → length (filter (λ c, c = j) (stores evs)) = 1) ∧
  (∃ preds, read_all scores' = Ok preds ∧ length preds = length nn) ∧
  cross_validate_gp g ds relevance gp_params n_folds
    = (evs, pooled_metric ds relevance nn scores').
Proof.
  intros Hpart Hnn Hgp Hfolds Hrun.
  pose proof (make_folds_partition _ _ _ _ _ _ Hpart Hfolds) as Hperm.
  pose proof Hrun as (Hst & Hlen & Hsome)%gp_folds_stores.
  rewrite length_replicate in Hlen.
  split_and!.
  - rewrite Hperm. apply NoDup_seq.
  - intros j. rewrite Hperm, elem_of_seq. lia.
  - intros j Hj. rewrite Hst. apply NoDup_count_one.
    + rewrite Hperm. apply NoDup_seq.
    + rewrite Hperm. apply elem_of_seq. lia.
  - assert (Forall is_Some scores') as Hall.
    { apply Forall_lookup. intros j c Hc.
      assert (j < length nn) as Hj.
      { rewrite <-Hlen. by eapply lookup_lt_Some. }
      destruct (Hsome j) as [q Hq].
      - right. rewrite Hperm. apply elem_of_seq. lia.
      - exists q. congruence. }
    clear -Hall Hlen. revert Hlen. generalize (length nn).
    induction Hall as [|c cs [q ->] _ IH]; intros n Hlen.
    + exists []. by split.
    + destruct n as [|n]; [done|]. destruct (IH n) as (preds & Hp & Hl).
      { simpl in Hlen. lia. }
      exists (q :: preds). unfold read_all in *. simpl. rewrite Hp.
      split; [done|]. simpl. by rewrite Hl.
  - unfold cross_validate_gp, tbind, lift. rewrite Hnn, Hgp, Hfolds, Hrun.
    simpl. by rewrite !app_nil_r.
Qed.



End EvaluatorClaims.

(** ** Errors, determinism and what is read of [init] *)

Section SearchExt.
Context {V pdist_t : Type} `{EqDecision V}.
Variables cv1 cv2 : gmap string (kwarg V pdist_t) → result Q.
Variable grid : list (string * list V).
Variable pdist : pdist_t.
Hypothesis cv_ext : ∀ kw, cv1 kw = cv2 kw.

Lemma sweep_from_ext a cur vals : ∀ d0,
  sweep_from cv1 grid pdist a cur d0 vals
  = sweep_from cv2 grid pdist a cur d0 vals.
Proof.
  induction vals as [|val vals IH]; intros d0; simpl; [done|].
  destruct (cv_params_of grid pdist a val cur) as [kw|e]; simpl; [|done].
  rewrite cv_ext. destruct (cv2 kw); simpl; [apply IH | done].
Qed.

Lemma step_ext st : step cv1 grid pdist st = step cv2 grid pdist st.
Proof.
  unfold step, sweep.
  destruct (getitem (param_names grid) (changing_param st)); simpl; [|done].
  destruct (dict_get a grid); simpl; [|done]. by rewrite sweep_from_ext.
Qed.

Lemma loop_ext fuel : ∀ st,
  loop cv1 grid pdist fuel st = loop cv2 grid pdist fuel st.
Proof.
  induction fuel as [|fuel IH]; intros st; simpl; [done|].
  rewrite step_ext. destruct (py_any (changed st)); [|done].
  destruct (step cv2 grid pdist st) as [[st'|st']|e]; [apply IH|done..].
Qed.

Lemma search_ext fuel init retrieval :
  search cv1 grid pdist fuel init retrieval
  = search cv2 grid pdist fuel init retrieval.
Proof.
  unfold search. destruct (init_state grid init); [|done].
  by rewrite loop_ext.
Qed.

End SearchExt.

Section SearchErr.
Context {V pdist_t : Type} `{EqDecision V}.
Variable cv : gmap string (kwarg V pdist_t) → result Q.
Variable grid : list (string * list V).
Variable pdist : pdist_t.
Hypothesis cv_err : ∀ kw, is_err (cv kw).

Lemma sweep_from_cv_err a cur vals d0 d :
  sweep_from cv grid pdist a cur d0 vals = Ok d → vals = [] ∧ d = d0.
Proof.
  destruct vals as [|val vals]; simpl; [by intros [= <-]|].
  intros H. apply bind_Ok in H as (kw & _ & H).
  apply bind_Ok in H as (s & Hs & _).
  specialize (cv_err kw). by rewrite Hs in cv_err.
Qed.

Lemma step_cv_err st : is_err (step cv grid pdist st).
Proof.
  unfold step. destruct (sweep cv grid pdist st) as [d|e] eqn:Hsw; [|done].
  unfold sweep in Hsw. apply bind_Ok in Hsw as (name & _ & Hsw).
  apply bind_Ok in Hsw as (vals & _ & Hsw).
  by apply sweep_from_cv_err in Hsw as [_ ->].
Qed.

Lemma search_cv_err fuel init retrieval :
  ∃ e, search cv grid pdist (S fuel) init retrieval = Some (Err e).
Proof.
  unfold search. destruct (init_state grid init) as [st0|e] eqn:Hinit;
    [|by eexists].
  simpl. destruct (py_any (changed st0)) eqn:Hany.
  - pose proof (step_cv_err st0) as Hstep.
    destruct (step cv grid pdist st0) as [o|e]; [done | by eexists].
  - unfold init_state in Hinit.
    apply bind_Ok in Hinit as (cur & _ & [= <-]). by eexists.
Qed.

End SearchErr.

Section RunClaims.
Context {feature V gpstate rng pdist_t splitter : Type} `{EqDecision V}.
Context `{!Externals feature V gpstate rng pdist_t splitter}.

Implicit Types (ds : dataset feature) (relevance : option (list Z)).
Implicit Types (gp_params : gmap string (kwarg V pdist_t)).

Lemma make_folds_too_few g ds relevance nn n_folds :
  splitters_refuse →
  n_folds < 2 ∨ length nn < n_folds →
  is_err (make_folds g ds relevance nn n_folds).
Proof.
  intros [Hnew Hsplit] Hfew. unfold make_folds.
  destruct (decide (n_folds < 2)) as [Hk|Hk].
  { destruct (Hnew n_folds true (Some 0%Z) Hk) as [H1 H2].
    destruct relevance; [by destruct (StratifiedKFold _ _ _)
                        | by destruct (KFold _ _ _)]. }
  assert (∀ kf,
    KFold n_folds true (Some 0%Z) = Ok kf ∨
    StratifiedKFold n_folds true (Some 0%Z) = Ok kf →
    is_err (let* X := take_idx (X_train_norm ds) nn in
            let* y := match relevance with
                      | Some rel => let* r := take_idx rel nn in Ok (Some r)
                      | None => Ok None
                      end in
            split kf g X y)) as Hrest.
  { intros kf Hkf.
    destruct (take_idx (X_train_norm ds) nn) as [X|] eqn:HX; [|done].
    apply for_each_length in HX. simpl.
    destruct relevance as [rel|]; simpl.
    - destruct (take_idx rel nn); [|done]. simpl.
      eapply Hsplit; [done|lia].
    - eapply Hsplit; [done|lia]. }
  destruct relevance.
  - destruct (StratifiedKFold n_folds true (Some 0%Z)) as [kf|] eqn:Hkf;
      [|done]. apply Hrest. by right.
  - destruct (KFold n_folds true (Some 0%Z)) as [kf|] eqn:Hkf; [|done].
    apply Hrest. by left.
Qed.

(** C6. With splitters that refuse fewer than two folds and more folds
    than samples, an evaluator that is given no eligible sample, fewer
    eligible samples than folds, or fewer than two folds, ends with an
    exception before it fits the predictor, and so does the run of
    [optimize_gp_params], which returns the exception in place of a
    result. *)
Theorem too_few_eligible_samples_is_an_error g ds relevance n_folds nn
    gp_params grid init fewshot fuel :
  splitters_refuse →
  not_unnameable ds relevance = Ok nn →
  length nn = 0 ∨ length nn < n_folds ∨ n_folds < 2 →
  (∃ e, cross_validate_gp g ds relevance gp_params n_folds = ([], Err e)) ∧
  (∃ e, cross_validate_fewshot g ds relevance gp_params n_folds
          = ([], Err e)) ∧
  (∃ e, optimize_gp_params (S fuel) g ds relevance grid init n_folds fewshot
          = Some (Err e)).
Proof.
  intros Hsp Hnn Hfew.
  assert (∀ kw,
    (∃ e, cross_validate_gp g ds relevance kw n_folds = ([], Err e)) ∧
    (∃ e, cross_validate_fewshot g ds relevance kw n_folds = ([], Err e)))
    as Hcv.
  { intros kw.
    assert (is_err (make_folds g ds relevance nn n_folds)) as Hmf.
    { apply make_folds_too_few; [done|]. lia. }
    destruct (make_folds g ds relevance nn n_folds) as [|e] eqn:Hfolds;
      [done|].
    unfold cross_validate_gp, cross_validate_fewshot, tbind, lift.
    rewrite Hnn.
    destruct (GaussianProcess (X_train_norm ds) kw) as [gp|e'];
      [rewrite Hfolds|]; split; by eexists. }
  split_and!; [apply Hcv..|].
  apply search_cv_err. intros kw. unfold evaluator.
  destruct (Hcv kw) as [[e1 ->] [e2 ->]]. by destruct fewshot.
Qed.

Lemma make_folds_seeded g1 g2 ds relevance nn n_folds :
  splitters_seeded →
  make_folds g1 ds relevance nn n_folds = make_folds g2 ds relevance nn n_folds.
Proof.
  intros Hseed. unfold make_folds. destruct relevance as [rel|].
  - destruct (StratifiedKFold n_folds true (Some 0%Z)) as [kf|] eqn:Hkf;
      [|done]. simpl.
    destruct (take_idx (X_train_norm ds) nn); simpl; [|done].
    destruct (take_idx rel nn); simpl; [|done].
    eapply Hseed. by right.
  - destruct (KFold n_folds true (Some 0%Z)) as [kf|] eqn:Hkf; [|done]. simpl.
    destruct (take_idx (X_train_norm ds) nn); simpl; [|done].
    eapply Hseed. by left.
Qed.

(** C7. With splitters whose seeded splits do not depend on the state of
    the global generator, two runs of [optimize_gp_params] on the same
    arguments return the same configuration and the same score whatever
    that state is at the time of each run, and so does each call of
    either evaluator. *)
Theorem seeded_runs_agree fuel g1 g2 ds relevance grid init n_folds fewshot :
  splitters_seeded →
  optimize_gp_params fuel g1 ds relevance grid init n_folds fewshot
  = optimize_gp_params fuel g2 ds relevance grid init n_folds fewshot ∧
  ∀ gp_params,
    cross_validate_gp g1 ds relevance gp_params n_folds
    = cross_validate_gp g2 ds relevance gp_params n_folds ∧
    cross_validate_fewshot g1 ds relevance gp_params n_folds
    = cross_validate_fewshot g2 ds relevance gp_params n_folds.
Proof.
  intros Hseed.
  assert (∀ gp_params,
    cross_validate_gp g1 ds relevance gp_params n_folds
    = cross_validate_gp g2 ds relevance gp_params n_folds ∧
    cross_validate_fewshot g1 ds relevance gp_params n_folds
    = cross_validate_fewshot g2 ds relevance gp_params n_folds) as Hcv.
  { intros kw. unfold cross_validate_gp, cross_validate_fewshot, tbind, lift.
    destruct (not_unnameable ds relevance) as [nn|]; [|done].
    destruct (GaussianProcess (X_train_norm ds) kw) as [gp|]; [|done].
    by rewrite (make_folds_seeded g1 g2 ds relevance nn n_folds Hseed). }
  split; [|done]. unfold optimize_gp_params. apply search_ext.
  intros kw. unfold evaluator. destruct (Hcv kw) as [-> ->]. done.
Qed.

Lemma init_state_agree (grid : list (string * list V)) (init init' : gmap string V) :
  (∀ p, p ∈ param_names grid → init !! p = init' !! p) →
  init_state grid init = init_state grid init'.
Proof.
  intros Hagree. unfold init_state.
  assert (for_each (λ p, match init !! p with
                         | Some v => Ok v
                         | None => Err KeyError
                         end) (param_names grid)
          = for_each (λ p, match init' !! p with
                           | Some v => Ok v
                           | None => Err KeyError
                           end) (param_names grid)) as ->; [|done].
  induction (param_names grid) as [|p ps IH]; simpl; [done|].
  rewrite Hagree by by left. rewrite IH; [done|].
  intros q Hq. apply Hagree. by right.
Qed.

Lemma cv_entries_names (grid : list (string * list V)) a val cur entries :
  for_each (cv_entry grid a val cur) (seq 0 (length (param_names grid)))
    = Ok entries →
  entries.*1 = param_names grid.
Proof.
  intros Hall%for_each_Ok. apply list_eq. intros i.
  rewrite list_lookup_fmap.
  destruct (decide (i < length (param_names grid))) as [Hi|Hi].
  - destruct (Forall2_lookup_l _ _ _ i i Hall) as (e & He & Hentry).
    { by apply lookup_seq_lt. }
    rewrite He. simpl. unfold cv_entry in Hentry.
    apply bind_Ok in Hentry as (name & Hname%getitem_Ok & Hentry).
    apply bind_Ok in Hentry as (v & _ & [= <-]). by rewrite Hname.
  - apply Forall2_length in Hall. rewrite length_seq in Hall.
    rewrite !lookup_ge_None_2; [done|lia..].
Qed.

Lemma dom_kwargs (entries : list (string * V)) :
  ∀ kw : gmap string (kwarg V pdist_t),
  dom (foldl (λ m e, <[e.1 := Hyper e.2]> m) kw entries)
  = list_to_set entries.*1 ∪ dom kw.
Proof.
  induction entries as [|[name v] entries IH]; intros kw; simpl.
  - set_solver.
  - rewrite IH, dom_insert_L. set_solver.
Qed.

(** C10. A run reads [init] only at the parameter names of the grid: two
    [init] dictionaries that agree on those names give the same run.
    The keyword arguments built for the predictor are the names of the
    grid and ["pdist"], which holds the distance matrix, and nothing
    else. *)
Theorem init_read_only_at_grid_names fuel g ds relevance grid init init'
    n_folds fewshot :
  (∀ p, p ∈ param_names grid → init !! p = init' !! p) →
  optimize_gp_params fuel g ds relevance grid init n_folds fewshot
  = optimize_gp_params fuel g ds relevance grid init' n_folds fewshot ∧
  ∀ a val cur kw,
    cv_params_of grid (pairwise_sqdist (X_train_norm ds)) a val cur = Ok kw →
    dom kw = list_to_set (param_names grid) ∪ {["pdist"]} ∧
    kw !! "pdist" = Some (Pdist (pairwise_sqdist (X_train_norm ds))).
Proof.
  intros Hagree. split.
  - unfold optimize_gp_params, search.
    by rewrite (init_state_agree grid init init' Hagree).
  - intros a val cur kw. unfold cv_params_of. intros H.
    apply bind_Ok in H as (entries & Hentries & [= <-]).
    split; [|apply lookup_insert_eq].
    rewrite dom_insert_L, dom_kwargs, (cv_entries_names _ _ _ _ _ Hentries).
    set_solver.
Qed.

End RunClaims.

(** * Part IV: the properties on example runs *)

Lemma toy_splitters_refuse quality :
  splitters_refuse (Externals0 := Toy.externals quality).
Proof.
  split.
  - intros k sh rs Hk. simpl. unfold Toy.new_kfold.
    by rewrite decide_True.
  - intros k sh rs kf g X y Hkf Hlen. simpl in *. unfold Toy.new_kfold in Hkf.
    assert (kf.1 = k) as Hk1.
    { case_decide; destruct Hkf as [[= <-]|[= <-]]; done. }
    unfold Toy.kfold_split. rewrite Hk1. by rewrite decide_True.
Qed.

Lemma toy_splitters_seeded quality :
  splitters_seeded (Externals0 := Toy.externals quality).
Proof.
  intros k sh seed kf g g' X y Hkf. simpl in *. unfold Toy.new_kfold in Hkf.
  assert (kf.2 = Some seed) as Hk2.
  { case_decide; destruct Hkf as [[= <-]|[= <-]]; done. }
  unfold Toy.kfold_split. by rewrite Hk2.
Qed.

Lemma mod_below_twice a n :
  0 < n → a < 2 * n → a mod n = if decide (a < n) then a else a - n.
Proof.
  intros Hn Ha. case_decide; [by apply Nat.mod_small|].
  replace a with (a - n + 1 * n) at 1 by lia.
  rewrite Nat.Div0.mod_add. apply Nat.mod_small. lia.
Qed.

Lemma rotate_seq_Permutation shift n :
  map (λ i, (i + shift) mod n) (seq 0 n) ≡ₚ seq 0 n.
Proof.
  destruct (decide (n = 0)) as [->|Hn]; [done|].
  apply submseteq_length_Permutation;
    [|by rewrite length_map].
  apply NoDup_submseteq.
  - apply (NoDup_fmap_2_strong (λ i, (i + shift) mod n)); [|apply NoDup_seq].
    intros i j Hi%elem_of_seq Hj%elem_of_seq. simpl.
    rewrite <-(Nat.Div0.add_mod_idemp_r i), <-(Nat.Div0.add_mod_idemp_r j).
    pose proof (Nat.mod_upper_bound shift n Hn).
    rewrite (mod_below_twice (i + shift mod n)),
      (mod_below_twice (j + shift mod n)) by lia.
    repeat case_decide; lia.
  - intros x (i & -> & _)%list_elem_of_fmap. apply elem_of_seq.
    pose proof (Nat.mod_upper_bound (i + shift) n Hn). lia.
Qed.

Lemma blocks_concat n k : ∀ todo start i,
  concat (Toy.blocks n k start i todo)
  = seq start (todo * (n / k)
               + (Nat.min (i + todo) (n mod k) - Nat.min i (n mod k))).
Proof.
  induction todo as [|todo IH]; intros start i.
  - simpl. by rewrite Nat.add_0_r, Nat.sub_diag.
  - cbn [Toy.blocks concat]. rewrite IH, <-seq_app. f_equal.
    rewrite Nat.mul_succ_l. case_decide; lia.
Qed.

Lemma toy_splitters_partition quality :
  splitters_partition (Externals0 := Toy.externals quality).
Proof.
  intros k sh rs kf g X y folds Hkf. simpl in *. unfold Toy.new_kfold in Hkf.
  assert (2 ≤ kf.1) as Hk.
  { case_decide; destruct Hkf as [[= <-]|[= <-]]; simpl; lia. }
  clear Hkf. unfold Toy.kfold_split.
  destruct (decide (length X < kf.1)); [done|]. intros [= <-].
  rewrite <-list_fmap_compose.
  change (concat ((λ b, map (λ i, (i + match kf.2 with
                                         | Some seed => Z.to_nat seed
                                         | None => g
                                         end) mod length X) b)
                    <$> Toy.blocks (length X) kf.1 0 0 kf.1)
          ≡ₚ seq 0 (length X)).
  rewrite <-concat_map, blocks_concat.
  replace (kf.1 * (length X / kf.1)
           + (Nat.min (0 + kf.1) (length X mod kf.1)
              - Nat.min 0 (length X mod kf.1))) with (length X).
  { apply rotate_seq_Permutation. }
  pose proof (Nat.div_mod_eq (length X) kf.1).
  pose proof (Nat.mod_upper_bound (length X) kf.1). lia.
Qed.

(** C1 fails as stated: from the initial length scale 5, which is not a
    candidate, the run returns length scale 1, whose score is below that
    of the initial configuration. *)
Lemma returned_score_below_initial :
  ∃ cfg sc s0,
    optimize_gp_params 5 0 Toy.ds6 (Some Toy.rel6) Demo.grid1 Demo.init5 2 false
      = Some (Ok (cfg, Fin sc)) ∧
    evaluator 0 Toy.ds6 (Some Toy.rel6) 2 false
      (params_of_config Demo.grid1 tt [5%Z]) = Ok s0 ∧
    init_state Demo.grid1 Demo.init5 = Ok
      {| cur_params := [5%Z]; changed := [true]; changing_param := 0;
         perf := []; best_perf := MInf |} ∧
    (sc < s0)%Q.
Proof.
  exists [("length_scale", 1%Z)], (-80 # 4)%Q, (-16 # 4)%Q.
  split_and!; vm_compute; reflexivity.
Defined.

(** C1 on an example: from the initial length scale 1, a candidate. *)
Lemma returned_score_ge_initial_witness :
  Demo.grid1 = ("length_scale", [1; 10]%Z) :: [] ∧
  Demo.init1 !! "length_scale" = Some 1%Z ∧
  1%Z ∈ [1; 10]%Z ∧
  init_state Demo.grid1 Demo.init1 = Ok
    {| cur_params := [1%Z]; changed := [true]; changing_param := 0;
       perf := []; best_perf := MInf |} ∧
  Demo.cv (params_of_config Demo.grid1 tt [1%Z]) = Ok (-80 # 4)%Q ∧
  optimize_gp_params 5 0 Toy.ds6 (Some Toy.rel6) Demo.grid1 Demo.init1 2 false
    = Some (Ok ([("length_scale", 1%Z)], Fin (-80 # 4))) ∧
  fl_le (Fin (-80 # 4)) (Fin (-80 # 4)).
Proof.
  assert (1%Z ∈ [1; 10]%Z) as Hin by apply list_elem_of_here.
  assert (optimize_gp_params 5 0 Toy.ds6 (Some Toy.rel6) Demo.grid1
            Demo.init1 2 false
          = Some (Ok ([("length_scale", 1%Z)], Fin (-80 # 4)))) as Hrun
    by (vm_compute; reflexivity).
  split_and!; [reflexivity | vm_compute; reflexivity | exact Hin
              | vm_compute; reflexivity | vm_compute; reflexivity
              | exact Hrun |].
  refine (proj2 (returned_score_ge_initial 0 Toy.ds6 (Some Toy.rel6)
                   Demo.grid1 2 false Demo.init1
                   {| cur_params := [1%Z]; changed := [true];
                      changing_param := 0; perf := []; best_perf := MInf |}
                   "length_scale" [1; 10]%Z [] 1%Z (-80 # 4)%Q
                   _ _ Hin _ _) 5 [("length_scale", 1%Z)] (Fin (-80 # 4)) Hrun);
    [reflexivity | vm_compute; reflexivity..].
Defined.

(** C2 on an example: the third sweep on [Demo.grid3] regresses, and of the
    two recorded entries, which tie, the one returned is the older. *)
Lemma regression_stop_returns_best_entry_witness :
  init_state Demo.grid3 Demo.init3 = Ok Demo.start3 ∧
  passes Demo.cv Demo.grid3 tt 2 Demo.start3 = Some Demo.stop3 ∧
  py_any (changed Demo.stop3) = true ∧
  sweep Demo.cv Demo.grid3 tt Demo.stop3 = Ok [(3%Z, (-40 # 4)%Q)] ∧
  dict_argmax [(3%Z, (-40 # 4)%Q)] = Ok 3%Z ∧
  dict_get 3%Z [(3%Z, (-40 # 4)%Q)] = Ok (-40 # 4)%Q ∧
  fl_ltb (Fin (-40 # 4)) (best_perf Demo.stop3) = true ∧
  optimize_gp_params 5 0 Toy.ds6 (Some Toy.rel6) Demo.grid3 Demo.init3 2 false
    = Some (Ok ([("length_scale", 5); ("var", 1); ("noise", 0)]%Z,
                Fin (-4 # 4))) ∧
  ∃ best_params sc,
    optimize_gp_params (2 + 3) 0 Toy.ds6 (Some Toy.rel6) Demo.grid3 Demo.init3
      2 false =
      Some (Ok (zip (param_names Demo.grid3) best_params,
                best_perf Demo.stop3)) ∧
    dict_get best_params (perf Demo.stop3) = Ok sc ∧
    ∀ c s', dict_get c (perf Demo.stop3) = Ok s' → (s' <= sc)%Q.
Proof.
  split_and!; try (vm_compute; reflexivity).
  apply (regression_stop_returns_best_entry 0 Toy.ds6 (Some Toy.rel6)
           Demo.grid3 2 false Demo.init3 2 Demo.start3 Demo.stop3
           [(3%Z, (-40 # 4)%Q)] 3%Z (-40 # 4)%Q 2);
    vm_compute; reflexivity.
Defined.

(** C3 on an example: the first fit of the standard evaluator on the
    six-sample task asks for samples 2 and 3. *)
Lemma no_unknown_sample_reaches_predictor_witness :
  (EvFit [2; 3] ∈
     (cross_validate_gp 0 Toy.ds6 (Some Toy.rel6)
        {["length_scale" := Hyper 1%Z]} 2).1 ∨
   EvFit [2; 3] ∈
     (cross_validate_fewshot 0 Toy.ds6 (Some Toy.rel6)
        {["length_scale" := Hyper 1%Z]} 2).1) ∧
  2 ∈ asks (EvFit [2; 3]) ∧
  ∃ r, Toy.rel6 !! 2 = Some r ∧ r ≠ 0%Z.
Proof.
  assert (EvFit [2; 3] ∈
     (cross_validate_gp 0 Toy.ds6 (Some Toy.rel6)
        {["length_scale" := Hyper 1%Z]} 2).1) as Hev.
  { assert ((cross_validate_gp 0 Toy.ds6 (Some Toy.rel6)
               {["length_scale" := Hyper 1%Z]} 2).1
            = [EvFit [2; 3]; EvPredict [0; 1]; EvStore [0; 1];
               EvFit [0; 1]; EvPredict [2; 3]; EvStore [2; 3]]) as ->
      by (vm_compute; reflexivity).
    apply list_elem_of_here. }
  assert (2 ∈ asks (EvFit [2; 3])) as Hi by apply list_elem_of_here.
  split_and!; [by left | exact Hi |].
  apply (no_unknown_sample_reaches_predictor 0 Toy.ds6 Toy.rel6
           {["length_scale" := Hyper 1%Z]} 2 (EvFit [2; 3]) 2);
    [by left | exact Hi].
Defined.

(** C4 on an example: two folds over the four eligible samples. *)
Lemma pooled_scores_written_once_witness :
  splitters_partition (Externals0 := Demo.ext) ∧
  not_unnameable Toy.ds6 (Some Toy.rel6) = Ok [0; 1; 2; 3] ∧
  GaussianProcess (X_train_norm Toy.ds6) {["length_scale" := Hyper 1%Z]}
    = Ok (-20 # 1)%Q ∧
  make_folds 0 Toy.ds6 (Some Toy.rel6) [0; 1; 2; 3] 2
    = Ok [([2; 3], [0; 1]); ([0; 1], [2; 3])] ∧
  NoDup (concat [([2; 3], [0; 1]); ([0; 1], [2; 3])].*2) ∧
  (∀ j, j < 4 →
     length (filter (λ c, c = j)
       (stores [EvFit [2; 3]; EvPredict [0; 1]; EvStore [0; 1];
                EvFit [0; 1]; EvPredict [2; 3]; EvStore [2; 3]])) = 1) ∧
  ∃ preds,
    read_all [Some (-20 # 1); Some (-20 # 1); Some (-20 # 1); Some (-20 # 1)]%Q
      = Ok preds ∧
    length preds = 4.
Proof.
  assert (splitters_partition (Externals0 := Demo.ext)) as Hpart
    by apply toy_splitters_partition.
  assert (gp_folds Toy.ds6 (Some Toy.rel6) [0; 1; 2; 3] (-20 # 1)%Q
            (replicate 4 None) [([2; 3], [0; 1]); ([0; 1], [2; 3])]
          = ([EvFit [2; 3]; EvPredict [0; 1]; EvStore [0; 1];
              EvFit [0; 1]; EvPredict [2; 3]; EvStore [2; 3]],
             Ok [Some (-20 # 1); Some (-20 # 1);
                 Some (-20 # 1); Some (-20 # 1)]%Q)) as Hrun
    by (vm_compute; reflexivity).
  assert (not_unnameable Toy.ds6 (Some Toy.rel6) = Ok [0; 1; 2; 3]) as Hnn
    by (vm_compute; reflexivity).
  assert (GaussianProcess (X_train_norm Toy.ds6)
            {["length_scale" := Hyper 1%Z]} = Ok (-20 # 1)%Q) as Hgp
    by (vm_compute; reflexivity).
  assert (make_folds 0 Toy.ds6 (Some Toy.rel6) [0; 1; 2; 3] 2
          = Ok [([2; 3], [0; 1]); ([0; 1], [2; 3])]) as Hfolds
    by (vm_compute; reflexivity).
  destruct (pooled_scores_written_once 0 Toy.ds6 (Some Toy.rel6)
              {["length_scale" := Hyper 1%Z]} 2 [0; 1; 2; 3] (-20 # 1)%Q
              [([2; 3], [0; 1]); ([0; 1], [2; 3])] _ _
              Hpart Hnn Hgp Hfolds Hrun) as (Hnd & _ & Honce & Hread & _).
  split_and!; [exact Hpart | exact Hnn | exact Hgp | exact Hfolds | exact Hnd
              | exact Honce | exact Hread].
Defined.


(** C6 on an example: five folds for four eligible samples. *)
Lemma too_few_eligible_samples_is_an_error_witness :
  splitters_refuse (Externals0 := Demo.ext) ∧
  not_unnameable Toy.ds6 (Some Toy.rel6) = Ok [0; 1; 2; 3] ∧
  (length [0; 1; 2; 3] = 0 ∨ length [0; 1; 2; 3] < 5 ∨ 5 < 2) ∧
  (∃ e, cross_validate_gp 0 Toy.ds6 (Some Toy.rel6)
          {["length_scale" := Hyper 1%Z]} 5 = ([], Err e)) ∧
  (∃ e, cross_validate_fewshot 0 Toy.ds6 (Some Toy.rel6)
          {["length_scale" := Hyper 1%Z]} 5 = ([], Err e)) ∧
  (∃ e, optimize_gp_params 3 0 Toy.ds6 (Some Toy.rel6) Demo.grid1 Demo.init1
          5 false = Some (Err e)).
Proof.
  pose proof (toy_splitters_refuse Demo.quality) as Hsp.
  assert (not_unnameable Toy.ds6 (Some Toy.rel6) = Ok [0; 1; 2; 3]) as Hnn
    by (vm_compute; reflexivity).
  assert (length [0; 1; 2; 3] = 0 ∨ length [0; 1; 2; 3] < 5 ∨ 5 < 2) as Hfew
    by (right; left; simpl; lia).
  split_and!; [exact Hsp | exact Hnn | exact Hfew | | |];
    apply (too_few_eligible_samples_is_an_error 0 Toy.ds6 (Some Toy.rel6) 5
             [0; 1; 2; 3] {["length_scale" := Hyper 1%Z]} Demo.grid1
             Demo.init1 false 2 Hsp Hnn Hfew).
Defined.

(** C7 on an example: the states 0 and 3 of the global generator, which
    give different folds to a splitter without a seed. *)
Lemma seeded_runs_agree_witness :
  splitters_seeded (Externals0 := Demo.ext) ∧
  split (2, None) 0 [0; 1; 2; 3]%Z None ≠ split (2, None) 3 [0; 1; 2; 3]%Z None ∧
  optimize_gp_params 6 0 Toy.ds6 (Some Toy.rel6) Demo.grid2 Demo.init2 2 false
  = optimize_gp_params 6 3 Toy.ds6 (Some Toy.rel6) Demo.grid2 Demo.init2 2 false.
Proof.
  pose proof (toy_splitters_seeded Demo.quality) as Hseed.
  split_and!; [exact Hseed | vm_compute; discriminate |].
  apply (seeded_runs_agree 6 0 3 Toy.ds6 (Some Toy.rel6) Demo.grid2 Demo.init2
           2 false Hseed).
Defined.

(** C8 on an example: 4 and 6 tie on the first axis and 4, listed first,
    is selected and is the value with which the pass ends. *)
Lemma sweep_picks_first_maximum_witness :
  init_state Demo.grid2 Demo.init2 = Ok Demo.start2 ∧
  passes Demo.cv Demo.grid2 tt 0 Demo.start2 = Some Demo.start2 ∧
  sweep Demo.cv Demo.grid2 tt Demo.start2
    = Ok [(1, -68 # 4); (10, -104 # 4); (4, -8 # 4); (6, -8 # 4)]%Z%Q ∧
  candidates Demo.grid2 Demo.start2 = Ok [1; 10; 4; 6]%Z ∧
  [1; 10; 4; 6]%Z ≠ [] ∧
  dict_argmax [(1, -68 # 4); (10, -104 # 4); (4, -8 # 4); (6, -8 # 4)]%Z%Q
    = Ok 4%Z ∧
  first_max (score_at Demo.cv Demo.grid2 tt 0 [4; 1]%Z) [1; 10; 4; 6]%Z 4%Z ∧
  ∃ o, step Demo.cv Demo.grid2 tt Demo.start2 = Ok o ∧
       cur_params (state_of o) = [4; 1]%Z ∧
       best_perf (state_of o) = Fin (-8 # 4).
Proof.
  assert (init_state Demo.grid2 Demo.init2 = Ok Demo.start2) as Hinit
    by (vm_compute; reflexivity).
  assert (passes Demo.cv Demo.grid2 tt 0 Demo.start2 = Some Demo.start2)
    as Hpasses by reflexivity.
  assert (sweep Demo.cv Demo.grid2 tt Demo.start2
    = Ok [(1, -68 # 4); (10, -104 # 4); (4, -8 # 4); (6, -8 # 4)]%Z%Q) as Hsw
    by (vm_compute; reflexivity).
  assert (candidates Demo.grid2 Demo.start2 = Ok [1; 10; 4; 6]%Z) as Hc
    by (vm_compute; reflexivity).
  assert ([1; 10; 4; 6]%Z ≠ []) as Hne by discriminate.
  split_and!; [exact Hinit | exact Hpasses | exact Hsw | exact Hc
              | exact Hne | ..].
  all: destruct (sweep_picks_first_maximum Demo.cv Demo.grid2 tt Demo.init2
                   Demo.start2 0 Demo.start2 _ _ Hinit Hpasses Hsw Hc Hne)
         as (b & s & o & Hb & Hfm & Hs & Hstep & Hcase).
  all: assert (b = 4%Z) as ->
         by (vm_compute in Hb; injection Hb as <-; reflexivity).
  - exact Hb.
  - exact Hfm.
  - assert (s = (-8 # 4)%Q) as ->
      by (vm_compute in Hs; injection Hs as <-; reflexivity).
    exists o. split; [exact Hstep|].
    destruct Hcase as [[Hlt _]|(_ & Hcur & Hbest & _)]; [discriminate Hlt|].
    split; [exact Hcur | exact Hbest].
Defined.

(** C9 on an example: the first two passes on [Demo.grid2]. *)
Lemma best_perf_nondecreasing_witness :
  passes Demo.cv Demo.grid2 tt 1 Demo.start2 = Some Demo.after2 ∧
  (∃ o, step Demo.cv Demo.grid2 tt Demo.after2 = Ok o ∧
    fl_le (best_perf Demo.start2) (best_perf Demo.after2) ∧
    fl_le (best_perf Demo.after2) (best_perf (state_of o))).
Proof.
  assert (passes Demo.cv Demo.grid2 tt 1 Demo.start2 = Some Demo.after2) as Hp
    by (vm_compute; reflexivity).
  split; [exact Hp|].
  destruct (step Demo.cv Demo.grid2 tt Demo.after2) as [o|e] eqn:Hstep;
    [|vm_compute in Hstep; discriminate].
  exists o. split; [reflexivity|].
  destruct (best_perf_nondecreasing Demo.cv Demo.grid2 tt 1 _ _ o Hp Hstep)
    as (H1 & H2 & _).
  split; [exact H1 | exact H2].
Defined.

(** C10 on an example: an [init] with and without a value for "var", a
    name that [Demo.grid1] does not have. *)
Lemma init_read_only_at_grid_names_witness :
  (∀ p, p ∈ param_names Demo.grid1 →
     Demo.init1 !! p = (<["var" := 9%Z]> Demo.init1) !! p) ∧
  optimize_gp_params 5 0 Toy.ds6 (Some Toy.rel6) Demo.grid1 Demo.init1 2 false
  = optimize_gp_params 5 0 Toy.ds6 (Some Toy.rel6) Demo.grid1
      (<["var" := 9%Z]> Demo.init1) 2 false.
Proof.
  assert (∀ p, p ∈ param_names Demo.grid1 →
     Demo.init1 !! p = (<["var" := 9%Z]> Demo.init1) !! p) as Hagree.
  { intros p Hp. apply list_elem_of_singleton in Hp as ->.
    vm_compute. reflexivity. }
  split; [exact Hagree|].
  apply (init_read_only_at_grid_names 5 0 Toy.ds6 (Some Toy.rel6) Demo.grid1
           Demo.init1 (<["var" := 9%Z]> Demo.init1) 2 false Hagree).
Defined.

(** * Part V: further properties of the search *)

Section LoopInvariant.
Context {V pdist_t : Type} `{EqDecision V}.
Variable cv : gmap string (kwarg V pdist_t) → result Q.
Variable grid : list (string * list V).
Variable pdist : pdist_t.

Implicit Types (st : opt_state V).

(** A property of the loop variables that every adoption of a value
    keeps. *)
Variable P : opt_state V → Prop.
Hypothesis P_adopted : ∀ st st' vals best s,
  inv cv grid pdist st → P st →
  candidates grid st = Ok vals →
  first_max (score_at cv grid pdist (changing_param st) (cur_params st))
    vals best →
  score_at cv grid pdist (changing_param st) (cur_params st) best = Ok s →
  fl_ltb (Fin s) (best_perf st) = false →
  adopted grid st best s st' →
  P st'.

Lemma step_invariant st o :
  inv cv grid pdist st → P st →
  step cv grid pdist st = Ok o → P (state_of o).
Proof.
  intros Hinv HP Hstep.
  apply step_inv in Hstep as (vals & b & s & Hc & Hfm & Hs & Hcase).
  destruct Hcase as [[_ ->]|(Hcmp & st' & Had & ->)]; [done|].
  assert (P st') by by eapply P_adopted.
  by case_decide.
Qed.

Lemma loop_invariant fuel : ∀ st st_end,
  inv cv grid pdist st → P st →
  loop cv grid pdist fuel st = Some (Ok st_end) → P st_end.
Proof.
  induction fuel as [|fuel IH]; intros st st_end Hinv HP; simpl.
  - destruct (py_any (changed st)); [done|]. by intros [= <-].
  - destruct (py_any (changed st)); [|by intros [= <-]].
    destruct (step cv grid pdist st) as [[st'|st']|e] eqn:Hstep; [| |done].
    + apply IH.
      * apply (step_state_inv _ _ _ _ _ Hinv Hstep).
      * apply (step_invariant _ _ Hinv HP Hstep).
    + intros [= <-]. apply (step_invariant _ _ Hinv HP Hstep).
Qed.
End LoopInvariant.

Lemma for_each_Err {A B} (f : A → result B) xs e :
  for_each f xs = Err e → ∃ x, x ∈ xs ∧ f x = Err e.
Proof.
  induction xs as [|x xs IH]; simpl; [done|].
  destruct (f x) as [y|e'] eqn:Hx; simpl.
  - destruct (for_each f xs) as [ys|e'']; simpl; [done|].
    intros [= ->]. destruct IH as (x' & Hin & Hx'); [done|].
    exists x'. split; [by right | done].
  - intros [= ->]. exists x. split; [by left | done].
Qed.

Lemma for_each_total {A B} (f : A → result B) xs :
  (∀ x, x ∈ xs → ∃ y, f x = Ok y) → ∃ ys, for_each f xs = Ok ys.
Proof.
  induction xs as [|x xs IH]; intros Hall; simpl; [by eexists|].
  destruct (Hall x) as (y & ->); [by left|]. simpl.
  destruct IH as (ys & ->); [intros x' Hx'; apply Hall; by right|].
  by eexists.
Qed.

Lemma fl_le_Fin_l s x : fl_le (Fin s) x → x ≠ PInf → ∃ s', x = Fin s'.
Proof. destruct x; [done | by eexists | done]. Qed.

Section SearchFurther.
Context {V pdist_t : Type} `{EqDecision V}.
Variable cv : gmap string (kwarg V pdist_t) → result Q.
Variable grid : list (string * list V).
Variable pdist : pdist_t.

Implicit Types (st : opt_state V) (val : V) (cur c : list V).
Implicit Types (init : gmap string V).

Local Abbreviation names := (param_names grid).

Lemma init_state_Ok init st0 :
  init_state grid init = Ok st0 →
  Forall2 (λ p v, init !! p = Some v) names (cur_params st0) ∧
  changed st0 = replicate (length names) true ∧
  changing_param st0 = 0 ∧ perf st0 = [] ∧ best_perf st0 = MInf.
Proof.
  unfold init_state. intros H. apply bind_Ok in H as (cur & Hcur & [= <-]).
  simpl. split; [|done]. apply for_each_Ok in Hcur.
  eapply Forall2_impl; [done|]. intros p v. simpl.
  by destruct (init !! p); intros [= ->].
Qed.

Lemma init_state_total init :
  (∀ p, p ∈ names → is_Some (init !! p)) → ∃ st0, init_state grid init = Ok st0.
Proof.
  intros Hall. unfold init_state.
  destruct (for_each_total (λ p, match init !! p with
                                 | Some v => Ok v
                                 | None => Err KeyError
                                 end) names) as (cur & ->); [|by eexists].
  intros p [v ->]%Hall. by eexists.
Qed.

Lemma init_state_missing init p :
  p ∈ names → init !! p = None → init_state grid init = Err KeyError.
Proof.
  intros Hp Hnone. unfold init_state.
  destruct (for_each _ names) as [cur|e] eqn:Hcur; simpl.
  - apply for_each_Ok in Hcur.
    apply list_elem_of_lookup in Hp as [i Hi].
    destruct (Forall2_lookup_l _ _ _ _ _ Hcur Hi) as (v & _ & Hv).
    by rewrite Hnone in Hv.
  - apply for_each_Err in Hcur as (q & _ & Hq).
    by destruct (init !! q); simplify_eq.
Qed.

Lemma sweep_from_Err a cur vals : ∀ d0 e,
  length cur = length names →
  sweep_from cv grid pdist a cur d0 vals = Err e →
  ∃ c, length c = length names ∧ config_score cv grid pdist c = Err e.
Proof.
  induction vals as [|val vals IH]; intros d0 e Hlen; simpl; [done|].
  rewrite cv_params_of_config by done. simpl.
  destruct (cv _) as [s|e'] eqn:Hcv; simpl; [by apply IH|].
  intros [= ->]. exists (<[a := val]> cur). by rewrite length_insert.
Qed.

Lemma sweep_argmax_total st cur_perfs vals :
  sweep cv grid pdist st = Ok cur_perfs →
  candidates grid st = Ok vals → vals ≠ [] →
  ∃ best_val, dict_argmax cur_perfs = Ok best_val.
Proof.
  intros Hsw Hc Hne. apply py_max_total; [|intros x; apply dict_get_key].
  unfold sweep in Hsw. apply bind_Ok in Hsw as (name & Hname & Hsw).
  apply bind_Ok in Hsw as (vals' & Hvals & Hsw).
  unfold candidates in Hc. rewrite Hname in Hc. simpl in Hc.
  replace vals' with vals in * by congruence.
  apply sweep_from_spec in Hsw as (Hkeys & _); [|done].
  rewrite Hkeys. destruct vals as [|v vals]; [done|].
  intros Hnil. assert (v ∈ seen [] (v :: vals)) as Hv.
  { apply seen_elem. right. by left. }
  simpl in Hnil, Hv. rewrite Hnil in Hv. by apply elem_of_nil in Hv.
Qed.

Lemma candidates_total st :
  changing_param st < length names →
  ∃ name vals, names !! changing_param st = Some name ∧
               candidates grid st = Ok vals ∧ (name, vals) ∈ grid.
Proof.
  intros Ha. destruct (lookup_lt_is_Some_2 _ _ Ha) as [name Hname].
  destruct (dict_get_key name grid) as (vals & Hvals).
  { by eapply list_elem_of_lookup_2. }
  exists name, vals. split_and!; [done| |by apply dict_get_Ok_elem].
  unfold candidates, getitem. by rewrite Hname.
Qed.

(** On a grid whose axes all have candidates, a pass raises only what the
    evaluator raises. *)
Lemma step_Err st e :
  (∀ p vals, (p, vals) ∈ grid → vals ≠ []) →
  0 < length names →
  inv cv grid pdist st →
  step cv grid pdist st = Err e →
  ∃ c, length c = length names ∧ config_score cv grid pdist c = Err e.
Proof.
  intros Hwf Hn Hinv Hstep.
  pose proof (inv_axis _ _ _ _ Hinv Hn) as Ha.
  destruct (candidates_total st Ha) as (name & vals & Hname & Hc & Hin).
  destruct (sweep cv grid pdist st) as [cur_perfs|e'] eqn:Hsw.
  - exfalso.
    destruct (sweep_argmax_total _ _ _ Hsw Hc) as (b & Hb); [by eapply Hwf|].
    destruct (sweep_argmax _ _ _ _ _ _ Hsw Hb) as (_ & s & _ & _ & Hget & _).
    destruct (lookup_lt_is_Some_2 (cur_params st) (changing_param st))
      as [old Hold]; [by rewrite (inv_cur _ _ _ _ Hinv)|].
    assert (∃ o, step cv grid pdist st = Ok o) as [o Ho]; [|congruence].
    unfold step. rewrite Hsw. cbn [bind]. rewrite Hb. cbn [bind].
    rewrite Hget. cbn [bind].
    destruct (fl_ltb (Fin s) (best_perf st)); [by eexists|].
    unfold getitem, setitem. rewrite Hold. cbn [bind].
    rewrite decide_True by by rewrite (inv_changed _ _ _ _ Hinv).
    cbn [bind].
    rewrite decide_True by by rewrite (inv_cur _ _ _ _ Hinv).
    cbn [bind]. rewrite decide_False by lia. case_decide; by eexists.
  - unfold step in Hstep. rewrite Hsw in Hstep.
    simpl in Hstep. injection Hstep as ->.
    unfold sweep, candidates in *.
    destruct (getitem names (changing_param st)) as [nm|]; [|done].
    simpl in *. rewrite Hc in Hsw. simpl in Hsw.
    eapply sweep_from_Err; [apply Hinv | done].
Qed.

Lemma loop_Err fuel : ∀ st e,
  inv cv grid pdist st →
  loop cv grid pdist fuel st = Some (Err e) →
  ∃ st', inv cv grid pdist st' ∧ step cv grid pdist st' = Err e.
Proof.
  induction fuel as [|fuel IH]; intros st e Hinv; simpl.
  - by destruct (py_any (changed st)).
  - destruct (py_any (changed st)); [|done].
    destruct (step cv grid pdist st) as [[st'|st']|e'] eqn:Hstep; [|done|].
    + apply IH. apply (step_state_inv _ _ _ _ _ Hinv Hstep).
    + intros [= ->]. by exists st.
Qed.

(** After at least one pass, [best_perf] is a score. *)
Lemma loop_end_scored init st0 fuel st_end :
  0 < length names →
  init_state grid init = Ok st0 →
  loop cv grid pdist fuel st0 = Some (Ok st_end) →
  ∃ s, best_perf st_end = Fin s.
Proof.
  intros Hn Hinit Hloop.
  pose proof (init_state_inv cv grid pdist _ _ Hinit) as Hinv0.
  pose proof (loop_inv _ _ _ _ _ _ Hinv0 Hloop) as Hinv_end.
  destruct (init_state_Ok _ _ Hinit) as (_ & Hch & _ & _ & Hb0).
  assert (py_any (changed st0) = true) as Hany0.
  { rewrite Hch. by apply py_any_replicate. }
  assert (∀ o, step cv grid pdist st0 = Ok o →
               ∃ s, best_perf (state_of o) = Fin s) as Hfirst.
  { intros o Hstep.
    apply step_inv in Hstep as (vals & b & s & _ & _ & _ & Hcase).
    destruct Hcase as [[Hcmp _]|(_ & st1 & Had & ->)].
    { by rewrite Hb0 in Hcmp. }
    destruct Had as (old & _ & _ & _ & _ & _ & _ & _ & Hbest).
    exists s. by case_decide. }
  apply loop_Ok in Hloop as (k & st_last & Hp & Hend).
  destruct k as [|k].
  - injection Hp as <-. destruct Hend as [[Hno _]|[_ Hstep]].
    { by rewrite Hany0 in Hno. }
    apply (Hfirst _ Hstep).
  - apply passes_S in Hp as (_ & st1 & Hstep & Hp).
    destruct (Hfirst _ Hstep) as (s1 & Hs1). simpl in Hs1.
    apply fl_le_Fin_l with s1; [|apply Hinv_end].
    rewrite <-Hs1. eapply fl_le_trans; [by eapply passes_best_perf|].
    destruct Hend as [[_ ->]|[_ Hbreak]]; [apply fl_le_refl|].
    apply (step_best_perf _ _ _ _ _ Hbreak).
Qed.

Lemma search_Err init retrieval fuel e :
  well_formed grid init →
  search cv grid pdist fuel init retrieval = Some (Err e) →
  ∃ c, length c = length names ∧ config_score cv grid pdist c = Err e.
Proof.
  intros [Hne Hwf] Hsearch. unfold search in Hsearch.
  assert (0 < length names) as Hn.
  { unfold param_names, dict_keys. rewrite length_fmap.
    destruct grid; [done | simpl; lia]. }
  destruct (init_state_total init) as (st0 & Hinit).
  { intros p (pv & -> & Hin)%list_elem_of_fmap. destruct pv as [p vals].
    by apply (Hwf p vals). }
  rewrite Hinit in Hsearch.
  pose proof (init_state_inv cv grid pdist _ _ Hinit) as Hinv0.
  destruct (loop cv grid pdist fuel st0) as [[st_end|e']|] eqn:Hloop; [| |done].
  - exfalso.
    destruct (loop_end_scored _ _ _ _ Hn Hinit Hloop) as (s & Hs).
    pose proof (loop_inv _ _ _ _ _ _ Hinv0 Hloop) as Hinv_end.
    destruct (inv_best _ _ _ _ Hinv_end s Hs) as [Hcur _].
    destruct (py_max_total (λ k, dict_get k (perf st_end))
                (dict_keys (perf st_end))) as (bp & Hbp).
    + apply dict_get_Ok_key in Hcur. intros Hnil. rewrite Hnil in Hcur.
      by apply elem_of_nil in Hcur.
    + intros x. apply dict_get_key.
    + unfold finish, dict_argmax in Hsearch. by rewrite Hbp in Hsearch.
  - injection Hsearch as ->.
    apply loop_Err in Hloop as (st' & Hinv' & Hstep); [|done].
    apply (step_Err st' e); [|done..].
    intros p vals Hin. by apply (Hwf p vals).
Qed.

Lemma search_one_param p vals init retrieval fuel :
  grid = [(p, vals)] →
  search cv grid pdist (S fuel) init retrieval
  = search cv grid pdist 1 init retrieval.
Proof.
  intros Hgrid. unfold search.
  destruct (init_state grid init) as [st0|] eqn:Hinit; [|done].
  assert (loop cv grid pdist (S fuel) st0 = loop cv grid pdist 1 st0) as ->;
    [|done].
  simpl. destruct (py_any (changed st0)); [|done].
  destruct (step cv grid pdist st0) as [[st'|st']|e] eqn:Hstep; [|done..].
  exfalso. apply step_inv in Hstep as (? & ? & ? & _ & _ & _ & Hcase).
  destruct Hcase as [[_ [=]]|(_ & st1 & _ & Ho)].
  rewrite decide_True in Ho; [done|]. rewrite Hgrid. simpl. lia.
Qed.
End SearchFurther.

Section Recorded.
Context {V pdist_t : Type} `{EqDecision V}.
Variable cv : gmap string (kwarg V pdist_t) → result Q.
Variable grid : list (string * list V).
Variable pdist : pdist_t.

Implicit Types (st : opt_state V) (val : V) (cur c : list V).
Implicit Types (init : gmap string V).

Local Abbreviation names := (param_names grid).
Local Abbreviation n := (length (param_names grid)).

Lemma init_in_space init st0 :
  init_state grid init = Ok st0 → in_space grid (cur_params st0) st0.
Proof.
  intros Hinit.
  pose proof (init_state_inv cv grid pdist _ _ Hinit) as Hinv.
  unfold in_space. apply Forall2_same_length_lookup_2.
  { rewrite length_zip_with. unfold axes.
    rewrite length_fmap, length_seq, (inv_cur _ _ _ _ Hinv). lia. }
  intros i v l Hv Hl.
  apply lookup_zip_with_Some in Hl as (v' & L & -> & Hv' & _).
  replace v' with v by congruence. by left.
Qed.

Lemma recorded_ok_adopted cur0 st st' vals best s :
  length cur0 = n →
  inv cv grid pdist st → recorded_ok cv grid pdist cur0 st →
  candidates grid st = Ok vals →
  first_max (score_at cv grid pdist (changing_param st) (cur_params st))
    vals best →
  score_at cv grid pdist (changing_param st) (cur_params st) best = Ok s →
  fl_ltb (Fin s) (best_perf st) = false →
  adopted grid st best s st' →
  recorded_ok cv grid pdist cur0 st'.
Proof.
  intros Hlen0 Hinv [Hin Hrec] Hc Hfm Hs _ Had.
  destruct Had as (old & Hold & Ha & Hn & Hcur & Hch & Hax & Hperf & Hbest).
  assert (changing_param st < n) as Han by (apply Hinv; lia).
  apply candidates_axis in Hc.
  pose proof (first_max_elem _ _ _ Hfm) as Hbv. rewrite Hc in Hbv.
  assert (in_space grid cur0 st') as Hin'.
  { unfold in_space. rewrite Hcur. by apply in_space_insert. }
  split; [done|]. intros c s'. rewrite Hperf.
  destruct (decide (c = cur_params st')) as [->|Hne].
  - rewrite dict_get_set_eq. intros [= <-].
    split; [by apply elem_of_list_prod|].
    rewrite Hcur, <-score_at_config; [done | apply Hinv].
  - rewrite dict_get_set_ne by done. apply Hrec.
Qed.

Lemma loop_recorded_ok init st0 fuel st_end :
  init_state grid init = Ok st0 →
  loop cv grid pdist fuel st0 = Some (Ok st_end) →
  recorded_ok cv grid pdist (cur_params st0) st_end.
Proof.
  intros Hinit Hloop.
  pose proof (init_state_inv cv grid pdist _ _ Hinit) as Hinv.
  apply (loop_invariant cv grid pdist
           (recorded_ok cv grid pdist (cur_params st0))) with fuel st0;
    [|done| |done].
  - intros st st' vals best s. apply recorded_ok_adopted. apply Hinv.
  - split; [by eapply init_in_space|].
    destruct (init_state_Ok _ _ _ Hinit) as (_ & _ & _ & -> & _). done.
Qed.

Lemma since_lt a i : a < n → i < n → since grid a i < n.
Proof. intros. unfold since. case_decide; lia. Qed.

Lemma since_next a i :
  a < n → i < n →
  since grid ((a + 1) mod n) i = if decide (i = a) then 0 else S (since grid a i).
Proof.
  intros Ha Hi. unfold since.
  destruct (decide (a + 1 = n)) as [Heq|Hne].
  - rewrite Heq, Nat.Div0.mod_same. repeat case_decide; lia.
  - rewrite Nat.mod_small by lia. repeat case_decide; lia.
Qed.

Lemma py_any_lookup (bs : list bool) i :
  bs !! i = Some true → py_any bs = true.
Proof.
  revert i. induction bs as [|b bs IH]; intros [|i]; simpl; try done.
  - by intros [= ->].
  - intros Hi. rewrite (IH _ Hi). apply orb_true_r.
Qed.

Lemma settled_adopted st st' vals best s :
  inv cv grid pdist st → settled cv grid pdist st →
  candidates grid st = Ok vals →
  first_max (score_at cv grid pdist (changing_param st) (cur_params st))
    vals best →
  score_at cv grid pdist (changing_param st) (cur_params st) best = Ok s →
  fl_ltb (Fin s) (best_perf st) = false →
  adopted grid st best s st' →
  settled cv grid pdist st'.
Proof.
  intros Hinv (u & Hu & Hmax & Hflag) Hc Hfm _ _ Had.
  destruct Had as (old & Hold & Ha & Hn & Hcur & Hch & Hax & _ & _).
  assert (changing_param st < n) as Han by (apply Hinv; lia).
  apply candidates_axis in Hc. unfold settled. rewrite Hax, Hcur, Hch.
  destruct (decide (best = old)) as [->|Hne].
  - rewrite list_insert_id by done.
    destruct (decide (u < n)) as [Hlt|Hge].
    + exists (S u). split_and!; [lia| |].
      * intros i Hi. rewrite since_next by done.
        destruct (decide (i = changing_param st)) as [->|Hia].
        -- intros _. exists old. by rewrite <-Hc.
        -- intros Hs. apply Hmax; [done|lia].
      * intros HSu. destruct Hflag as (i & Hi & Hsi & Hci); [done|].
        assert (i ≠ changing_param st) as Hia.
        { intros ->. unfold since in Hsi. case_decide; lia. }
        exists i. split_and!; [done| |].
        -- rewrite since_next by done. rewrite decide_False by done. lia.
        -- by rewrite list_lookup_insert_ne.
    + exists u. split_and!; [done| |lia].
      intros i Hi _. apply Hmax; [done|].
      pose proof (since_lt _ i Han Hi). lia.
  - exists 0. split_and!; [lia| |].
    + intros i _ Hs. lia.
    + intros _. exists (changing_param st). split_and!; [done| |].
      * rewrite since_next by done. by rewrite decide_True.
      * rewrite list_lookup_insert_eq by done.
        by rewrite bool_decide_eq_true_2.
Qed.

Lemma loop_settled init st0 fuel st_end :
  init_state grid init = Ok st0 →
  loop cv grid pdist fuel st0 = Some (Ok st_end) →
  settled cv grid pdist st_end.
Proof.
  intros Hinit Hloop.
  pose proof (init_state_inv cv grid pdist _ _ Hinit) as Hinv.
  apply (loop_invariant cv grid pdist (settled cv grid pdist)) with fuel st0;
    [|done| |done].
  - intros st st' vals best s. apply settled_adopted.
  - destruct (init_state_Ok _ _ _ Hinit) as (_ & Hch & Ha & _ & _).
    exists 0. split_and!; [lia| |].
    + intros i _ Hs. lia.
    + intros Hn. exists (n - 1). rewrite Ha, Hch. split_and!; [lia| |].
      * unfold since. case_decide; lia.
      * apply lookup_replicate_2. lia.
Qed.

(** When the loop ends with every flag cleared, each axis is at the first
    of its best candidates. *)
Lemma loop_converged init st0 fuel st_end i :
  init_state grid init = Ok st0 →
  loop cv grid pdist fuel st0 = Some (Ok st_end) →
  py_any (changed st_end) = false →
  i < n → axis_max cv grid pdist (cur_params st_end) i.
Proof.
  intros Hinit Hloop Hany Hi.
  pose proof (init_state_inv cv grid pdist _ _ Hinit) as Hinv0.
  pose proof (loop_inv _ _ _ _ _ _ Hinv0 Hloop) as Hinv.
  destruct (loop_settled _ _ _ _ Hinit Hloop) as (u & Hu & Hmax & Hflag).
  destruct (decide (u < n)) as [Hlt|Hge].
  { destruct (Hflag Hlt) as (j & _ & _ & Hj).
    apply py_any_lookup in Hj. congruence. }
  apply Hmax; [done|].
  assert (changing_param st_end < n) by (apply Hinv; lia).
  pose proof (since_lt (changing_param st_end) i). lia.
Qed.
End Recorded.

Section SearchResult.
Context {V pdist_t : Type} `{EqDecision V}.
Variable cv : gmap string (kwarg V pdist_t) → result Q.
Variable grid : list (string * list V).
Variable pdist : pdist_t.

Implicit Types (st : opt_state V) (val : V) (cur c : list V).
Implicit Types (init : gmap string V).

Local Abbreviation names := (param_names grid).
Local Abbreviation n := (length (param_names grid)).

Lemma names_pos : grid ≠ [] → 0 < n.
Proof.
  unfold param_names, dict_keys. rewrite length_fmap.
  destruct grid; [done | simpl; lia].
Qed.

(** There is an amount of fuel from which on the search gives one and the
    same outcome. *)
Lemma search_ends init retrieval :
  ∃ fuel r, ∀ extra,
    search cv grid pdist (fuel + extra) init retrieval = Some r.
Proof.
  destruct (search_terminates cv grid pdist init retrieval) as (fuel & r & Hr).
  exists fuel, r. intros extra. by apply search_fuel_mono.
Qed.

(** What [search] returns: the first key of [perf] among those with the
    greatest score, and the last [best_perf]. *)
Lemma search_Ok init retrieval fuel cfg sc :
  search cv grid pdist fuel init retrieval = Some (Ok (cfg, sc)) →
  ∃ st0 st_end c k s,
    init_state grid init = Ok st0 ∧
    loop cv grid pdist fuel st0 = Some (Ok st_end) ∧
    cfg = zip names c ∧
    dict_get c (perf st_end) = Ok k ∧
    best_perf st_end = Fin s ∧ (k == s)%Q ∧
    sc = (if retrieval then Fin s else Fin (- s)).
Proof.
  unfold search. intros Hsearch.
  destruct (init_state grid init) as [st0|e] eqn:Hinit; [|done].
  destruct (loop cv grid pdist fuel st0) as [[st_end|e]|] eqn:Hloop; [|done..].
  pose proof (init_state_inv cv grid pdist _ _ Hinit) as Hinv0.
  pose proof (loop_inv _ _ _ _ _ _ Hinv0 Hloop) as Hinv.
  unfold finish in Hsearch.
  destruct (dict_argmax (perf st_end)) as [c|e] eqn:Hmax; [|done].
  simpl in Hsearch. injection Hsearch as <- <-.
  apply py_max_spec in Hmax.
  pose proof (first_max_elem _ _ _ Hmax) as Hc.
  apply dict_get_key in Hc as (k & Hk).
  pose proof (inv_hist _ _ _ _ Hinv _ _ Hk) as Hle.
  destruct (fl_le_Fin_l _ _ Hle (inv_finite _ _ _ _ Hinv)) as (s & Hs).
  destruct (inv_best _ _ _ _ Hinv _ Hs) as (Hcur & _).
  destruct (first_max_ge _ _ _ (cur_params st_end) Hmax) as (kx & kb & Hkx & Hkb & Hge).
  { by eapply dict_get_Ok_key. }
  exists st0, st_end, c, k, s. split_and!; try done.
  - rewrite Hs in Hle. apply fl_le_Fin in Hle.
    replace kx with s in Hge by congruence.
    replace kb with k in Hge by congruence.
    by apply Qle_antisym.
  - rewrite Hs. by destruct retrieval.
Qed.

(** The configuration returned has the names of the grid, in their order;
    the value of each is its initial value or one of its candidates; and the
    score returned is the one the evaluator gives this configuration. *)
Lemma search_Ok_config init retrieval fuel cfg sc :
  search cv grid pdist fuel init retrieval = Some (Ok (cfg, sc)) →
  cfg.*1 = names ∧
  (∀ p v, (p, v) ∈ cfg →
     init !! p = Some v ∨ ∃ vals, dict_get p grid = Ok vals ∧ v ∈ vals) ∧
  ∃ k s, config_score cv grid pdist cfg.*2 = Ok k ∧ (k == s)%Q ∧
         sc = (if retrieval then Fin s else Fin (- s)).
Proof.
  intros Hsearch.
  apply search_Ok in Hsearch
    as (st0 & st_end & c & k & s & Hinit & Hloop & -> & Hk & Hs & Hks & ->).
  pose proof (init_state_inv cv grid pdist _ _ Hinit) as Hinv0.
  destruct (loop_recorded_ok _ _ _ _ _ _ _ Hinit Hloop) as [_ Hrec].
  destruct (Hrec _ _ Hk) as (Hc & Hsc).
  apply elem_of_list_prod in Hc.
  assert (length c = n) as Hlen.
  { rewrite (Forall2_length _ _ _ Hc), length_zip_with. unfold axes.
    rewrite length_fmap, length_seq, (inv_cur _ _ _ _ Hinv0). lia. }
  split_and!.
  - rewrite fst_zip; [done|lia].
  - intros p v (i & Hi)%list_elem_of_lookup.
    apply lookup_zip_with_Some in Hi as (p' & v' & [= <- <-] & Hp & Hv).
    destruct (Forall2_lookup_l _ _ _ _ _ Hc Hv) as (l & Hl & Hin).
    apply lookup_zip_with_Some in Hl as (v0 & L & -> & Hv0 & HL).
    destruct (init_state_Ok _ _ _ Hinit) as (Hcur0 & _).
    apply elem_of_cons in Hin as [->|Hin].
    + left. destruct (Forall2_lookup_r _ _ _ _ _ Hcur0 Hv0) as (p' & Hp' & Hv').
      by replace p with p' by congruence.
    + right. assert (i < n) as Hi by (by eapply lookup_lt_Some).
      rewrite axes_lookup in HL by done. injection HL as <-.
      unfold axis_vals, getitem in Hin. rewrite Hp in Hin. simpl in Hin.
      destruct (dict_get p grid) as [vals|e]; [by exists vals|].
      by apply elem_of_nil in Hin.
  - exists k, s. split_and!; [|done..].
    rewrite snd_zip; [done|lia].
Qed.

(** A grid with one parameter is swept once: the result is the first of
    the best candidates, with its score. *)
Lemma search_one_param_result p vals init retrieval :
  grid = [(p, vals)] →
  (∃ r, search cv grid pdist 1 init retrieval = Some r) ∧
  ∀ cfg sc,
    search cv grid pdist 1 init retrieval = Some (Ok (cfg, sc)) →
    ∃ best s,
      cfg = [(p, best)] ∧
      first_max (λ v, cv (<["pdist" := Pdist pdist]> {[p := Hyper v]}))
        vals best ∧
      cv (<["pdist" := Pdist pdist]> {[p := Hyper best]}) = Ok s ∧
      sc = (if retrieval then Fin s else Fin (- s)).
Proof.
  intros Hgrid.
  assert (names = [p]) as Hnames by (by rewrite Hgrid).
  assert (∀ v, config_score cv grid pdist [v]
               = cv (<["pdist" := Pdist pdist]> {[p := Hyper v]})) as Hcfg.
  { intros v. unfold config_score, params_of_config. rewrite Hnames. simpl.
    by rewrite insert_empty. }
  split.
  - unfold search. destruct (init_state grid init) as [st0|e]; [|by eexists].
    simpl. destruct (py_any (changed st0)); [|by eexists].
    destruct (step cv grid pdist st0) as [[st'|st']|e] eqn:Hstep;
      [|by eexists..].
    exfalso. apply step_inv in Hstep as (? & ? & ? & _ & _ & _ & Hcase).
    rewrite Hnames in Hcase. simpl in Hcase.
    destruct Hcase as [[_ ?]|(_ & ? & _ & ?)]; done.
  - intros cfg sc Hsearch. unfold search in Hsearch.
    destruct (init_state grid init) as [st0|e] eqn:Hinit; [|done].
    pose proof (init_state_inv cv grid pdist _ _ Hinit) as Hinv0.
    destruct (init_state_Ok _ _ _ Hinit) as (_ & Hch & Ha & Hperf & Hb0).
    simpl in Hsearch. rewrite Hch, Hnames in Hsearch. simpl in Hsearch.
    destruct (step cv grid pdist st0) as [[st'|st']|e] eqn:Hstep; [|  |done].
    { apply step_inv in Hstep as (? & ? & ? & _ & _ & _ & Hcase).
      rewrite Hnames in Hcase. simpl in Hcase.
      destruct Hcase as [[_ ?]|(_ & ? & _ & ?)]; done. }
    apply step_inv in Hstep as (vals' & best & s & Hc & Hfm & Hs & Hcase).
    destruct Hcase as [[Hlt _]|(_ & st1 & Had & Ho)].
    { by rewrite Hb0 in Hlt. }
    rewrite Hnames in Ho. simpl in Ho. injection Ho as <-.
    destruct Had as (old & Hold & _ & _ & Hcur & _ & _ & Hperf' & Hbest).
    rewrite Ha in *.
    pose proof (inv_cur _ _ _ _ Hinv0) as Hlen0. rewrite Hnames in Hlen0.
    destruct (cur_params st0) as [|v0 [|]] eqn:Hcur0; try done.
    simpl in Hcur, Hold. injection Hold as <-.
    unfold candidates in Hc. rewrite Ha, Hnames, Hgrid in Hc. simpl in Hc.
    rewrite decide_True in Hc by done. injection Hc as <-.
    unfold finish, dict_argmax in Hsearch.
    rewrite Hperf', Hperf, Hcur in Hsearch. simpl in Hsearch.
    rewrite decide_True in Hsearch by done. simpl in Hsearch.
    rewrite Hnames, Hbest in Hsearch. simpl in Hsearch.
    injection Hsearch as <- <-.
    exists best, s. split_and!; [done| | |by destruct retrieval].
    + eapply first_max_ext; [|exact Hfm]. intros v _.
      rewrite score_at_config by (by rewrite Hnames). apply Hcfg.
    + rewrite score_at_config in Hs by (by rewrite Hnames).
      by rewrite <-Hcfg.
Qed.

(** An empty grid, or a first parameter without candidates, leaves [max]
    with nothing to choose from. *)
Lemma search_nothing_to_sweep init retrieval fuel :
  grid = [] ∨
  (∃ p rest, grid = (p, []) :: rest ∧ ∀ q, q ∈ names → is_Some (init !! q)) →
  search cv grid pdist (S fuel) init retrieval = Some (Err ValueError).
Proof.
  intros [Hgrid|(p & rest & Hgrid & Hall)]; unfold search.
  - rewrite Hgrid. done.
  - destruct (init_state_total grid init Hall) as (st0 & Hinit).
    rewrite Hinit.
    destruct (init_state_Ok _ _ _ Hinit) as (_ & Hch & Ha & _ & _).
    simpl. rewrite Hch, py_any_replicate by (rewrite Hgrid; simpl; lia).
    unfold step, sweep. rewrite Ha, Hgrid. simpl.
    by rewrite decide_True.
Qed.

(** When the loop ends with no flag set, every parameter of the final
    configuration is at the first of the best candidates of its axis, so
    that no single parameter can be moved to a candidate with a better
    score. *)
Lemma loop_converged_optimal init st0 fuel st_end :
  grid ≠ [] →
  init_state grid init = Ok st0 →
  loop cv grid pdist fuel st0 = Some (Ok st_end) →
  py_any (changed st_end) = false →
  ∃ s, best_perf st_end = Fin s ∧
    config_score cv grid pdist (cur_params st_end) = Ok s ∧
    ∀ i p vals,
      names !! i = Some p → dict_get p grid = Ok vals →
      (∃ v, cur_params st_end !! i = Some v ∧
         first_max (λ x, config_score cv grid pdist
                           (<[i := x]> (cur_params st_end))) vals v) ∧
      ∀ x, x ∈ vals →
        ∃ sx, config_score cv grid pdist (<[i := x]> (cur_params st_end))
              = Ok sx ∧ (sx <= s)%Q.
Proof.
  intros Hne Hinit Hloop Hany.
  pose proof (init_state_inv cv grid pdist _ _ Hinit) as Hinv0.
  pose proof (loop_inv _ _ _ _ _ _ Hinv0 Hloop) as Hinv.
  destruct (loop_end_scored cv grid pdist init st0 fuel st_end) as (s & Hs);
    [by apply names_pos|done..|].
  destruct (inv_best _ _ _ _ Hinv _ Hs) as (_ & Hcur).
  exists s. split_and!; [done..|].
  intros i p vals Hp Hvals.
  assert (i < n) as Hi by (by eapply lookup_lt_Some).
  destruct (loop_converged cv grid pdist init st0 fuel st_end i)
    as (b & Hb & Hfm); [done..|].
  assert (axis_vals grid i = vals) as Hax.
  { unfold axis_vals, getitem. rewrite Hp. simpl. by rewrite Hvals. }
  rewrite Hax in Hfm.
  apply (first_max_ext _ (λ x, config_score cv grid pdist
                                 (<[i := x]> (cur_params st_end)))) in Hfm;
    [|intros x _; apply score_at_config, Hinv].
  split; [by exists b|].
  intros x Hx.
  destruct (first_max_ge _ _ _ x Hfm Hx) as (kx & kb & Hkx & Hkb & Hle).
  rewrite list_insert_id in Hkb by done.
  exists kx. split; [done|]. by replace s with kb by congruence.
Qed.
End SearchResult.

(** ** A coordinate-wise maximum is a fixed point of the search *)

Lemma first_max_unique {A} (key : A → result Q) xs b b' :
  first_max key xs b → first_max key xs b' → b = b'.
Proof.
  intros (pre & post & kb & Hxs & Hkb & Hpre & Hpost)
         (pre' & post' & kb' & Hxs' & Hkb' & Hpre' & Hpost').
  assert (xs !! length pre = Some b) as Hb
    by (rewrite Hxs; apply list_lookup_middle; done).
  assert (xs !! length pre' = Some b') as Hb'
    by (rewrite Hxs'; apply list_lookup_middle; done).
  destruct (Nat.lt_trichotomy (length pre) (length pre')) as [Hlt|[Heq|Hlt]].
  - exfalso. rewrite Hxs', lookup_app_l in Hb by done.
    apply list_elem_of_lookup_2, Hpre' in Hb as (k1 & Hk1 & Hlt1).
    rewrite Hxs, lookup_app_r in Hb' by lia.
    destruct (length pre' - length pre) as [|j] eqn:Hj; [lia|].
    simpl in Hb'.
    apply list_elem_of_lookup_2, Hpost in Hb' as (k2 & Hk2 & Hle2).
    replace k1 with kb in * by congruence.
    replace k2 with kb' in * by congruence.
    apply (Qlt_irrefl kb). by eapply Qlt_le_trans.
  - rewrite Heq in Hb. congruence.
  - exfalso. rewrite Hxs, lookup_app_l in Hb' by done.
    apply list_elem_of_lookup_2, Hpre in Hb' as (k1 & Hk1 & Hlt1).
    rewrite Hxs', lookup_app_r in Hb by lia.
    destruct (length pre - length pre') as [|j] eqn:Hj; [lia|].
    simpl in Hb.
    apply list_elem_of_lookup_2, Hpost' in Hb as (k2 & Hk2 & Hle2).
    replace k1 with kb' in * by congruence.
    replace k2 with kb in * by congruence.
    apply (Qlt_irrefl kb'). by eapply Qlt_le_trans.
Qed.

Lemma first_max_scored {A} (key : A → result Q) xs b x :
  first_max key xs b → x ∈ xs → ∃ kx, key x = Ok kx.
Proof.
  intros Hfm Hx. destruct (first_max_ge _ _ _ x Hfm Hx) as (kx & _ & ? & _).
  by exists kx.
Qed.

Lemma py_any_all_false k : py_any (replicate k false ++ []) = false.
Proof. rewrite app_nil_r. unfold py_any. by induction k. Qed.

Lemma py_any_some_true k m :
  py_any (replicate k false ++ replicate (S m) true) = true.
Proof. unfold py_any. by induction k. Qed.

Section FixedPoint.
Context {V pdist_t : Type} `{EqDecision V}.
Variable cv : gmap string (kwarg V pdist_t) → result Q.
Variable grid : list (string * list V).
Variable pdist : pdist_t.

Implicit Types (st : opt_state V) (val : V) (cur c : list V).
Implicit Types (init : gmap string V).

Local Abbreviation names := (param_names grid).
Local Abbreviation n := (length (param_names grid)).

(** A pass whose candidates all have a score ends without an exception. *)
Lemma step_total st vals :
  inv cv grid pdist st → 0 < n →
  candidates grid st = Ok vals → vals ≠ [] →
  (∀ v, v ∈ vals →
        ∃ s, score_at cv grid pdist (changing_param st) (cur_params st) v
             = Ok s) →
  ∃ o, step cv grid pdist st = Ok o.
Proof.
  intros Hinv Hn Hc Hne Hall.
  pose proof (inv_axis _ _ _ _ Hinv Hn) as Ha.
  destruct (sweep_from_total cv grid pdist (changing_param st) (cur_params st)
              vals [] Hall) as (cur_perfs & Hsf).
  assert (sweep cv grid pdist st = Ok cur_perfs) as Hsw.
  { unfold sweep. unfold candidates in Hc.
    destruct (getitem names (changing_param st)) as [nm|]; [|done].
    simpl in *. by rewrite Hc. }
  destruct (sweep_argmax_total _ _ _ _ _ _ Hsw Hc Hne) as (b & Hb).
  destruct (sweep_argmax _ _ _ _ _ _ Hsw Hb) as (_ & s & _ & _ & Hget & _).
  destruct (lookup_lt_is_Some_2 (cur_params st) (changing_param st))
    as [old Hold]; [by rewrite (inv_cur _ _ _ _ Hinv)|].
  unfold step. rewrite Hsw. cbn [bind]. rewrite Hb. cbn [bind].
  rewrite Hget. cbn [bind].
  destruct (fl_ltb (Fin s) (best_perf st)); [by eexists|].
  unfold getitem, setitem. rewrite Hold. cbn [bind].
  rewrite decide_True by by rewrite (inv_changed _ _ _ _ Hinv).
  cbn [bind].
  rewrite decide_True by by rewrite (inv_cur _ _ _ _ Hinv).
  cbn [bind]. rewrite decide_False by lia. case_decide; by eexists.
Qed.

Variable cur0 : list V.
Variable s : Q.
Hypothesis cur0_length : length cur0 = n.
Hypothesis cur0_score : config_score cv grid pdist cur0 = Ok s.
Hypothesis cur0_max : ∀ i p vals,
  names !! i = Some p → dict_get p grid = Ok vals →
  ∃ v, cur0 !! i = Some v ∧
       first_max (λ x, config_score cv grid pdist (<[i := x]> cur0)) vals v.

(** A pass from the configuration [cur0] keeps it. *)
Lemma kept_step k st :
  k < n → inv cv grid pdist st → kept grid cur0 s k st →
  ∃ st', step cv grid pdist st
         = Ok (if decide (n < 2) then Break st' else Continue st') ∧
         kept grid cur0 s (S k) st'.
Proof.
  intros Hk Hinv (Hcur & Hch & Ha & Hbest).
  rewrite Nat.mod_small in Ha by done.
  destruct (lookup_lt_is_Some_2 names k Hk) as (p & Hp).
  destruct (dict_get_key p grid) as (vals & Hvals).
  { by eapply list_elem_of_lookup_2. }
  destruct (cur0_max k p vals Hp Hvals) as (v & Hv & Hfm).
  assert (candidates grid st = Ok vals) as Hc.
  { unfold candidates, getitem. rewrite Ha, Hp. done. }
  assert (∀ x, score_at cv grid pdist k cur0 x
               = config_score cv grid pdist (<[k := x]> cur0)) as Hscore.
  { intros x. by apply score_at_config. }
  destruct (step_total st vals) as (o & Hstep); [done|lia|done| |  |].
  { intros ->. apply first_max_elem in Hfm. by apply elem_of_nil in Hfm. }
  { intros x Hx. rewrite Ha, Hcur, Hscore.
    exact (first_max_scored _ _ _ x Hfm Hx). }
  pose proof Hstep as (vals' & b & s' & Hc' & Hfm' & Hs' & Hcase)%step_inv.
  replace vals' with vals in * by congruence.
  rewrite Ha, Hcur in Hfm', Hs'.
  apply (first_max_ext _ (λ x, config_score cv grid pdist (<[k := x]> cur0)))
    in Hfm'; [|by intros x _].
  assert (b = v) as -> by (by eapply first_max_unique).
  rewrite Hscore, list_insert_id, cur0_score in Hs' by done.
  injection Hs' as <-.
  destruct Hcase as [[Hlt _]|(_ & st' & Had & ->)].
  { exfalso. case_decide as Hk0; destruct Hbest as [Hb _]; rewrite Hb in Hlt.
    - done.
    - simpl in Hlt. by rewrite Qltb_irrefl in Hlt. }
  exists st'. split; [by rewrite Hstep|].
  destruct Had as (old & Hold & _ & _ & Hcur' & Hch' & Ha' & Hperf' & Hbest').
  rewrite Ha, Hcur in *.
  replace old with v in * by congruence.
  rewrite list_insert_id in Hcur' by done.
  rewrite Nat.add_1_r in Ha'. unfold kept.
  split_and!; [done| |done|].
  - rewrite Hch', Hch, bool_decide_eq_false_2 by (by intros ?).
    rewrite insert_app_r_alt by (rewrite length_replicate; lia).
    rewrite length_replicate, Nat.sub_diag.
    replace (n - k) with (S (n - S k)) by lia. simpl.
    generalize (replicate (n - S k) true). intros t. clear.
    induction k as [|k IH]; [done|]. simpl. by rewrite IH.
  - rewrite decide_False by lia. split; [done|].
    rewrite Hperf', Hcur'.
    destruct (decide (k = 0)); destruct Hbest as [_ ->]; simpl; [done|].
    by rewrite decide_True.
Qed.

Lemma kept_loop m : ∀ k st extra,
  2 ≤ n → k + m = n → inv cv grid pdist st → kept grid cur0 s k st →
  ∃ st_end, loop cv grid pdist (m + extra) st = Some (Ok st_end) ∧
            kept grid cur0 s n st_end.
Proof.
  induction m as [|m IH]; intros k st extra Hn Hkm Hinv Hkept.
  - replace k with n in * by lia. exists st. split; [|done].
    destruct Hkept as (_ & Hch & _). rewrite Nat.sub_diag in Hch.
    assert (py_any (changed st) = false) as Hany
      by (rewrite Hch; apply py_any_all_false).
    destruct extra; simpl; by rewrite Hany.
  - destruct (kept_step k st) as (st' & Hstep & Hkept'); [lia|done..|].
    rewrite decide_False in Hstep by lia.
    assert (py_any (changed st) = true) as Hany.
    { destruct Hkept as (_ & -> & _).
      replace (n - k) with (S (n - S k)) by lia. apply py_any_some_true. }
    simpl. rewrite Hany, Hstep.
    apply (IH (S k)); [done|lia| |done].
    apply (step_state_inv _ _ _ _ _ Hinv Hstep).
Qed.

Lemma kept_loop_from_start st0 extra :
  0 < n → inv cv grid pdist st0 → kept grid cur0 s 0 st0 →
  ∃ st_end, loop cv grid pdist (n + extra) st0 = Some (Ok st_end) ∧
            kept grid cur0 s n st_end.
Proof.
  intros Hn Hinv Hkept.
  destruct (decide (n < 2)) as [Hn1|Hn2].
  - assert (n = 1) as Hn' by lia.
    destruct (kept_step 0 st0) as (st' & Hstep & Hkept'); [lia|done..|].
    rewrite decide_True in Hstep by done.
    exists st'. rewrite Hn' in *. split; [|done].
    destruct Hkept as (_ & Hch & _). rewrite Hn' in Hch.
    simpl. by rewrite Hch, Hstep.
  - apply (kept_loop n 0); [lia|done..].
Qed.
End FixedPoint.

Section FixedPointSearch.
Context {V pdist_t : Type} `{EqDecision V}.
Variable cv : gmap string (kwarg V pdist_t) → result Q.
Variable grid : list (string * list V).
Variable pdist : pdist_t.

(** From a configuration every parameter of which is at the first of the
    best candidates of its axis, the search returns this configuration
    and its score, after one sweep of each parameter. *)
Lemma search_fixed_point init retrieval values fuel :
  grid ≠ [] →
  Forall2 (λ p v, init !! p = Some v) (param_names grid) values →
  (∀ i p vals,
     param_names grid !! i = Some p → dict_get p grid = Ok vals →
     ∃ v, values !! i = Some v ∧
       first_max (λ x, config_score cv grid pdist (<[i := x]> values))
         vals v) →
  ∃ s,
    config_score cv grid pdist values = Ok s ∧
    search cv grid pdist (length (param_names grid) + fuel) init retrieval
    = Some (Ok (zip (param_names grid) values,
                if retrieval then Fin s else Fin (- s))).
Proof.
  intros Hne Hinit Hmax.
  assert (0 < length (param_names grid)) as Hn by (by apply names_pos).
  pose proof (Forall2_length _ _ _ Hinit) as Hlen.
  destruct (init_state_total grid init) as (st0 & Hst0).
  { intros p (i & Hi)%list_elem_of_lookup.
    destruct (Forall2_lookup_l _ _ _ _ _ Hinit Hi) as (v & _ & Hv).
    by exists v. }
  pose proof (init_state_inv cv grid pdist _ _ Hst0) as Hinv.
  destruct (init_state_Ok _ _ _ Hst0) as (Hcur0 & Hch & Ha & Hperf & Hbest).
  assert (cur_params st0 = values) as Hcur.
  { apply list_eq_same_length with (length (param_names grid));
      [lia | by rewrite (inv_cur _ _ _ _ Hinv) |].
    intros i x y Hi Hx Hy.
    destruct (lookup_lt_is_Some_2 (param_names grid) i Hi) as (p & Hp).
    destruct (Forall2_lookup_l _ _ _ _ _ Hcur0 Hp) as (x' & Hx' & Hpx).
    destruct (Forall2_lookup_l _ _ _ _ _ Hinit Hp) as (y' & Hy' & Hpy).
    congruence. }
  assert (∃ s, config_score cv grid pdist values = Ok s) as (s & Hs).
  { destruct (lookup_lt_is_Some_2 (param_names grid) 0 Hn) as (p & Hp).
    destruct (dict_get_key p grid) as (vals & Hvals).
    { by eapply list_elem_of_lookup_2. }
    destruct (Hmax 0 p vals Hp Hvals) as (v & Hv & Hfm).
    destruct (first_max_scored _ _ _ v Hfm) as (kv & Hkv).
    { by eapply first_max_elem. }
    rewrite list_insert_id in Hkv by done. by exists kv. }
  exists s. split; [done|].
  destruct (kept_loop_from_start cv grid pdist values s) with (st0 := st0)
    (extra := fuel) as (st_end & Hloop & Hkept); [done..| |].
  { split_and!; [done| |by rewrite Ha, Nat.Div0.mod_0_l|].
    - by rewrite Hch, Nat.sub_0_r.
    - by rewrite decide_True. }
  unfold search. rewrite Hst0, Hloop.
  destruct Hkept as (_ & _ & _ & Hfin). rewrite decide_False in Hfin by lia.
  destruct Hfin as (Hb & Hp).
  unfold finish, dict_argmax. rewrite Hp, Hb. simpl.
  rewrite decide_True by done. simpl. by destruct retrieval.
Qed.
End FixedPointSearch.

(** ** What [optimize_gp_params] returns and raises *)

Section OptimizeFurther.
Context {feature V gpstate rng pdist_t splitter : Type} `{EqDecision V}.
Context `{!Externals feature V gpstate rng pdist_t splitter}.
Variables (g : rng) (ds : dataset feature) (relevance : option (list Z)).
Variables (grid : list (string * list V)) (n_folds : nat) (fewshot : bool).

Local Abbreviation cv := (evaluator g ds relevance n_folds fewshot).
Local Abbreviation pdist := (pairwise_sqdist (X_train_norm ds)).
Local Abbreviation retrieval := (bool_decide (is_Some relevance)).

(** X1. When the scores of the evaluator are numbers, which the
    comparisons of lines 152 and 154 put in order (a score is a rational
    here; NaN, which no comparison orders, is not a score of the
    embedding), every call of [optimize_gp_params] ends, whichever
    numbers the evaluator gives and whichever exceptions it raises: some
    number of passes of the [while] loop is enough, and allowing more
    passes leaves the outcome (a result or an exception) the same. *)
Theorem optimize_gp_params_ends init :
  ∃ fuel r, ∀ extra,
    optimize_gp_params (fuel + extra) g ds relevance grid init n_folds fewshot
    = Some r.
Proof. apply search_ends. Qed.

(** X2. A grid with a single parameter is swept exactly once (line 166):
    the call ends after one pass whatever the flags say, and what it
    returns is the first of the candidates with the greatest score,
    together with that score (its opposite for a regression task). *)
Theorem single_parameter_grid_one_sweep p vals init fuel :
  grid = [(p, vals)] →
  optimize_gp_params (S fuel) g ds relevance grid init n_folds fewshot
  = optimize_gp_params 1 g ds relevance grid init n_folds fewshot ∧
  (∃ r,
     optimize_gp_params 1 g ds relevance grid init n_folds fewshot = Some r) ∧
  ∀ cfg sc,
    optimize_gp_params 1 g ds relevance grid init n_folds fewshot
    = Some (Ok (cfg, sc)) →
    ∃ best s,
      cfg = [(p, best)] ∧
      first_max (λ v, cv (<["pdist" := Pdist pdist]> {[p := Hyper v]}))
        vals best ∧
      cv (<["pdist" := Pdist pdist]> {[p := Hyper best]}) = Ok s ∧
      sc = (if retrieval then Fin s else Fin (- s)).
Proof.
  intros Hgrid. split; [by eapply search_one_param|].
  by apply search_one_param_result.
Qed.

(** X3. When [init] has no value for a parameter of the grid, the call
    raises [KeyError] at line 131, before the evaluator is ever called. *)
Theorem missing_init_value_is_key_error init p fuel :
  p ∈ param_names grid → init !! p = None →
  optimize_gp_params fuel g ds relevance grid init n_folds fewshot
  = Some (Err KeyError).
Proof.
  intros Hp Hnone. unfold optimize_gp_params, search.
  by rewrite (init_state_missing grid init p Hp Hnone).
Qed.

(** X4. With an empty grid, or with a first parameter that has no
    candidates (and initial values for all parameters), the call raises
    [ValueError]: [max] is given an empty sequence, at line 169 or at
    line 152. *)
Theorem nothing_to_sweep_is_value_error init fuel :
  grid = [] ∨
  (∃ p rest, grid = (p, []) :: rest ∧
             ∀ q, q ∈ param_names grid → is_Some (init !! q)) →
  optimize_gp_params (S fuel) g ds relevance grid init n_folds fewshot
  = Some (Err ValueError).
Proof. apply search_nothing_to_sweep. Qed.

(** X5. On a grid that has a parameter, with candidates and an initial
    value for every parameter, an exception that ends the call is one
    that the evaluator raised, called with one value for each parameter
    of the grid and the distance matrix: the search itself raises
    none. *)
Theorem errors_come_from_evaluator init fuel e :
  well_formed grid init →
  optimize_gp_params fuel g ds relevance grid init n_folds fewshot
  = Some (Err e) →
  ∃ values,
    length values = length (param_names grid) ∧
    cv (params_of_config grid pdist values) = Err e.
Proof.
  intros Hwf Hrun.
  by apply (search_Err cv grid pdist init retrieval fuel e).
Qed.

(** X6. The dictionary returned has exactly the parameter names of the
    grid, in the order of the grid, and the value of each is its initial
    value or one of its candidates. *)
Theorem returned_config_within_grid init fuel cfg sc :
  optimize_gp_params fuel g ds relevance grid init n_folds fewshot
  = Some (Ok (cfg, sc)) →
  cfg.*1 = param_names grid ∧
  ∀ p v, (p, v) ∈ cfg →
    init !! p = Some v ∨ ∃ vals, dict_get p grid = Ok vals ∧ v ∈ vals.
Proof.
  intros Hrun. apply search_Ok_config in Hrun as (Hnames & Hvals & _).
  by split.
Qed.

(** X7. The score returned is the score of the configuration returned:
    the evaluator, called on the values returned (and the distance
    matrix), gives a score equal to the one returned for a retrieval
    task, and to its opposite for a regression task. *)
Theorem returned_score_is_of_returned_config init fuel cfg sc :
  optimize_gp_params fuel g ds relevance grid init n_folds fewshot
  = Some (Ok (cfg, sc)) →
  ∃ k s, cv (params_of_config grid pdist cfg.*2) = Ok k ∧ (k == s)%Q ∧
         sc = (if retrieval then Fin s else Fin (- s)).
Proof.
  intros Hrun. by apply search_Ok_config in Hrun as (_ & _ & Hscore).
Qed.

(** X8. When the [while] loop ends because no flag is set any more, the
    call returns the score of the configuration the loop ended on, and
    this configuration is a coordinate-wise maximum: the value of every
    parameter is the first of the best candidates of that parameter, the
    other parameters held as they are, so that replacing the value of
    any one parameter by any of its candidates gives a score that is not
    greater. *)
Theorem converged_run_is_coordinatewise_maximum init st0 fuel st_end :
  grid ≠ [] →
  init_state grid init = Ok st0 →
  loop cv grid pdist fuel st0 = Some (Ok st_end) →
  py_any (changed st_end) = false →
  ∃ cfg s,
    optimize_gp_params fuel g ds relevance grid init n_folds fewshot
    = Some (Ok (cfg, if retrieval then Fin s else Fin (- s))) ∧
    cv (params_of_config grid pdist (cur_params st_end)) = Ok s ∧
    ∀ i p vals,
      param_names grid !! i = Some p → dict_get p grid = Ok vals →
      (∃ v, cur_params st_end !! i = Some v ∧
         first_max (λ x, cv (params_of_config grid pdist
                               (<[i := x]> (cur_params st_end)))) vals v) ∧
      ∀ x, x ∈ vals →
        ∃ sx, cv (params_of_config grid pdist (<[i := x]> (cur_params st_end)))
              = Ok sx ∧ (sx <= s)%Q.
Proof.
  intros Hne Hinit Hloop Hany.
  destruct (loop_converged_optimal cv grid pdist init st0 fuel st_end)
    as (s & Hs & Hcur & Hmax); [done..|].
  pose proof (init_state_inv cv grid pdist _ _ Hinit) as Hinv0.
  pose proof (loop_inv _ _ _ _ _ _ Hinv0 Hloop) as Hinv.
  destruct (inv_best _ _ _ _ Hinv _ Hs) as (Hget & _).
  destruct (py_max_total (λ k, dict_get k (perf st_end))
              (dict_keys (perf st_end))) as (c & Hc).
  { intros Hnil. apply dict_get_Ok_key in Hget. rewrite Hnil in Hget.
    by apply elem_of_nil in Hget. }
  { intros x. apply dict_get_key. }
  exists (zip (param_names grid) c), s. split_and!; [|done..].
  unfold optimize_gp_params, search. rewrite Hinit, Hloop.
  unfold finish, dict_argmax. rewrite Hc, Hs. simpl.
  by destruct retrieval.
Qed.

(** X15. A configuration that is such a coordinate-wise maximum is
    returned as it is: when the initial value of every parameter is the
    first of the best candidates of that parameter, the other parameters
    held at their initial values, the call sweeps each parameter once,
    changes nothing, and returns the initial values with their score.
    A run that ends with no flag set ends on such a configuration, so a
    call that starts from it returns it. *)
Theorem coordinatewise_maximum_is_returned init values fuel :
  grid ≠ [] →
  Forall2 (λ p v, init !! p = Some v) (param_names grid) values →
  (∀ i p vals,
     param_names grid !! i = Some p → dict_get p grid = Ok vals →
     ∃ v, values !! i = Some v ∧
       first_max (λ x, cv (params_of_config grid pdist (<[i := x]> values)))
         vals v) →
  ∃ s,
    cv (params_of_config grid pdist values) = Ok s ∧
    optimize_gp_params (length (param_names grid) + fuel) g ds relevance grid
      init n_folds fewshot
    = Some (Ok (zip (param_names grid) values,
                if retrieval then Fin s else Fin (- s))).
Proof.
  intros Hne Hinit Hmax.
  by apply (search_fixed_point cv grid pdist init retrieval values fuel).
Qed.
End OptimizeFurther.

(** ** Further properties of the evaluators *)

Lemma mask_seq_spec (rel : list Z) : ∀ s,
  StronglySorted lt (mask (seq s (length rel)) (map (λ r, negb (r =? 0)%Z) rel)) ∧
  ∀ i, i ∈ mask (seq s (length rel)) (map (λ r, negb (r =? 0)%Z) rel) ↔
       s ≤ i ∧ ∃ r, rel !! (i - s) = Some r ∧ r ≠ 0%Z.
Proof.
  induction rel as [|r rel IH]; intros s; simpl.
  - split; [constructor|]. intros i. split; [by intros ?%elem_of_nil|].
    by intros (_ & r & ? & _).
  - destruct (IH (S s)) as (Hsort & Hiff).
    assert (∀ i, s ≤ i ∧ (∃ r', (r :: rel) !! (i - s) = Some r' ∧ r' ≠ 0%Z) ↔
                 (i = s ∧ r ≠ 0%Z) ∨
                 (S s ≤ i ∧ ∃ r', rel !! (i - S s) = Some r' ∧ r' ≠ 0%Z))
      as Hcase.
    { intros i. split.
      - intros (Hle & r' & Hr' & Hne).
        destruct (decide (i = s)) as [->|Hi].
        + left. rewrite Nat.sub_diag in Hr'. simpl in Hr'. by simplify_eq.
        + right. split; [lia|]. exists r'. split; [|done].
          replace (i - s) with (S (i - S s)) in Hr' by lia. done.
      - intros [[-> Hne]|(Hle & r' & Hr' & Hne)].
        + split; [lia|]. exists r. by rewrite Nat.sub_diag.
        + split; [lia|]. exists r'. split; [|done].
          by replace (i - s) with (S (i - S s)) by lia. }
    destruct (r =? 0)%Z eqn:Hr; simpl.
    + apply Z.eqb_eq in Hr. split; [done|]. intros i.
      rewrite Hiff, Hcase. naive_solver.
    + apply Z.eqb_neq in Hr. split.
      * constructor; [done|]. apply Forall_forall. intros i Hi.
        apply Hiff in Hi. lia.
      * intros i. rewrite elem_of_cons, Hiff, Hcase. naive_solver.
Qed.




Section EvaluatorsFurther.
Context {feature V gpstate rng pdist_t splitter : Type}.
Context `{!Externals feature V gpstate rng pdist_t splitter}.

Implicit Types (ds : dataset feature) (relevance : option (list Z)).
Implicit Types (gp_params : gmap string (kwarg V pdist_t)).



(** X9. The eligible samples of a retrieval task are exactly the samples
    whose relevance is not 0, in increasing order: none is dropped and
    none is listed twice.  A relevance array that has not one entry per
    training sample makes both evaluators raise [IndexError] before the
    predictor is built or asked anything. *)
Theorem eligible_samples_are_the_labelled_ones ds rel :
  (length rel = length (X_train ds) →
   ∃ nn, not_unnameable ds (Some rel) = Ok nn ∧
         StronglySorted lt nn ∧
         ∀ i, i ∈ nn ↔ ∃ r, rel !! i = Some r ∧ r ≠ 0%Z) ∧
  (length rel ≠ length (X_train ds) →
   ∀ g gp_params n_folds,
     cross_validate_gp g ds (Some rel) gp_params n_folds
       = ([], Err IndexError) ∧
     cross_validate_fewshot g ds (Some rel) gp_params n_folds
       = ([], Err IndexError)).
Proof.
  split; intros Hlen.
  - unfold not_unnameable. rewrite length_seq, decide_True by done.
    eexists. split; [done|]. rewrite <-Hlen.
    destruct (mask_seq_spec rel 0) as (Hsort & Hiff). split; [done|].
    intros i. rewrite Hiff, Nat.sub_0_r. naive_solver lia.
  - intros g gp_params n_folds.
    unfold cross_validate_gp, cross_validate_fewshot, not_unnameable.
    by rewrite length_seq, decide_False by done.
Qed.


End EvaluatorsFurther.

(** ** The call of the script with the default tables *)

Section InitialScored.
Context {V pdist_t : Type} `{EqDecision V}.
Variable cv : gmap string (kwarg V pdist_t) → result Q.
Variable grid : list (string * list V).
Variable pdist : pdist_t.

(** When the initial value of the first parameter is one of its
    candidates, a run that returns has scored the initial configuration in
    its first sweep, and returns at least that score. *)
Lemma search_Ok_initial_scored init retrieval fuel p0 vals0 rest v0 cfg sc :
  grid = (p0, vals0) :: rest →
  init !! p0 = Some v0 →
  v0 ∈ vals0 →
  search cv grid pdist fuel init retrieval = Some (Ok (cfg, sc)) →
  ∃ st0 s0,
    init_state grid init = Ok st0 ∧
    config_score cv grid pdist (cur_params st0) = Ok s0 ∧
    fl_le (Fin s0) (if retrieval then sc else fl_neg sc).
Proof.
  intros Hgrid Hv0 Hin Hsearch. pose proof Hsearch as Hrun.
  unfold search in Hsearch.
  destruct (init_state grid init) as [st0|e] eqn:Hinit; [|done].
  pose proof (init_state_inv cv grid pdist _ _ Hinit) as Hinv.
  destruct (init_state_Ok _ _ _ Hinit) as (Hcur0 & Hch & Ha & _ & _).
  assert (param_names grid !! 0 = Some p0) as Hp0 by (by rewrite Hgrid).
  destruct (Forall2_lookup_l _ _ _ _ _ Hcur0 Hp0) as (v & Hv & Hinitv).
  replace v with v0 in * by congruence.
  assert (∃ s0, config_score cv grid pdist (cur_params st0) = Ok s0)
    as (s0 & Hs0).
  { destruct fuel as [|fuel]; simpl in Hsearch;
      rewrite Hch, py_any_replicate in Hsearch
        by (rewrite Hgrid; simpl; lia); [done|].
    destruct (step cv grid pdist st0) as [o|e] eqn:Hstep; [|done].
    apply step_inv in Hstep as (vals & b & s & Hc & Hfm & _).
    unfold candidates, getitem in Hc. rewrite Ha, Hp0 in Hc. simpl in Hc.
    rewrite Hgrid in Hc. simpl in Hc. rewrite decide_True in Hc by done.
    injection Hc as <-.
    destruct (first_max_ge _ _ _ v0 Hfm Hin) as (kx & _ & Hkx & _).
    rewrite Ha, score_at_config in Hkx by apply Hinv.
    rewrite list_insert_id in Hkx by done. by exists kx. }
  exists st0, s0. split_and!; [done..|].
  by eapply (search_score_ge_initial cv grid pdist init retrieval fuel).
Qed.
End InitialScored.

Section ScriptFurther.
Context {feature gpstate rng pdist_t splitter : Type}.
Context `{!Externals feature Q gpstate rng pdist_t splitter}.
Variables (g : rng) (ds : dataset feature) (relevance : option (list Z)).
Variables (n_folds : nat) (fewshot : bool).

Local Abbreviation cv := (evaluator g ds relevance n_folds fewshot).
Local Abbreviation pdist := (pairwise_sqdist (X_train_norm ds)).
Local Abbreviation retrieval := (bool_decide (is_Some relevance)).

Lemma default_grids_cases grid_name grid :
  dict_get grid_name default_grids = Ok grid →
  ∃ ls, dict_get "length_scale" grid = Ok ls ∧ (1 # 10)%Q ∈ ls ∧
    (grid =
       [("length_scale", ls);
        ("var", [1 # 10; 1 # 2; 1; 3 # 2; 2; 5 # 2; 5; 10]%Q);
        ("noise",
         [1 # 100000000; 1 # 1000000; 1 # 10000; 1 # 1000; 1 # 100; 1 # 20;
          1 # 10]%Q)] ∨
     grid = [("length_scale", ls)]).
Proof.
  unfold default_grids. simpl.
  repeat case_decide; intros [= <-]; eexists;
    (split_and!; [reflexivity | set_solver | auto]).
Qed.

Lemma default_grids_well_formed grid_name grid :
  dict_get grid_name default_grids = Ok grid →
  well_formed grid default_init.
Proof.
  intros (ls & _ & Hls & [->| ->])%default_grids_cases.
  - split; [done|]. intros p vals Hin.
    repeat apply elem_of_cons in Hin as [[= -> ->]|Hin];
      [| | |by apply elem_of_nil in Hin].
    + split; [by intros ->; apply elem_of_nil in Hls | by eexists].
    + split; [done | by eexists].
    + split; [done | by eexists].
  - split; [done|]. intros p vals Hin.
    repeat apply elem_of_cons in Hin as [[= -> ->]|Hin];
      [|by apply elem_of_nil in Hin].
    split; [by intros ->; apply elem_of_nil in Hls | by eexists].
Qed.

Lemma default_init_is_candidate grid_name grid p v :
  dict_get grid_name default_grids = Ok grid →
  p ∈ param_names grid → default_init !! p = Some v →
  ∃ vals, dict_get p grid = Ok vals ∧ v ∈ vals.
Proof.
  intros (ls & Hget & Hls & [->| ->])%default_grids_cases Hp Hv.
  - unfold param_names, dict_keys in Hp. csimpl in Hp.
    repeat apply elem_of_cons in Hp as [->|Hp];
      [| | |by apply elem_of_nil in Hp].
    + exists ls. split; [done|]. by injection Hv as <-.
    + eexists. split; [reflexivity|]. injection Hv as <-. set_solver.
    + eexists. split; [reflexivity|]. injection Hv as <-. set_solver.
  - unfold param_names, dict_keys in Hp. csimpl in Hp.
    repeat apply elem_of_cons in Hp as [->|Hp]; [|by apply elem_of_nil in Hp].
    exists ls. split; [done|]. by injection Hv as <-.
Qed.

(** X11. The script calls [optimize_gp_params] with one of the two
    default grids and the default initial values.  Such a call raises
    nothing but what the evaluator raises; and when it returns, every
    value returned is a candidate of the grid, the configuration of the
    default initial values was scored, and the score returned is at least
    that score (at most, once the sign is turned for a regression
    task). *)
Theorem default_run_not_below_default_init fuel grid_name grid :
  dict_get grid_name default_grids = Ok grid →
  (∀ e, optimize_configured fuel g ds relevance grid_name n_folds fewshot
        = Some (Err e) →
        ∃ values,
          length values = length (param_names grid) ∧
          cv (params_of_config grid pdist values) = Err e) ∧
  (∀ cfg sc,
     optimize_configured fuel g ds relevance grid_name n_folds fewshot
     = Some (Ok (cfg, sc)) →
     (∀ p v, (p, v) ∈ cfg → ∃ vals, dict_get p grid = Ok vals ∧ v ∈ vals) ∧
     ∃ init_values s0,
       Forall2 (λ p v, default_init !! p = Some v) (param_names grid)
         init_values ∧
       cv (params_of_config grid pdist init_values) = Ok s0 ∧
       fl_le (Fin s0) (if retrieval then sc else fl_neg sc)).
Proof.
  intros Hgrid. unfold optimize_configured. rewrite Hgrid. split.
  - intros e Hrun.
    apply (search_Err cv grid pdist default_init retrieval fuel e);
      [by eapply default_grids_well_formed | done].
  - intros cfg sc Hrun. split.
    + destruct (search_Ok_config _ _ _ _ _ _ _ _ Hrun) as (Hnames & Hvals & _).
      intros p v Hin. destruct (Hvals p v Hin) as [Hinit|Hcand]; [|done].
      eapply default_init_is_candidate; [done| |done].
      rewrite <-Hnames. apply list_elem_of_fmap. by exists (p, v).
    + destruct (default_grids_cases _ _ Hgrid) as (ls & _ & Hls & Hcase).
      assert (∃ rest, grid = ("length_scale", ls) :: rest) as (rest & Hg)
        by (destruct Hcase as [->| ->]; by eexists).
      destruct (search_Ok_initial_scored cv grid pdist default_init retrieval
                  fuel "length_scale" ls rest (1 # 10)%Q cfg sc)
        as (st0 & s0 & Hinit & Hs0 & Hle); [done..|].
      exists (cur_params st0), s0. split_and!; [|done..].
      by destruct (init_state_Ok _ _ _ Hinit) as (Hcur0 & _).
Qed.
End ScriptFurther.

(** ** The command line *)

Lemma lower_ascii_dash c : lower_ascii c = "-"%char → c = "-"%char.
Proof. destruct c as [[] [] [] [] [] [] [] []]; by vm_compute. Qed.

Lemma lower_ascii_eq_sign c : lower_ascii c = "="%char ↔ c = "="%char.
Proof. destruct c as [[] [] [] [] [] [] [] []]; by vm_compute. Qed.

Lemma split_eq_lower s : split_eq (lower s) = None → split_eq s = None.
Proof.
  induction s as [|c s IH]; simpl; [done|].
  destruct (decide (c = "="%char)) as [->|Hc]; [done|].
  rewrite decide_False by (by rewrite lower_ascii_eq_sign).
  destruct (split_eq (lower s)) as [[k v]|]; [done|]. intros _.
  by rewrite IH.
Qed.

Lemma help_dashed a :
  lower a = "--help" → ∃ kv, dashed a = Some kv ∧ lower kv = "help".
Proof.
  destruct a as [|c1 [|c2 kv]]; simpl; [done..|].
  intros [= H1%lower_ascii_dash H2%lower_ascii_dash Hkv]. subst.
  by exists kv.
Qed.

Lemma override_not_help a kv : override_of a = Some kv → lower a ≠ "--help".
Proof.
  unfold override_of. intros Hov (kv0 & Hd & Hl)%help_dashed.
  rewrite Hd in Hov. rewrite split_eq_lower in Hov; [done|]. by rewrite Hl.
Qed.

Lemma not_dashed_not_help a : dashed a = None → lower a ≠ "--help".
Proof. intros Hd (kv & Hd' & _)%help_dashed. congruence. Qed.

Lemma split_eq_append k v :
  "="%char ∉ String.list_ascii_of_string k →
  split_eq (k +:+ "=" +:+ v) = Some (k, v).
Proof.
  induction k as [|c k IH]; simpl; [done|].
  intros (Hc & Hk)%not_elem_of_cons.
  rewrite decide_False by done. by rewrite IH.
Qed.

Lemma override_of_render k v :
  "="%char ∉ String.list_ascii_of_string k →
  override_of (render_override (k, v)) = Some (k, v).
Proof. intros Hk. unfold override_of. simpl. by apply split_eq_append. Qed.

Lemma assign_overrides_cons d kv kvs :
  assign_overrides d (kv :: kvs)
  = assign_overrides (dict_set kv.1 kv.2 d) kvs.
Proof. done. Qed.

(** The arguments with which the script reaches line 214. *)
Lemma parse_args_Load args : ∀ cf ov0 f ov,
  parse_args args cf ov0 = Ok (Load f ov) ↔
  ∃ kvs, ov = assign_overrides ov0 kvs ∧
    ((cf = Some f ∧ Forall2 (λ a kv, override_of a = Some kv) args kvs) ∨
     (cf = None ∧ ∃ pre post,
        args = pre ++ f :: post ∧ dashed f = None ∧
        Forall2 (λ a kv, override_of a = Some kv) (pre ++ post) kvs)).
Proof.
  induction args as [|arg rest IH]; intros cf ov0 f ov; simpl.
  - destruct cf as [f0|]; split.
    + intros [= -> ->]. exists []. split; [done|]. left. by split.
    + intros (kvs & -> & [[[= ->] ->%Forall2_nil_inv_l]|[? _]]); done.
    + done.
    + intros (kvs & _ & [[? _]|(_ & [|??] & ? & ? & _)]); done.
  - destruct (decide (lower arg = "--help")) as [Hhelp|Hhelp].
    { split; [done|].
      intros (kvs & _ & [[_ Hall]|(_ & pre & post & Hargs & Hf & Hall)]).
      - apply Forall2_cons_inv_l in Hall as (kv & ? & Hov & _).
        by apply override_not_help in Hov.
      - destruct pre as [|a pre]; simplify_eq/=.
        + by apply not_dashed_not_help in Hf.
        + apply Forall2_cons_inv_l in Hall as (kv & ? & Hov & _).
          by apply override_not_help in Hov. }
    unfold override_of in IH |- *.
    destruct (dashed arg) as [kv0|] eqn:Hd.
    + destruct (split_eq kv0) as [[k v]|] eqn:Hsp.
      * rewrite IH. split.
        -- intros (kvs & -> & Hcase). exists ((k, v) :: kvs).
           split; [done|].
           destruct Hcase as [[-> Hall]|(-> & pre & post & -> & Hf & Hall)].
           ++ left. split; [done|]. constructor; [|done].
              by rewrite Hd.
           ++ right. split; [done|]. exists (arg :: pre), post.
              split_and!; [done..|]. simpl. constructor; [|done].
              by rewrite Hd.
        -- intros (kvs & -> & Hcase).
           destruct Hcase as [[-> Hall]|(-> & pre & post & Hargs & Hf & Hall)].
           ++ apply Forall2_cons_inv_l in Hall as (kv & kvs' & Hov & Hall & ->).
              rewrite Hd, Hsp in Hov. injection Hov as <-.
              exists kvs'. split; [done|]. left. by split.
           ++ destruct pre as [|a pre]; simplify_eq/=.
              apply Forall2_cons_inv_l in Hall as (kv & kvs' & Hov & Hall & ->).
              rewrite Hd, Hsp in Hov. injection Hov as <-.
              exists kvs'. split; [done|]. right. split; [done|].
              by exists pre, post.
      * split; [done|].
        intros (kvs & _ & [[_ Hall]|(_ & pre & post & Hargs & Hf & Hall)]).
        -- apply Forall2_cons_inv_l in Hall as (kv & ? & Hov & _).
           by rewrite Hd, Hsp in Hov.
        -- destruct pre as [|a pre]; simplify_eq/=.
           apply Forall2_cons_inv_l in Hall as (kv & ? & Hov & _).
           by rewrite Hd, Hsp in Hov.
    + destruct cf as [f0|].
      * split; [done|].
        intros (kvs & _ & [[_ Hall]|(? & _)]); [|done].
        apply Forall2_cons_inv_l in Hall as (kv & ? & Hov & _).
        by rewrite Hd in Hov.
      * rewrite IH. split.
        -- intros (kvs & -> & [[[= ->] Hall]|(? & _)]); [|done].
           exists kvs. split; [done|]. right. split; [done|].
           by exists [], rest.
        -- intros (kvs & -> & [[? _]|(_ & pre & post & Hargs & Hf & Hall)]);
             [done|].
           destruct pre as [|a pre]; simplify_eq/=.
           ++ exists kvs. split; [done|]. left. by split.
           ++ apply Forall2_cons_inv_l in Hall as (kv & ? & Hov & _).
              by rewrite Hd in Hov.
Qed.

Lemma parse_args_help pre h post : ∀ cf ov,
  lower h = "--help" →
  parse_args (pre ++ h :: post) cf ov = parse_args (pre ++ [h]) cf ov ∧
  ∀ f ov', parse_args (pre ++ h :: post) cf ov ≠ Ok (Load f ov').
Proof.
  intros cf ov Hh. revert cf ov.
  induction pre as [|a pre IH]; intros cf ov; simpl.
  - by rewrite !decide_True by done.
  - case_decide; [done|].
    destruct (dashed a) as [kv|].
    + destruct (split_eq kv) as [[k v]|]; [apply IH | done].
    + destruct cf; [done | apply IH].
Qed.

(** X12. An argument that is [--help], in any mix of upper and lower
    case, ends the reading of the command line: the arguments after it
    are not looked at, and no configuration file is loaded. *)
Theorem help_ends_the_command_line pre h post :
  lower h = "--help" →
  parse_argv (pre ++ h :: post) = parse_argv (pre ++ [h]) ∧
  ∀ f ov, parse_argv (pre ++ h :: post) ≠ Ok (Load f ov).
Proof. intros Hh. by apply parse_args_help. Qed.

(** X13. The script goes on to load a configuration exactly when the
    command line is one argument that does not start with [--], the
    configuration file, with any number of arguments of the form
    [--key=value] before and after it; the overrides it passes on are
    these keys and values, assigned in the order of the command line. *)
Theorem loads_iff_one_file_among_overrides args f ov :
  parse_argv args = Ok (Load f ov) ↔
  ∃ pre post kvs,
    args = pre ++ f :: post ∧ dashed f = None ∧
    Forall2 (λ a kv, override_of a = Some kv) (pre ++ post) kvs ∧
    ov = assign_overrides [] kvs.
Proof.
  unfold parse_argv. rewrite parse_args_Load. split.
  - intros (kvs & -> & [[? _]|(_ & pre & post & ? & ? & ?)]); [done|].
    by exists pre, post, kvs.
  - intros (pre & post & kvs & ? & ? & ? & ->). exists kvs.
    split; [done|]. right. split; [done|]. by exists pre, post.
Qed.

(** X14. Keys and values written as [--key=value] are read back as they
    were written, wherever the configuration file stands among them,
    provided no key contains ['='] (a value may) and the file name does
    not start with [--]; a key given twice keeps its place and takes the
    later value. *)
Theorem rendered_overrides_are_read_back f kvs1 kvs2 :
  dashed f = None →
  (∀ k v, (k, v) ∈ kvs1 ++ kvs2 → "="%char ∉ String.list_ascii_of_string k) →
  parse_argv (map render_override kvs1 ++ f :: map render_override kvs2)
  = Ok (Load f (assign_overrides [] (kvs1 ++ kvs2))).
Proof.
  intros Hf Hkeys. unfold parse_argv. apply parse_args_Load.
  exists (kvs1 ++ kvs2). split; [done|]. right. split; [done|].
  exists (map render_override kvs1), (map render_override kvs2).
  split_and!; [done..|].
  rewrite <-map_app. apply Forall2_fmap_l, Forall_Forall2_diag.
  apply Forall_forall. intros [k v] Hin. apply override_of_render.
  by eapply Hkeys.
Qed.

(** * Part VI: the further properties on example runs *)

(** X2 on an example: one parameter with two candidates. *)
Lemma single_parameter_grid_one_sweep_witness :
  Demo.grid1 = [("length_scale", [1; 10]%Z)] ∧
  optimize_gp_params 5 0 Toy.ds6 (Some Toy.rel6) Demo.grid1 Demo.init1 2 false
  = optimize_gp_params 1 0 Toy.ds6 (Some Toy.rel6) Demo.grid1 Demo.init1 2
      false.
Proof.
  split; [reflexivity|].
  apply (single_parameter_grid_one_sweep 0 Toy.ds6 (Some Toy.rel6) Demo.grid1
           2 false "length_scale" [1; 10]%Z Demo.init1 4).
  reflexivity.
Defined.

(** X3 on an example: no initial value for [var]. *)
Lemma missing_init_value_is_key_error_witness :
  "var" ∈ param_names Demo.grid2 ∧ Demo.init1 !! "var" = None ∧
  optimize_gp_params 3 0 Toy.ds6 (Some Toy.rel6) Demo.grid2 Demo.init1 2 false
  = Some (Err KeyError).
Proof.
  assert ("var" ∈ param_names Demo.grid2) as Hin
    by (right; left).
  assert (Demo.init1 !! "var" = None) as Hnone by (vm_compute; reflexivity).
  split_and!; [exact Hin | exact Hnone |].
  exact (missing_init_value_is_key_error 0 Toy.ds6 (Some Toy.rel6) Demo.grid2
           2 false Demo.init1 "var" 3 Hin Hnone).
Defined.

(** X4 on an example: a length scale without candidates. *)
Lemma nothing_to_sweep_is_value_error_witness :
  optimize_gp_params 1 0 Toy.ds6 (Some Toy.rel6)
    [("length_scale", @nil Z)] Demo.init1 2 false
  = Some (Err ValueError).
Proof.
  apply (nothing_to_sweep_is_value_error 0 Toy.ds6 (Some Toy.rel6)
           [("length_scale", [])] 2 false Demo.init1 0).
  right. exists "length_scale", []. split; [reflexivity|].
  intros q ->%list_elem_of_singleton. exists 1%Z. vm_compute. reflexivity.
Defined.

(** X5 on an example: nine folds for four eligible samples. *)
Lemma errors_come_from_evaluator_witness :
  well_formed Demo.grid2 Demo.init2 ∧
  ∃ values,
    length values = length (param_names Demo.grid2) ∧
    evaluator 0 Toy.ds6 (Some Toy.rel6) 9 false
      (params_of_config Demo.grid2 tt values) = Err ValueError.
Proof.
  assert (well_formed Demo.grid2 Demo.init2) as Hwf.
  { split; [done|]. intros p vals Hin.
    apply elem_of_cons in Hin as [[= -> ->]|Hin].
    { split; [done|]. exists 4%Z. vm_compute. reflexivity. }
    apply list_elem_of_singleton in Hin as [= -> ->].
    split; [done|]. exists 1%Z. vm_compute. reflexivity. }
  assert (optimize_gp_params 10 0 Toy.ds6 (Some Toy.rel6) Demo.grid2
            Demo.init2 9 false = Some (Err ValueError)) as Hrun
    by (vm_compute; reflexivity).
  split; [exact Hwf|].
  exact (errors_come_from_evaluator 0 Toy.ds6 (Some Toy.rel6) Demo.grid2 9
           false Demo.init2 10 ValueError Hwf Hrun).
Defined.

(** X6 on an example: the run from [init2] on [grid2]. *)
Lemma returned_config_within_grid_witness :
  optimize_gp_params 10 0 Toy.ds6 (Some Toy.rel6) Demo.grid2 Demo.init2 2 false
  = Some (Ok ([("length_scale", 4%Z); ("var", 2%Z)], Fin (-4 # 4))) ∧
  [("length_scale", 4%Z); ("var", 2%Z)].*1 = param_names Demo.grid2.
Proof.
  assert (optimize_gp_params 10 0 Toy.ds6 (Some Toy.rel6) Demo.grid2
            Demo.init2 2 false
          = Some (Ok ([("length_scale", 4%Z); ("var", 2%Z)], Fin (-4 # 4))))
    as Hrun by (vm_compute; reflexivity).
  split; [exact Hrun|].
  exact (proj1 (returned_config_within_grid 0 Toy.ds6 (Some Toy.rel6)
                  Demo.grid2 2 false Demo.init2 10 _ _ Hrun)).
Defined.

(** X7 on the same run. *)
Lemma returned_score_is_of_returned_config_witness :
  optimize_gp_params 10 0 Toy.ds6 (Some Toy.rel6) Demo.grid2 Demo.init2 2 false
  = Some (Ok ([("length_scale", 4%Z); ("var", 2%Z)], Fin (-4 # 4))) ∧
  ∃ k s,
    evaluator 0 Toy.ds6 (Some Toy.rel6) 2 false
      (params_of_config Demo.grid2 tt [("length_scale", 4%Z); ("var", 2%Z)].*2)
    = Ok k ∧ (k == s)%Q ∧ Fin (-4 # 4) = Fin s.
Proof.
  assert (optimize_gp_params 10 0 Toy.ds6 (Some Toy.rel6) Demo.grid2
            Demo.init2 2 false
          = Some (Ok ([("length_scale", 4%Z); ("var", 2%Z)], Fin (-4 # 4))))
    as Hrun by (vm_compute; reflexivity).
  split; [exact Hrun|].
  exact (returned_score_is_of_returned_config 0 Toy.ds6 (Some Toy.rel6)
           Demo.grid2 2 false Demo.init2 10 _ _ Hrun).
Defined.

(** X8 on the same run, which ends with both flags cleared. *)
Lemma converged_run_is_coordinatewise_maximum_witness :
  init_state Demo.grid2 Demo.init2 = Ok Demo.start2 ∧
  loop Demo.cv Demo.grid2 tt 10 Demo.start2 = Some (Ok Demo.end2) ∧
  py_any (changed Demo.end2) = false ∧
  ∃ cfg s,
    optimize_gp_params 10 0 Toy.ds6 (Some Toy.rel6) Demo.grid2 Demo.init2 2
      false = Some (Ok (cfg, Fin s)) ∧
    Demo.cv (params_of_config Demo.grid2 tt [4; 2]%Z) = Ok s.
Proof.
  assert (init_state Demo.grid2 Demo.init2 = Ok Demo.start2) as Hinit
    by (vm_compute; reflexivity).
  assert (loop Demo.cv Demo.grid2 tt 10 Demo.start2 = Some (Ok Demo.end2))
    as Hloop by (vm_compute; reflexivity).
  assert (py_any (changed Demo.end2) = false) as Hany by reflexivity.
  split_and!; [exact Hinit | exact Hloop | exact Hany |].
  destruct (converged_run_is_coordinatewise_maximum 0 Toy.ds6
              (Some Toy.rel6) Demo.grid2 2 false Demo.init2 Demo.start2 10
              Demo.end2) as (cfg & s & Hrun & Hs & _);
    [discriminate | exact Hinit | exact Hloop | exact Hany |].
  exists cfg, s. split; [exact Hrun | exact Hs].
Defined.


(** X11 on an example: the grid [ls_only], with a score that is best at
    length scale 2. *)
Lemma default_run_not_below_default_init_witness :
  dict_get "ls_only" default_grids
  = Ok [("length_scale",
         [1 # 1000; 1 # 200; 1 # 100; 1 # 20; 1 # 10; 1 # 2; 1; 3 # 2; 2;
          5 # 2; 3; 4; 5; 6; 7; 8; 9; 10; 15; 20; 25]%Q)] ∧
  optimize_configured (Externals0 := Demo.ext_q) 5 0 Toy.ds6 (Some Toy.rel6)
    "ls_only" 2 false
  = Some (Ok ([("length_scale", 2%Q)], Fin (0 # 4))) ∧
  ∃ init_values s0,
    evaluator (Externals0 := Demo.ext_q) 0 Toy.ds6 (Some Toy.rel6) 2 false
      (params_of_config
         [("length_scale",
           [1 # 1000; 1 # 200; 1 # 100; 1 # 20; 1 # 10; 1 # 2; 1; 3 # 2; 2;
            5 # 2; 3; 4; 5; 6; 7; 8; 9; 10; 15; 20; 25]%Q)] tt init_values)
    = Ok s0 ∧
    fl_le (Fin s0) (Fin (0 # 4)).
Proof.
  assert (dict_get "ls_only" default_grids
          = Ok [("length_scale",
                 [1 # 1000; 1 # 200; 1 # 100; 1 # 20; 1 # 10; 1 # 2; 1; 3 # 2;
                  2; 5 # 2; 3; 4; 5; 6; 7; 8; 9; 10; 15; 20; 25]%Q)]) as Hgrid
    by reflexivity.
  assert (optimize_configured (Externals0 := Demo.ext_q) 5 0 Toy.ds6
            (Some Toy.rel6) "ls_only" 2 false
          = Some (Ok ([("length_scale", 2%Q)], Fin (0 # 4)))) as Hrun
    by (vm_compute; reflexivity).
  split_and!; [exact Hgrid | exact Hrun |].
  destruct (default_run_not_below_default_init (Externals0 := Demo.ext_q)
              0 Toy.ds6 (Some Toy.rel6) 2 false 5 "ls_only" _ Hgrid)
    as (_ & Hok).
  destruct (Hok _ _ Hrun) as (_ & init_values & s0 & _ & Hs0 & Hle).
  exists init_values, s0. split; [exact Hs0 | exact Hle].
Defined.

(** X12 on an example: [--HELP] after a configuration file and an
    override. *)
Lemma help_ends_the_command_line_witness :
  lower "--HELP" = "--help" ∧
  parse_argv (["cfg.ini"; "--n_folds=5"] ++ "--HELP" :: ["junk"; "more"])
  = parse_argv (["cfg.ini"; "--n_folds=5"] ++ ["--HELP"]).
Proof.
  split; [reflexivity|].
  apply (help_ends_the_command_line ["cfg.ini"; "--n_folds=5"] "--HELP"
           ["junk"; "more"]).
  reflexivity.
Defined.

(** X14 on an example: the key [grid] is given twice, and the second
    value contains ['=']. *)
Lemma rendered_overrides_are_read_back_witness :
  dashed "exp.conf" = None ∧
  parse_argv (map render_override [("grid", "ls_only")] ++
              "exp.conf" ::
              map render_override [("n_folds", "5"); ("grid", "full=x")])
  = Ok (Load "exp.conf"
          (assign_overrides []
             ([("grid", "ls_only")] ++
              [("n_folds", "5"); ("grid", "full=x")]))).
Proof.
  split; [reflexivity|].
  apply (rendered_overrides_are_read_back "exp.conf" [("grid", "ls_only")]
           [("n_folds", "5"); ("grid", "full=x")]); [reflexivity|].
  intros k v Hin. apply (bool_decide_unpack _).
  repeat apply elem_of_cons in Hin as [[= -> ->]|Hin];
    [vm_compute; reflexivity..|by apply elem_of_nil in Hin].
Defined.

(** X15 on an example: the run on [grid2] from the values on which the
    run from [init2] has ended. *)
Lemma coordinatewise_maximum_is_returned_witness :
  Demo.grid2 ≠ [] ∧
  Forall2 (λ p v, Demo.init_end2 !! p = Some v) (param_names Demo.grid2)
    [4; 2]%Z ∧
  ∃ s,
    Demo.cv (params_of_config Demo.grid2 tt [4; 2]%Z) = Ok s ∧
    optimize_gp_params (2 + 0) 0 Toy.ds6 (Some Toy.rel6) Demo.grid2
      Demo.init_end2 2 false
    = Some (Ok ([("length_scale", 4%Z); ("var", 2%Z)], Fin s)).
Proof.
  assert (Demo.grid2 ≠ []) as Hne by discriminate.
  assert (Forall2 (λ p v, Demo.init_end2 !! p = Some v)
            (param_names Demo.grid2) [4; 2]%Z) as Hinit.
  { repeat constructor; vm_compute; reflexivity. }
  split_and!; [exact Hne | exact Hinit |].
  refine (coordinatewise_maximum_is_returned 0 Toy.ds6 (Some Toy.rel6)
            Demo.grid2 2 false Demo.init_end2 [4; 2]%Z 0 Hne Hinit _).
  intros [|[|i]] p vals Hp Hvals; [| |discriminate];
    injection Hp as <-; vm_compute in Hvals; injection Hvals as <-.
  - exists 4%Z. split; [reflexivity|].
    exists [1; 10]%Z, [6]%Z, (-4 # 4)%Q.
    split_and!; [reflexivity | vm_compute; reflexivity | |].
    + intros x Hx.
      repeat apply elem_of_cons in Hx as [->|Hx];
        [| |by apply elem_of_nil in Hx];
        eexists; (split; [vm_compute; reflexivity | reflexivity]).
    + intros x ->%list_elem_of_singleton.
      eexists. split; [vm_compute; reflexivity | discriminate].
  - exists 2%Z. split; [reflexivity|].
    exists [1; 3]%Z, [], (-4 # 4)%Q.
    split_and!; [reflexivity | vm_compute; reflexivity | |].
    + intros x Hx.
      repeat apply elem_of_cons in Hx as [->|Hx];
        [| |by apply elem_of_nil in Hx];
        eexists; (split; [vm_compute; reflexivity | reflexivity]).
    + by intros x ?%elem_of_nil.
Defined.
